(** * A 2d-tree point index: model and verification

    The development follows the three source files of the repository:
    [primitives.h] (points, rectangles, the node and iterator types),
    [mpool.h] (the bitmap pool allocator) and [2dtree.cpp] (the index
    itself: loader, bulk balancing, [put], [contains], [range], [nearest]).

    Numbers.  A C++ [double] is modelled by an exact rational extended with
    the two infinities and a not-a-number value.  Comparisons follow IEEE
    754 (every comparison with [NaN] is false, [INF - INF] is [NaN]);
    finite arithmetic is exact, so rounding is left out of the model.  The
    points of the index have real coordinates, which is [finite_point]
    below; the infinities only occur as the bounds of the rectangles that
    the queries carry down the tree.

    Ownership.  The index owns its nodes exclusively (no node is shared and
    there is no cycle), so the index is an algebraic tree and the in-place
    updates of [put] are functional updates.  Only the result chains handed
    out by the queries are modelled in an explicit store of node cells,
    because the iterator compares node identities.

    Library code.  [std::sort] and [std::hypot] are parameters of the
    definitions that call them, with computable instances for the examples.
    [std::set<Point>] is kept as its sorted sequence where the points it
    meets are ordered by [operator<]; where they need not be (points closer
    than epsilon), the queries are also given over a set that is a
    parameter with the laws of insertion in a search tree, and a red-black
    tree is an instance. *)

From Stdlib Require Import QArith Qabs Qround Lqa ZArith Lia List Bool String.
From Stdlib Require Import Permutation Sorted.
From stdpp Require Import base option list gmap.

(** ** Doubles *)

Inductive double : Type :=
| NaN
| NInf
| Fin (q : Q)
| PInf.

Definition INF : double := PInf.

Definition finite (u : double) : Prop :=
  match u with Fin _ => True | _ => False end.

Definition Qltb (a b : Q) : bool := negb (Qle_bool b a).

(** [u < v] *)
Definition dlt (u v : double) : bool :=
  match u, v with
  | NaN, _ | _, NaN => false
  | NInf, NInf => false
  | NInf, _ => true
  | Fin _, NInf => false
  | Fin a, Fin b => Qltb a b
  | Fin _, PInf => true
  | PInf, _ => false
  end.

(** [u <= v] *)
Definition dle (u v : double) : bool :=
  match u, v with
  | NaN, _ | _, NaN => false
  | NInf, _ => true
  | Fin _, NInf => false
  | Fin a, Fin b => Qle_bool a b
  | Fin _, PInf => true
  | PInf, PInf => true
  | PInf, _ => false
  end.

(** [u > v] and [u >= v] *)
Definition dgt (u v : double) : bool := dlt v u.
Definition dge (u v : double) : bool := dle v u.

(** unary minus, [u - v] and [std::abs] *)
Definition dneg (u : double) : double :=
  match u with
  | NaN => NaN
  | NInf => PInf
  | Fin a => Fin (- a)
  | PInf => NInf
  end.

Definition dsub (u v : double) : double :=
  match u, v with
  | NaN, _ | _, NaN => NaN
  | Fin a, Fin b => Fin (a - b)
  | Fin _, NInf => PInf
  | Fin _, PInf => NInf
  | NInf, PInf | NInf, Fin _ => NInf
  | PInf, NInf | PInf, Fin _ => PInf
  | NInf, NInf | PInf, PInf => NaN
  end.

Definition dabs (u : double) : double :=
  match u with
  | NaN => NaN
  | NInf | PInf => PInf
  | Fin a => Fin (Qabs a)
  end.

(** [std::min(a, b)] is [(b < a) ? b : a]. *)
Definition dmin (a b : double) : double := if dlt b a then b else a.

(** [std::min_element] over a non-empty array: the first smallest element. *)
Definition min_element (first : double) (others : list double) : double :=
  fold_left (fun smallest e => if dlt e smallest then e else smallest)
            others first.

(** [std::numeric_limits<double>::epsilon()], that is [2^-52]. *)
Definition eps : Q := 1 # 4503599627370496.
Definition EPS : double := Fin eps.

(** primitives.h, [double_equal] *)
Definition double_equal (u v : double) : bool := dlt (dabs (dsub u v)) EPS.

(** ** Points (primitives.h, [class Point]) *)

Record Point : Type := mkPoint { x : double; y : double }.

Definition finite_point (p : Point) : Prop := finite (x p) /\ finite (y p).

(** [Point::operator==] *)
Definition point_eq (this another : Point) : bool :=
  double_equal (x this) (x another) && double_equal (y this) (y another).

(** [Point::operator<] *)
Definition point_lt (this another : Point) : bool :=
  if double_equal (x this) (x another) then
    if double_equal (y this) (y another) then false
    else dlt (y this) (y another)
  else dlt (x this) (x another).

(** [Point::operator<=], [operator>], [operator>=], [operator!=] *)
Definition point_le (this another : Point) : bool :=
  point_eq this another || point_lt this another.
Definition point_gt (this another : Point) : bool := negb (point_le this another).
Definition point_ge (this another : Point) : bool := negb (point_lt this another).
Definition point_ne (this another : Point) : bool := negb (point_eq this another).

(** A point with integer coordinates, for examples. *)
Definition pt (a b : Z) : Point := mkPoint (Fin (inject_Z a)) (Fin (inject_Z b)).

(** Two coordinates that the tolerance cannot confuse: identical, or at
    least [EPS] apart. *)
Definition apart (u v : double) : Prop :=
  match u, v with
  | Fin a, Fin b => (a == b \/ eps <= Qabs (a - b))%Q
  | _, _ => False
  end.

Definition points_apart (a b : Point) : Prop :=
  apart (x a) (x b) /\ apart (y a) (y b).

(** Exactly one of [a < b], [a == b], [b < a], given the three answers. *)
Definition exactly_one_of (lt_ab eq_ab lt_ba : bool) : Prop :=
  (lt_ab = true /\ eq_ab = false /\ lt_ba = false) \/
  (lt_ab = false /\ eq_ab = true /\ lt_ba = false) \/
  (lt_ab = false /\ eq_ab = false /\ lt_ba = true).

(** A point whose coordinates are multiples of [2^-54], a quarter of
    [EPS]. *)
Definition quarter_eps_pt (a b : Z) : Point :=
  mkPoint (Fin (a # 18014398509481984)) (Fin (b # 18014398509481984)).

(** ** Rectangles (primitives.h, [class Rect]) *)

Record Rect : Type := mkRect { left_bottom : Point; right_top : Point }.

(** [Rect::Rect()] *)
Definition Rect_default : Rect :=
  mkRect (mkPoint (Fin 0) (Fin 0)) (mkPoint (Fin 0) (Fin 0)).

Definition xmin (r : Rect) : double := x (left_bottom r).
Definition ymin (r : Rect) : double := y (left_bottom r).
Definition xmax (r : Rect) : double := x (right_top r).
Definition ymax (r : Rect) : double := y (right_top r).

(** [Rect::contains] *)
Definition rect_contains (this : Rect) (point : Point) : bool :=
  dle (x point) (xmax this) && dge (x point) (xmin this) &&
  dle (y point) (ymax this) && dge (y point) (ymin this).

(** [Rect::intersects_impl]: does [this] contain a corner of [another]? *)
Definition intersects_impl (this another : Rect) : bool :=
  rect_contains this (mkPoint (xmin another) (ymin another)) ||
  rect_contains this (mkPoint (xmin another) (ymax another)) ||
  rect_contains this (mkPoint (xmax another) (ymin another)) ||
  rect_contains this (mkPoint (xmax another) (ymax another)).

(** [Rect::intersects] *)
Definition intersects (this another : Rect) : bool :=
  intersects_impl this another || intersects_impl another this.

(** The two rectangles really share a point: the overlap of closed
    intervals on both axes, against which [intersects] is compared. *)
Definition overlaps (a b : Rect) : bool :=
  dle (xmin a) (xmax b) && dle (xmin b) (xmax a) &&
  dle (ymin a) (ymax b) && dle (ymin b) (ymax a).

(** Distances depend on [std::hypot], which is a library function and is
    taken as a parameter. *)
Section Distance.
Variable hypot : double -> double -> double.

(** [Point::distance] *)
Definition point_distance (this another : Point) : double :=
  hypot (dsub (x this) (x another)) (dsub (y this) (y another)).

(** [Rect::distance] *)
Definition rect_distance (this : Rect) (point : Point) : double :=
  if rect_contains this point then Fin 0
  else
    min_element
      (point_distance point (mkPoint (xmin this) (ymin this)))
      [ point_distance point (mkPoint (xmin this) (ymax this));
        point_distance point (mkPoint (xmax this) (ymin this));
        point_distance point (mkPoint (xmax this) (ymax this));
        (if dle (x point) (xmax this) && dge (x point) (xmin this)
         then dmin (dabs (dsub (y point) (ymin this)))
                   (dabs (dsub (y point) (ymax this)))
         else INF);
        (if dle (y point) (ymax this) && dge (y point) (ymin this)
         then dmin (dabs (dsub (x point) (xmin this)))
                   (dabs (dsub (x point) (xmax this)))
         else INF) ].
End Distance.

(** ** The pool allocator (mpool.h, [namespace pool])

    [m_storage] is a byte vector that is never read or written through the
    pool itself; the model keeps its length.  A pointer into the arena is
    its byte offset from [&m_storage[0]]; a negative offset stands for a
    pointer below the arena.  [npos] and the [throw std::bad_alloc] that
    follows it are the [None] results. *)
Module pool.

Record Pool : Type := mkPool {
  m_obj_size : nat;
  m_storage : nat;
  m_used_map : list bool
}.

(** [Pool::Pool(obj_size, obj_count)] *)
Definition create_pool (obj_size obj_count : nat) : Pool :=
  mkPool obj_size (obj_size * obj_count) (replicate obj_count false).

Definition get_obj_size (p : Pool) : nat := m_obj_size p.

(** [m_used_map[j]] for [j] below the size of the map *)
Definition used (m : list bool) (j : nat) : bool := default false (m !! j).




(** [for (i = pos; i < pos + n; ++i) m_used_map[i] = value;] *)
Fixpoint fill (m : list bool) (pos n : nat) (value : bool) : list bool :=
  match n with
  | O => m
  | S n' => fill (<[pos := value]> m) (S pos) n' value
  end.


(** [Pool::deallocate].  [ptr] is the offset of the pointer from the start
    of the arena.  The division is that of the source for a record size
    above zero; with a record size of zero the source divides by zero. *)
Definition deallocate (p : Pool) (ptr : Z) (n : nat) : Pool :=
  if (0 <=? ptr)%Z then
    let offset := Z.to_nat (ptr / Z.of_nat (m_obj_size p)) in
    if (offset <? length (m_used_map p))%nat then
      let count := Nat.min n (length (m_used_map p) - offset) in
      mkPool (m_obj_size p) (m_storage p) (fill (m_used_map p) offset count false)
    else p
  else p.








End pool.

(** ** Ordered containers of the standard library

    [std::set<Point>] and [std::map<double, Point>] are kept as the list of
    their elements in iteration order.  Insertion walks to the first element
    that is not less than the new one and drops the new one when it is not
    less than that element either (the two are then equivalent for the
    container). *)

(** [std::set<Point>::insert], the set being the sequence that iteration
    gives.  This is what the set of the library does while [operator<] is
    a strict weak order on the points it meets.  On points closer than
    epsilon the order is not one, and what a set keeps depends on the
    shape of its tree: for that case the queries are also given over a set
    taken as a parameter ([std_set] below). *)
Fixpoint set_insert (p : Point) (s : list Point) : list Point :=
  match s with
  | [] => [p]
  | e :: s' =>
      if point_lt e p then e :: set_insert p s'
      else if point_lt p e then p :: e :: s'
      else e :: s'
  end.

(** [point_map::emplace], with [std::less<double>] on the keys.  The node
    of the entry comes from the pool of the call; the model does not ask
    the pool, and stands for the source as long as the pool has a free
    record (see [pool_fits] below). *)
Fixpoint map_emplace (d : double) (p : Point) (m : list (double * Point))
  : list (double * Point) :=
  match m with
  | [] => [(d, p)]
  | e :: m' =>
      if dlt (fst e) d then e :: map_emplace d p m'
      else if dlt d (fst e) then (d, p) :: e :: m'
      else e :: m'
  end.

(** ** The loader ([read] in 2dtree.cpp)

    The stream is the list of the real-number tokens of the file.  [in >> v]
    takes the next token; on an exhausted stream it fails and leaves [v] as
    it was.  [y] is not initialised in the source: its first value is the
    parameter [y0]. *)
Fixpoint read_loop (tokens : list double) (y_var : double) (result : list Point)
  : list Point :=
  match tokens with
  | [] => result
  | x_tok :: [] => result ++ [mkPoint x_tok y_var]
  | x_tok :: y_tok :: rest => read_loop rest y_tok (result ++ [mkPoint x_tok y_tok])
  end.

Definition read (y0 : double) (tokens : list double) : list Point :=
  read_loop tokens y0 [].

(** The points of the complete pairs of a token list. *)
Fixpoint complete_pairs (tokens : list double) : list Point :=
  match tokens with
  | x_tok :: y_tok :: rest => mkPoint x_tok y_tok :: complete_pairs rest
  | _ => []
  end.

(** ** The index (primitives.h and 2dtree.cpp, [namespace kdtree]) *)
Module kdtree.

Inductive Orientation : Type := Vertical | Horizontal.

Definition next (that : Orientation) : Orientation :=
  match that with
  | Vertical => Horizontal
  | Horizontal => Vertical
  end.

(** [std::shared_ptr<Node>]: null, or a node with its point, orientation,
    children and cached size. *)
Inductive NodePtr : Type :=
| nullptr
| Node (point : Point) (orientation : Orientation)
       (left right : NodePtr) (size : nat).

(** [Node::Node(point, orientation)] under [std::make_shared] *)
Definition make_node (point : Point) (orientation : Orientation) : NodePtr :=
  Node point orientation nullptr nullptr 1.

Record PointSet : Type := mkPointSet { root : NodePtr }.

(** [PointSet::empty] *)
Definition empty (s : PointSet) : bool :=
  match root s with
  | nullptr => true
  | Node _ _ _ _ sz => (sz =? 0)%nat
  end.

(** [PointSet::size] *)
Definition size (s : PointSet) : nat :=
  match root s with
  | nullptr => 0%nat
  | Node _ _ _ _ sz => sz
  end.

(** The routing test shared by [contains] and [put]. *)
Definition goes_right (o : Orientation) (node_point key : Point) : bool :=
  match o with
  | Vertical => dge (x key) (x node_point)
  | Horizontal => dge (y key) (y node_point)
  end.

(** The loop of [PointSet::contains] *)
Fixpoint contains_loop (now : NodePtr) (key : Point) : bool :=
  match now with
  | nullptr => false
  | Node p o l r _ =>
      if point_eq p key then true
      else if goes_right o p key then contains_loop r key
      else contains_loop l key
  end.

Definition contains (s : PointSet) (key : Point) : bool :=
  contains_loop (root s) key.

(** The loop of [PointSet::put] and the attachment that follows it.  The
    loop returns from [put] at a node equal to [key]; until then every
    visited node has had [size++] applied. *)
Fixpoint put_loop (now : NodePtr) (key : Point) (now_orientation : Orientation)
  : NodePtr :=
  match now with
  | nullptr => make_node key now_orientation
  | Node p o l r sz =>
      if point_eq key p then Node p o l r sz
      else if goes_right o p key
           then Node p o l (put_loop r key (next now_orientation)) (S sz)
           else Node p o (put_loop l key (next now_orientation)) r (S sz)
  end.

Definition put (s : PointSet) (key : Point) : PointSet :=
  mkPointSet (put_loop (root s) key Vertical).

(** Methods as state transformers over the index: a [const] method hands
    the index back as it received it. *)
Definition method (A : Type) : Type := PointSet -> A * PointSet.
Definition put_m (key : Point) : method unit := fun s => (tt, put s key).
Definition contains_m (key : Point) : method bool := fun s => (contains s key, s).

(** The node invariant on cached sizes. *)
Definition cached (n : NodePtr) : nat :=
  match n with
  | nullptr => 0%nat
  | Node _ _ _ _ sz => sz
  end.

Fixpoint size_invariant (n : NodePtr) : bool :=
  match n with
  | nullptr => true
  | Node _ _ l r sz =>
      (sz =? 1 + cached l + cached r)%nat && size_invariant l && size_invariant r
  end.

(** The points stored in the index, in the order of [PointSet::print]. *)
Fixpoint points (n : NodePtr) : list Point :=
  match n with
  | nullptr => []
  | Node p _ l r _ => points l ++ p :: points r
  end.

(** *** Bulk construction *)
Section Balancing.
(** [std::sort] by a comparison; the order it gives to elements that
    compare equivalent is unspecified, so the sort is a parameter. *)
Variable sort : (Point -> Point -> bool) -> list Point -> list Point.

Definition by_axis (now : Orientation) (p1 p2 : Point) : bool :=
  match now with
  | Vertical => dlt (x p1) (x p2)
  | Horizontal => dlt (y p1) (y p2)
  end.

(** [PointSet::balancing] on the range [range_]; every recursive call is
    on a strictly shorter range, so [depth] counts down from its
    length. *)
Fixpoint balancing_rec (depth : nat) (range_ : list Point) (now : Orientation)
         (s : PointSet) : PointSet :=
  match depth with
  | O => s
  | S depth' =>
      match range_ with
      | [] => s
      | _ :: _ =>
          let sorted := sort (by_axis now) range_ in
          let half := (length range_ / 2)%nat in
          match sorted !! half with
          | None => s
          | Some middle =>
              let s1 := put s middle in
              let s2 := balancing_rec depth' (take half sorted) (next now) s1 in
              balancing_rec depth' (drop (S half) sorted) (next now) s2
          end
      end
  end.

Definition balancing (range_ : list Point) (now : Orientation) (s : PointSet)
  : PointSet :=
  balancing_rec (length range_) range_ now s.

(** [PointSet::PointSet(filename)]; [file] gives the tokens of the named
    file. *)
Definition PointSet_new (y0 : double) (file : string -> list double)
           (filename : string) : PointSet :=
  if String.eqb filename EmptyString then mkPointSet nullptr
  else balancing (read y0 (file filename)) Vertical (mkPointSet nullptr).
End Balancing.

(** One admissible [std::sort]: insertion sort. *)
Fixpoint sort_insert (lt : Point -> Point -> bool) (p : Point) (l : list Point)
  : list Point :=
  match l with
  | [] => [p]
  | q :: l' => if lt q p then q :: sort_insert lt p l' else p :: q :: l'
  end.

Definition std_sort (lt : Point -> Point -> bool) (l : list Point) : list Point :=
  foldr (sort_insert lt) [] l.

(** *** Node cells and iterators

    A result chain is built from fresh nodes.  [cell] is [struct Node]
    with its two [shared_ptr] fields as optional addresses, and the store
    maps the addresses of the allocated nodes to their cells.  The pools
    made by [new Pool] live in a second map. *)
Definition loc : Type := positive.

Record cell : Type := mkCell {
  c_point : Point;
  c_orientation : Orientation;
  c_left : option loc;
  c_right : option loc;
  c_size : nat
}.

Record World : Type := mkWorld {
  nodes : gmap loc cell;
  pools : gmap loc pool.Pool
}.

(** The index [t] occupies the cells of [h] reachable from [r]. *)
Fixpoint laid_out (h : gmap loc cell) (r : option loc) (t : NodePtr) : Prop :=
  match t with
  | nullptr => r = None
  | Node p o l r' sz =>
      exists a cl cr,
        r = Some a /\ h !! a = Some (mkCell p o cl cr sz) /\
        laid_out h cl l /\ laid_out h cr r'
  end.

(** [std::make_shared<Node>(point, orientation)] *)
Definition make_shared (point : Point) (orientation : Orientation) (h : gmap loc cell)
  : loc * gmap loc cell :=
  let a := fresh (dom h) in
  (a, <[a := mkCell point orientation None None 1]> h).

(** [now->left = node] *)
Definition set_left (now : loc) (node : option loc) (h : gmap loc cell) : gmap loc cell :=
  alter (fun c => mkCell (c_point c) (c_orientation c) node (c_right c) (c_size c))
        now h.

(** The loop of [PointSet::save_tree] over the elements after the first *)
Fixpoint save_tree_loop (rest : list Point) (now : loc) (h : gmap loc cell) : gmap loc cell :=
  match rest with
  | [] => h
  | p :: rest' =>
      let '(a, h1) := make_shared p Vertical h in
      save_tree_loop rest' a (set_left now (Some a) h1)
  end.

(** [PointSet::save_tree].  On an empty set the source dereferences
    [begin()]; no caller does, and the model answers with a null pointer. *)
Definition save_tree (ans_set : list Point) (h : gmap loc cell) : option loc * gmap loc cell :=
  match ans_set with
  | [] => (None, h)
  | p :: rest =>
      let '(ans_root, h1) := make_shared p Vertical h in
      (Some ans_root, save_tree_loop rest ans_root h1)
  end.

(** [PointSet::iterator] *)
Record iterator : Type := mkIterator {
  queue : list loc;
  now : option loc
}.

(** [iterator()] and [iterator(node)] *)
Definition iterator_default : iterator := mkIterator [] None.
Definition iterator_at (node : option loc) : iterator := mkIterator [] node.

(** [operator*] *)
Definition deref (h : gmap loc cell) (it : iterator) : option Point :=
  match now it with
  | Some a => c_point <$> h !! a
  | None => None
  end.

(** Prefix [operator++] *)
Definition incr (h : gmap loc cell) (it : iterator) : iterator :=
  match now it with
  | None => it
  | Some a =>
      match h !! a with
      | None => it
      | Some c =>
          let q1 := queue it ++ option_list (c_left c) in
          let q2 := q1 ++ option_list (c_right c) in
          match q2 with
          | [] => mkIterator [] None
          | front :: q3 => mkIterator q3 (Some front)
          end
      end
  end.

(** [operator==] on iterators *)
Definition iterator_eq (a b : iterator) : bool := bool_decide (now a = now b).

(** The iterator after [n] increments. *)
Definition advance (h : gmap loc cell) (n : nat) (it : iterator) : iterator :=
  Nat.iter n (incr h) it.

(** *** Range queries *)

(** [PointSet::split] *)
Definition split (rect_now : Rect) (node_point : Point) (node_orientation : Orientation)
  : Rect * Rect :=
  match node_orientation with
  | Vertical =>
      let x0 := x node_point in
      let rect_right := mkRect (mkPoint x0 (ymin rect_now)) (right_top rect_now) in
      let rect_left := mkRect (left_bottom rect_now) (mkPoint x0 (ymax rect_now)) in
      (rect_left, rect_right)
  | Horizontal =>
      let y0 := y node_point in
      let rect_left := mkRect (left_bottom rect_now) (mkPoint (xmax rect_now) y0) in
      let rect_right := mkRect (mkPoint (xmin rect_now) y0) (right_top rect_now) in
      (rect_left, rect_right)
  end.

(** [Rect(Point(-INF, -INF), Point(INF, INF))] *)
Definition whole_plane : Rect :=
  mkRect (mkPoint (dneg INF) (dneg INF)) (mkPoint INF INF).

(** [PointSet::range_impl] *)
Fixpoint range_impl (key : Rect) (node : NodePtr) (ans_set : list Point)
         (rect_now : Rect) : list Point :=
  match node with
  | nullptr => ans_set
  | Node p o l r _ =>
      if negb (intersects key rect_now) then ans_set
      else
        let ans1 := if rect_contains key p then set_insert p ans_set else ans_set in
        let '(rect_left, rect_right) := split rect_now p o in
        range_impl key r (range_impl key l ans1 rect_left) rect_right
  end.

(** The set that [range] collects before it builds the chain. *)
Definition range_set (s : PointSet) (key : Rect) : list Point :=
  range_impl key (root s) [] whole_plane.

(** [PointSet::range] *)
Definition range (s : PointSet) (key : Rect) (w : World)
  : World * (iterator * iterator) :=
  let ans_set := range_set s key in
  match ans_set with
  | [] => (w, (iterator_default, iterator_default))
  | _ :: _ =>
      let '(r, h) := save_tree ans_set (nodes w) in
      (mkWorld h (pools w), (iterator_at r, iterator_default))
  end.

(** *** Nearest neighbours *)

(** [PoolAllocator<T>::create_pool]: [new Pool(sizeof(T), obj_count)] *)
Definition create_pool (sizeof_T obj_count : nat) (w : World) : loc * World :=
  let a := fresh (dom (pools w)) in
  (a, mkWorld (nodes w) (<[a := pool.create_pool sizeof_T obj_count]> (pools w))).

(** [PoolAllocator<T>::destroy_pool]: [delete pool] *)
Definition destroy_pool (a : loc) (w : World) : World :=
  mkWorld (nodes w) (delete a (pools w)).

Section Nearest.
Variable hypot : double -> double -> double.
(** [sizeof(map_node)] *)
Variable sizeof_map_node : nat.

(** [(--ans_set.end())->first]; on an empty map the source steps before
    [begin()], which no call with [k > 0] reaches. *)
Definition worst (ans_set : list (double * Point)) : double :=
  match last ans_set with
  | Some e => fst e
  | None => NaN
  end.

(** [PointSet::nearest_impl] *)
Fixpoint nearest_impl (key : Point) (k : nat) (node : NodePtr)
         (ans_set : list (double * Point)) (rect_now : Rect)
  : list (double * Point) :=
  match node with
  | nullptr => ans_set
  | Node p o l r _ =>
      let ans1 := map_emplace (point_distance hypot key p) p ans_set in
      let ans2 := if (k <? length ans1)%nat then removelast ans1 else ans1 in
      if dgt (rect_distance hypot rect_now key) (worst ans2) then ans2
      else
        let '(rect_left, rect_right) := split rect_now p o in
        nearest_impl key k r (nearest_impl key k l ans2 rect_left) rect_right
  end.

(** The candidates that [nearest(key, k)] holds after the search. *)
Definition nearest_candidates (s : PointSet) (key : Point) (k : nat)
  : list (double * Point) :=
  nearest_impl key k (root s) [] whole_plane.

(** [for (const auto & [dist, point] : ans_set) set.insert(point);] *)
Definition nearest_set (s : PointSet) (key : Point) (k : nat) : list Point :=
  fold_left (fun set e => set_insert (snd e) set) (nearest_candidates s key k) [].

(** [PointSet::nearest(key, k)].  The source computes [k + 1] in
    [std::size_t]; the model does not wrap it (see [pool_fits] below). *)
Definition nearest (s : PointSet) (key : Point) (k : nat) (w : World)
  : World * (iterator * iterator) :=
  if (k =? 0)%nat then (w, (iterator_default, iterator_default))
  else
    let '(pool_, w1) := create_pool sizeof_map_node (k + 1) w in
    match nearest_candidates s key k with
    | [] => (w1, (iterator_default, iterator_default))
    | _ :: _ =>
        let set := nearest_set s key k in
        let w2 := destroy_pool pool_ w1 in
        let '(r, h) := save_tree set (nodes w2) in
        (mkWorld h (pools w2), (iterator_at r, iterator_default))
    end.

(** [PointSet::nearest(key)] *)
Definition nearest_one (s : PointSet) (key : Point) (w : World)
  : World * option Point :=
  let '(w1, (begin_, end_)) := nearest s key 1 w in
  if iterator_eq begin_ end_ then (w1, None)
  else (w1, deref (nodes w1) begin_).
End Nearest.

(** *** The result protocol *)

(** A query, the set it collects and the call that answers it. *)
Inductive query : Type :=
| RangeQuery (key : Rect)
| NearestQuery (key : Point) (k : nat).

Section Queries.
Variable hypot : double -> double -> double.
Variable sizeof_map_node : nat.

Definition result_set (s : PointSet) (q : query) : list Point :=
  match q with
  | RangeQuery key => range_set s key
  | NearestQuery key k => if (k =? 0)%nat then [] else nearest_set hypot s key k
  end.

Definition run_query (s : PointSet) (q : query) (w : World)
  : World * (iterator * iterator) :=
  match q with
  | RangeQuery key => range s key w
  | NearestQuery key k => nearest hypot sizeof_map_node s key k w
  end.
End Queries.

(** Each point is less than the next one. *)
Definition increasing (l : list Point) : Prop :=
  Sorted (fun a b => point_lt a b = true) l.

(** The cells of [h] from [a] on form a chain through their left links,
    hold [p] and then the points of [rest], and lie outside [taken]. *)
Fixpoint chain (h : gmap loc cell) (taken : gset loc) (a : loc) (p : Point)
         (rest : list Point) : Prop :=
  (a ∉ taken) /\
  match rest with
  | [] => h !! a = Some (mkCell p Vertical None None 1)
  | q :: rest' =>
      exists b, h !! a = Some (mkCell p Vertical (Some b) None 1) /\
                chain h taken b q rest'
  end.

(** What a caller sees of a non-empty result [l] handed out in the store
    [h'] by a call that started in the store [h]: [second] is the end
    sentinel; the [i]-th increment of [first] stands on a node that was
    not in [h], holds the [i]-th point of [l] and differs from [second];
    after one increment per point [first] equals [second]; and no cell of
    [h] has changed. *)
Definition delivered (h h' : gmap loc cell) (first second : iterator)
           (l : list Point) : Prop :=
  second = iterator_default /\
  (forall i p, l !! i = Some p ->
     deref h' (advance h' i first) = Some p /\
     iterator_eq (advance h' i first) second = false /\
     exists a, now (advance h' i first) = Some a /\ h !! a = None) /\
  iterator_eq (advance h' (length l) first) second = true /\
  (forall a c, h !! a = Some c -> h' !! a = Some c).

End kdtree.

(** A computable stand-in for [std::hypot], used to run examples: the
    Euclidean norm rounded down to a multiple of [2^-52] (exact whenever the
    norm is such a multiple); an infinite argument gives [INF]. *)
Definition Qsqrt_floor (q : Q) : Q :=
  Z.sqrt (Qfloor (q * inject_Z 20282409603651670423947251286016)) # 4503599627370496.

Definition hypot_floor (u v : double) : double :=
  match u, v with
  | NInf, _ | PInf, _ | _, NInf | _, PInf => PInf
  | NaN, _ | _, NaN => NaN
  | Fin a, Fin b => Fin (Qsqrt_floor (a * a + b * b))
  end.

(** ** Further notions used to state what the code guarantees *)



(** The slot that [deallocate] computes from a pointer. *)
Definition slot_of (p : pool.Pool) (ptr : Z) : nat :=
  Z.to_nat (ptr / Z.of_nat (pool.m_obj_size p)).

(** *** The descent as the specification words it

    At a node the key is compared with the point of the node along the
    orientation axis of the node (x at a Vertical node, y at a Horizontal
    one): [>=] routes right, [<] routes left, and a node equal to the key
    within epsilon stops the descent.  These definitions follow the words
    of the specification; [kdtree.contains_loop] and [kdtree.put_loop]
    follow the source, and the theorem on [put] and [contains] compares
    the two. *)
Inductive direction : Type := GoLeft | GoRight.

Definition axis (o : kdtree.Orientation) (p : Point) : double :=
  match o with
  | kdtree.Vertical => x p
  | kdtree.Horizontal => y p
  end.

(** [spec_descent key t path found]: from the node [t] the descent for
    [key] takes the turns of [path] and then stops at a node equal to
    [key] ([found = true]) or leaves the tree ([found = false]). *)
Inductive spec_descent (key : Point) : kdtree.NodePtr -> list direction -> bool -> Prop :=
| descent_off : spec_descent key kdtree.nullptr [] false
| descent_stop (p : Point) (o : kdtree.Orientation) (l r : kdtree.NodePtr) (sz : nat) :
    point_eq p key = true ->
    spec_descent key (kdtree.Node p o l r sz) [] true
| descent_right (p : Point) (o : kdtree.Orientation) (l r : kdtree.NodePtr) (sz : nat)
                (path : list direction) (found : bool) :
    point_eq p key = false ->
    dge (axis o key) (axis o p) = true ->
    spec_descent key r path found ->
    spec_descent key (kdtree.Node p o l r sz) (GoRight :: path) found
| descent_left (p : Point) (o : kdtree.Orientation) (l r : kdtree.NodePtr) (sz : nat)
               (path : list direction) (found : bool) :
    point_eq p key = false ->
    dlt (axis o key) (axis o p) = true ->
    spec_descent key l path found ->
    spec_descent key (kdtree.Node p o l r sz) (GoLeft :: path) found.

(** The subtree at the end of a path from [t] (null when the path leaves
    the tree). *)
Fixpoint subtree (t : kdtree.NodePtr) (path : list direction) : kdtree.NodePtr :=
  match path, t with
  | [], _ => t
  | _ :: _, kdtree.nullptr => kdtree.nullptr
  | GoLeft :: path', kdtree.Node _ _ l _ _ => subtree l path'
  | GoRight :: path', kdtree.Node _ _ _ r _ => subtree r path'
  end.

(** The orientation that [put] has reached after as many turns as [path]
    has, from [Vertical] at the root. *)
Definition orientation_after (path : list direction) : kdtree.Orientation :=
  Nat.iter (length path) kdtree.next kdtree.Vertical.

(** The index before any [put]. *)
Definition empty_index : kdtree.PointSet := kdtree.mkPointSet kdtree.nullptr.

(** The states of the index that [put] produces from the empty index with
    points of real coordinates. *)
Inductive reachable : kdtree.PointSet -> Prop :=
| reachable_empty : reachable empty_index
| reachable_put (s : kdtree.PointSet) (p : Point) :
    reachable s -> finite_point p -> reachable (kdtree.put s p).

(** The orientation of the nodes is [o] at the root and alternates from
    each node to its children. *)
Fixpoint alternating (o : kdtree.Orientation) (t : kdtree.NodePtr) : Prop :=
  match t with
  | kdtree.nullptr => True
  | kdtree.Node _ o' l r _ =>
      o' = o /\ alternating (kdtree.next o) l /\ alternating (kdtree.next o) r
  end.

(** The points below a node lie on the side the routing test sends them:
    left when [key >= node] fails on the node's axis, right when it holds. *)
Fixpoint routed (t : kdtree.NodePtr) : Prop :=
  match t with
  | kdtree.nullptr => True
  | kdtree.Node p o l r _ =>
      (forall q, In q (kdtree.points l) -> kdtree.goes_right o p q = false) /\
      (forall q, In q (kdtree.points r) -> kdtree.goes_right o p q = true) /\
      routed l /\ routed r
  end.

(** The points below every node lie in the rectangle that the queries
    carry to the node when they start from [rect] at the root. *)
Fixpoint within (rect : Rect) (t : kdtree.NodePtr) : Prop :=
  match t with
  | kdtree.nullptr => True
  | kdtree.Node p o l r sz =>
      (forall q, In q (kdtree.points (kdtree.Node p o l r sz)) ->
                 rect_contains rect q = true) /\
      within (fst (kdtree.split rect p o)) l /\
      within (snd (kdtree.split rect p o)) r
  end.

(** No cached size is below the number of nodes it stands for. *)
Fixpoint counted (t : kdtree.NodePtr) : Prop :=
  match t with
  | kdtree.nullptr => True
  | kdtree.Node _ _ l r sz =>
      (1 + kdtree.cached l + kdtree.cached r <= sz)%nat /\ counted l /\ counted r
  end.

(** A rectangle whose lower-left corner is not above or right of its
    upper-right corner. *)
Definition well_formed (r : Rect) : Prop :=
  dle (xmin r) (xmax r) = true /\ dle (ymin r) (ymax r) = true.

(** *** Level order

    The order in which the iterator is expected to walk the live index:
    the root, then the nodes of each level from left to right. *)
Definition non_null (t : kdtree.NodePtr) : list kdtree.NodePtr :=
  match t with
  | kdtree.nullptr => []
  | _ => [t]
  end.

Definition children (t : kdtree.NodePtr) : list kdtree.NodePtr :=
  match t with
  | kdtree.nullptr => []
  | kdtree.Node _ _ l r _ => non_null l ++ non_null r
  end.

Definition forest_size (forest : list kdtree.NodePtr) : nat :=
  list_sum (map (fun t => length (kdtree.points t)) forest).

Fixpoint level_order (n : nat) (forest : list kdtree.NodePtr) : list Point :=
  match n with
  | O => []
  | S n' =>
      match forest with
      | [] => []
      | kdtree.nullptr :: rest => level_order n' rest
      | kdtree.Node p o l r sz :: rest =>
          p :: level_order n' (rest ++ children (kdtree.Node p o l r sz))
      end
  end.

Definition breadth_first (t : kdtree.NodePtr) : list Point :=
  level_order (length (kdtree.points t)) (non_null t).

(** The node [t], not null, occupies the cells of [h] from address [a]. *)
Definition placed (h : gmap kdtree.loc kdtree.cell) (a : kdtree.loc) (t : kdtree.NodePtr)
  : Prop :=
  t <> kdtree.nullptr /\ kdtree.laid_out h (Some a) t.

(** No two points of the list are equal within epsilon. *)
Fixpoint distinct_eps (l : list Point) : Prop :=
  match l with
  | [] => True
  | p :: l' => (forall q, In q l' -> point_eq p q = false) /\ distinct_eps l'
  end.

(** *** What the search needs of [std::hypot]

    On finite arguments the result is a finite number that is at least
    the magnitude of each argument and does not decrease when the
    magnitudes grow; on other arguments that are numbers the result is a
    number. *)
Record hypot_laws (hypot : double -> double -> double) : Prop := {
  hypot_fin : forall a b, exists c, hypot (Fin a) (Fin b) = Fin c;
  hypot_axis : forall a b c,
    hypot (Fin a) (Fin b) = Fin c -> (Qabs a <= c /\ Qabs b <= c)%Q;
  hypot_mono : forall a b a' b' c c',
    (Qabs a <= Qabs a')%Q -> (Qabs b <= Qabs b')%Q ->
    hypot (Fin a) (Fin b) = Fin c -> hypot (Fin a') (Fin b') = Fin c' -> (c <= c')%Q;
  hypot_number : forall u v, u <> NaN -> v <> NaN -> hypot u v <> NaN
}.

(** A second computable stand-in for [std::hypot], which obeys these laws:
    the Euclidean norm rounded up to a multiple of [2^-52]. *)
Definition Qsqrt_up (q : Q) : Q :=
  let scaled := (q * inject_Z 20282409603651670423947251286016)%Q in
  let f := Z.sqrt (Qfloor scaled) in
  (if Qle_bool scaled (inject_Z (f * f)) then f else f + 1)%Z # 4503599627370496.

Definition hypot_up (u v : double) : double :=
  match u, v with
  | NaN, _ | _, NaN => NaN
  | Fin a, Fin b => Fin (Qsqrt_up (a * a + b * b))
  | _, _ => PInf
  end.

(** *** The pool of a nearest-neighbour call

    [nearest(key, k)] asks for a pool of [k + 1] records of
    [sizeof(map_node)] bytes.  The source computes the count [k + 1] and
    the byte size of the arena in [std::size_t], and keeps the arena in a
    [std::vector<std::byte>] and the map of used slots in a
    [std::vector<bool>].  The model computes both numbers without a bound
    and lets the candidate map grow without asking the pool: it stands for
    the source on the calls where the arena is at most [2^62] bytes, which
    is below the wrap of [std::size_t] and below the largest size of either
    vector, and on which the map, never above [k + 1] nodes of one record
    each, always finds a free record (requests for single records within
    the capacity never fail, as proved for the pool).  (At [k = SIZE_MAX] the count wraps to [0] and the first
    [emplace] of the source throws [std::bad_alloc].) *)
Definition ARENA_MAX : Z := 4611686018427387904.

Definition pool_fits (sizeof_map_node k : nat) : Prop :=
  (0 < sizeof_map_node)%nat /\
  (Z.of_nat sizeof_map_node * (Z.of_nat k + 1) <= ARENA_MAX)%Z.

(** *** What the candidates of a nearest-neighbour search are

    Two distances that the order of the map does not tell apart. *)
Definition same_distance (u v : double) : Prop :=
  dlt u v = false /\ dlt v u = false.

(** The order of the candidate map on its entries. *)
Definition key_lt (a b : double * Point) : Prop := dlt (fst a) (fst b) = true.

(** The distance of [q] is accounted for by the candidates [M]: it is kept,
    or [M] holds [k] distances that are all smaller. *)
Definition covered (hypot : double -> double -> double) (key : Point) (k : nat)
           (M : list (double * Point)) (q : Point) : Prop :=
  (exists e, In e M /\ same_distance (fst e) (point_distance hypot key q)) \/
  (length M = k /\
   forall e, In e M -> dlt (fst e) (point_distance hypot key q) = true).

(** [M] is a right answer for the points [V]: every entry is a point of
    [V] with its distance to the key, the distances are strictly
    increasing, there are at most [k] of them, and the distance of every
    point of [V] is accounted for.  So [M] holds one point for each of the
    [k] smallest distinct distances from the key to a point of [V] (for
    all of them when there are fewer than [k]). *)
Definition candidates_ok (hypot : double -> double -> double) (key : Point) (k : nat)
           (V : list Point) (M : list (double * Point)) : Prop :=
  (forall e, In e M -> In (snd e) V /\ fst e = point_distance hypot key (snd e)) /\
  StronglySorted key_lt M /\
  (length M <= k)%nat /\
  forall q, In q V -> covered hypot key k M q.

(** Cutting the map back to [k] entries after one insertion:
    [if (ans_set.size() > k) ans_set.erase(--ans_set.end());] *)
Definition trimmed (k : nat) (m : list (double * Point)) : list (double * Point) :=
  if (k <? length m)%nat then removelast m else m.

(** ** Queries over the [std::set] of the library

    [range] and [nearest] collect their result in a [std::set<Point>],
    ordered by [Point::operator<].  That order is not transitive on points
    closer than epsilon, and on such points the elements a [std::set] keeps
    depend on the shape of its search tree, which is the library's.  Here
    the set is a parameter: a state, the empty set, [insert] and the
    sequence that iteration from [begin()] to [end()] gives, with the laws
    that insertion by descent in a search tree obeys whatever the order is.
    [set_insert] above is the instance that keeps the sequence itself; it
    is what every such set does while the order is a strict weak order on
    the points collected. *)

(** What the set takes for one element: neither point is below the other. *)
Definition equivalent (a b : Point) : Prop :=
  point_lt a b = false /\ point_lt b a = false.

(** One [insert(p)], seen on the sequences before and after it.  The set
    stays as it is, and then it holds an element equivalent to [p]; or [p]
    is placed between two neighbours, above the one before it and below
    the one after it. *)
Inductive unique_insert (p : Point) (before after : list Point) : Prop :=
| insert_refused :
    after = before ->
    (exists e, In e before /\ equivalent e p) ->
    unique_insert p before after
| insert_placed (l1 l2 : list Point) :
    before = l1 ++ l2 ->
    after = l1 ++ p :: l2 ->
    (forall e, last l1 = Some e -> point_lt e p = true) ->
    (forall e, head l2 = Some e -> point_lt p e = true) ->
    unique_insert p before after.

Record std_set : Type := mkStdSet {
  ss_state : Type;
  ss_empty : ss_state;
  ss_insert : Point -> ss_state -> ss_state;
  ss_elements : ss_state -> list Point
}.

Record std_set_laws (S : std_set) : Prop := {
  ss_empty_elements : ss_elements S (ss_empty S) = [];
  ss_insert_unique :
    forall p s, unique_insert p (ss_elements S s) (ss_elements S (ss_insert S p s))
}.

Section OverAnySet.
Variable S : std_set.
Variable hypot : double -> double -> double.
Variable sizeof_map_node : nat.

(** [PointSet::range_impl] *)
Fixpoint range_impl_on (key : Rect) (node : kdtree.NodePtr) (ans_set : ss_state S)
         (rect_now : Rect) : ss_state S :=
  match node with
  | kdtree.nullptr => ans_set
  | kdtree.Node p o l r _ =>
      if negb (intersects key rect_now) then ans_set
      else
        let ans1 := if rect_contains key p then ss_insert S p ans_set else ans_set in
        let '(rect_left, rect_right) := kdtree.split rect_now p o in
        range_impl_on key r (range_impl_on key l ans1 rect_left) rect_right
  end.

(** The set that [range] has collected, as [save_tree] iterates it. *)
Definition range_set_on (s : kdtree.PointSet) (key : Rect) : list Point :=
  ss_elements S (range_impl_on key (kdtree.root s) (ss_empty S) kdtree.whole_plane).

(** [PointSet::range] *)
Definition range_on (s : kdtree.PointSet) (key : Rect) (w : kdtree.World)
  : kdtree.World * (kdtree.iterator * kdtree.iterator) :=
  let ans_set := range_set_on s key in
  match ans_set with
  | [] => (w, (kdtree.iterator_default, kdtree.iterator_default))
  | _ :: _ =>
      let '(r, h) := kdtree.save_tree ans_set (kdtree.nodes w) in
      (kdtree.mkWorld h (kdtree.pools w), (kdtree.iterator_at r, kdtree.iterator_default))
  end.

(** [for (const auto & [dist, point] : ans_set) set.insert(point);] *)
Definition nearest_set_on (s : kdtree.PointSet) (key : Point) (k : nat) : list Point :=
  ss_elements S
    (fold_left (fun set e => ss_insert S (snd e) set)
               (kdtree.nearest_candidates hypot s key k) (ss_empty S)).

(** [PointSet::nearest(key, k)] *)
Definition nearest_on (s : kdtree.PointSet) (key : Point) (k : nat) (w : kdtree.World)
  : kdtree.World * (kdtree.iterator * kdtree.iterator) :=
  if (k =? 0)%nat then (w, (kdtree.iterator_default, kdtree.iterator_default))
  else
    let '(pool_, w1) := kdtree.create_pool sizeof_map_node (k + 1) w in
    match kdtree.nearest_candidates hypot s key k with
    | [] => (w1, (kdtree.iterator_default, kdtree.iterator_default))
    | _ :: _ =>
        let set := nearest_set_on s key k in
        let w2 := kdtree.destroy_pool pool_ w1 in
        let '(r, h) := kdtree.save_tree set (kdtree.nodes w2) in
        (kdtree.mkWorld h (kdtree.pools w2), (kdtree.iterator_at r, kdtree.iterator_default))
    end.

(** The set a query collects and the call that answers it. *)
Definition result_set_on (s : kdtree.PointSet) (q : kdtree.query) : list Point :=
  match q with
  | kdtree.RangeQuery key => range_set_on s key
  | kdtree.NearestQuery key k => if (k =? 0)%nat then [] else nearest_set_on s key k
  end.

Definition run_query_on (s : kdtree.PointSet) (q : kdtree.query) (w : kdtree.World)
  : kdtree.World * (kdtree.iterator * kdtree.iterator) :=
  match q with
  | kdtree.RangeQuery key => range_on s key w
  | kdtree.NearestQuery key k => nearest_on s key k w
  end.
End OverAnySet.

(** The points that [range_impl] hands to [insert], in the order of the
    calls. *)
Fixpoint range_offers (key : Rect) (node : kdtree.NodePtr) (rect_now : Rect) : list Point :=
  match node with
  | kdtree.nullptr => []
  | kdtree.Node p o l r _ =>
      if negb (intersects key rect_now) then []
      else
        (if rect_contains key p then [p] else []) ++
        range_offers key l (fst (kdtree.split rect_now p o)) ++
        range_offers key r (snd (kdtree.split rect_now p o))
  end.

(** The points that a query hands to [insert]: the result points. *)
Definition query_offers (hypot : double -> double -> double)
           (s : kdtree.PointSet) (q : kdtree.query) : list Point :=
  match q with
  | kdtree.RangeQuery key => range_offers key (kdtree.root s) kdtree.whole_plane
  | kdtree.NearestQuery key k =>
      if (k =? 0)%nat then [] else map snd (kdtree.nearest_candidates hypot s key k)
  end.

(** The pool of the call has a size the source can compute and hold; a
    range query has no pool. *)
Definition query_fits (sizeof_map_node : nat) (q : kdtree.query) : Prop :=
  match q with
  | kdtree.RangeQuery _ => True
  | kdtree.NearestQuery _ k => pool_fits sizeof_map_node k
  end.

(** The set that keeps its sequence in a list. *)
Definition sorted_list_set : std_set :=
  mkStdSet (list Point) [] set_insert (fun s => s).

(** *** A red-black tree for the set

    An instance shaped on the tree that the GNU library puts behind
    [std::set]: the descent of [_M_get_insert_unique_pos], which compares
    the key with one node per level and then with the element before the
    place it has reached, and the recolouring and rotations of
    [_Rb_tree_insert_and_rebalance].  It runs the examples on points
    closer than epsilon, where the shape of the tree decides what the set
    keeps. *)
Inductive rb_color : Type := Red | Black.

Inductive rb_tree : Type :=
| rb_leaf
| rb_node (c : rb_color) (l : rb_tree) (v : Point) (r : rb_tree).

(** Iteration from [begin()] to [end()]. *)
Fixpoint rb_elements (t : rb_tree) : list Point :=
  match t with
  | rb_leaf => []
  | rb_node _ l v r => rb_elements l ++ v :: rb_elements r
  end.

(** An ancestor of the place the descent stands at: the place is its left
    child, or its right child. *)
Inductive rb_frame : Type :=
| under_left (c : rb_color) (v : Point) (r : rb_tree)
| under_right (c : rb_color) (l : rb_tree) (v : Point).

Definition rb_is_red (t : rb_tree) : bool :=
  match t with
  | rb_node Red _ _ _ => true
  | _ => false
  end.

Definition rb_paint (c : rb_color) (t : rb_tree) : rb_tree :=
  match t with
  | rb_leaf => rb_leaf
  | rb_node _ l v r => rb_node c l v r
  end.

(** The loop of [_M_get_insert_unique_pos]: left when the key is below the
    node, right otherwise; the ancestors are kept nearest first. *)
Fixpoint rb_descend (k : Point) (t : rb_tree) (path : list rb_frame) : list rb_frame :=
  match t with
  | rb_leaf => path
  | rb_node c l v r =>
      if point_lt k v then rb_descend k l (under_left c v r :: path)
      else rb_descend k r (under_right c l v :: path)
  end.

(** The element before the place reached ([__j] after its decrement), if
    there is one: the nearest ancestor that the descent left to the right. *)
Fixpoint rb_before (path : list rb_frame) : option Point :=
  match path with
  | [] => None
  | under_right _ _ v :: _ => Some v
  | under_left _ _ _ :: up => rb_before up
  end.

(** The subtree [x] back under its ancestors. *)
Fixpoint rb_close (x : rb_tree) (path : list rb_frame) : rb_tree :=
  match path with
  | [] => x
  | under_left c v r :: up => rb_close (rb_node c x v r) up
  | under_right c l v :: up => rb_close (rb_node c l v x) up
  end.

(** The loop of [_Rb_tree_insert_and_rebalance] on the red node [x]: while
    the parent is red, a red uncle is recoloured with the parent and the
    loop goes on from the grandparent; a black uncle ends it with one or
    two rotations. *)
Fixpoint rb_rebalance (x : rb_tree) (path : list rb_frame) : rb_tree :=
  match path with
  | [] => x
  | parent :: above =>
      match above with
      | [] => rb_close x path
      | grandparent :: up =>
          match parent, grandparent with
          | under_left Red pv pr, under_left _ gv uncle =>
              if rb_is_red uncle
              then rb_rebalance
                     (rb_node Red (rb_node Black x pv pr) gv (rb_paint Black uncle)) up
              else rb_close (rb_node Black x pv (rb_node Red pr gv uncle)) up
          | under_right Red pl pv, under_left _ gv uncle =>
              if rb_is_red uncle
              then rb_rebalance
                     (rb_node Red (rb_node Black pl pv x) gv (rb_paint Black uncle)) up
              else
                match x with
                | rb_node _ xl xv xr =>
                    rb_close (rb_node Black (rb_node Red pl pv xl) xv
                                      (rb_node Red xr gv uncle)) up
                | rb_leaf => rb_close x path
                end
          | under_right Red pl pv, under_right _ uncle gv =>
              if rb_is_red uncle
              then rb_rebalance
                     (rb_node Red (rb_paint Black uncle) gv (rb_node Black pl pv x)) up
              else rb_close (rb_node Black (rb_node Red uncle gv pl) pv x) up
          | under_left Red pv pr, under_right _ uncle gv =>
              if rb_is_red uncle
              then rb_rebalance
                     (rb_node Red (rb_paint Black uncle) gv (rb_node Black x pv pr)) up
              else
                match x with
                | rb_node _ xl xv xr =>
                    rb_close (rb_node Black (rb_node Red uncle gv xl) xv
                                      (rb_node Red xr pv pr)) up
                | rb_leaf => rb_close x path
                end
          | _, _ => rb_close x path
          end
      end
  end.

(** [std::set<Point>::insert]: the new red node goes where the descent
    ended unless the element before that place is not below the key; the
    root is black again at the end. *)
Definition rb_insert_unique (k : Point) (t : rb_tree) : rb_tree :=
  let path := rb_descend k t [] in
  let placed := rb_paint Black (rb_rebalance (rb_node Red rb_leaf k rb_leaf) path) in
  match rb_before path with
  | None => placed
  | Some j => if point_lt j k then placed else t
  end.

Definition rbtree_set : std_set :=
  mkStdSet rb_tree rb_leaf rb_insert_unique rb_elements.

(** The elements before and after the place that the ancestors [path]
    lead to. *)
Fixpoint rb_left_of (path : list rb_frame) : list Point :=
  match path with
  | [] => []
  | under_left _ _ _ :: up => rb_left_of up
  | under_right _ l v :: up => rb_left_of up ++ rb_elements l ++ [v]
  end.

Fixpoint rb_right_of (path : list rb_frame) : list Point :=
  match path with
  | [] => []
  | under_left _ v r :: up => (v :: rb_elements r) ++ rb_right_of up
  | under_right _ _ _ :: up => rb_right_of up
  end.

(** The turns of a descent for [k]: left of the nodes above [k], right of
    the others. *)
Definition rb_turns (k : Point) (path : list rb_frame) : Prop :=
  List.Forall (fun f => match f with
                        | under_left _ v _ => point_lt k v = true
                        | under_right _ _ v => point_lt k v = false
                        end) path.

(** * Verification *)

(** ** Doubles and points *)
Section DoubleFacts.
Local Open Scope Q_scope.

Lemma Qltb_lt (a b : Q) : Qltb a b = true <-> a < b.
Proof.
  unfold Qltb. rewrite negb_true_iff.
  destruct (Qle_bool b a) eqn:E.
  - apply Qle_bool_iff in E. split; [discriminate | lra].
  - split; [intros _ | reflexivity].
    destruct (Qlt_le_dec a b) as [H | H]; [exact H |].
    apply Qle_bool_iff in H. congruence.
Qed.

Lemma Qltb_ge (a b : Q) : Qltb a b = false <-> b <= a.
Proof. unfold Qltb. rewrite negb_false_iff. apply Qle_bool_iff. Qed.

Lemma eps_pos : 0 < eps.
Proof. reflexivity. Qed.

Lemma double_equal_fin (a b : Q) :
  double_equal (Fin a) (Fin b) = true <-> Qabs (a - b) < eps.
Proof. unfold double_equal. simpl. apply Qltb_lt. Qed.

Lemma double_equal_fin_false (a b : Q) :
  double_equal (Fin a) (Fin b) = false <-> eps <= Qabs (a - b).
Proof. unfold double_equal. simpl. apply Qltb_ge. Qed.

Lemma dlt_irrefl (u : double) : dlt u u = false.
Proof. destruct u; simpl; trivial. apply Qltb_ge. lra. Qed.

(** The tolerance test is symmetric on every pair of doubles. *)
Lemma double_equal_sym (u v : double) : double_equal u v = double_equal v u.
Proof.
  destruct u as [| |a|], v as [| |b|]; try reflexivity.
  assert (E : Qabs (a - b) == Qabs (b - a)).
  { rewrite <- (Qabs_opp (b - a)). apply Qabs_wd. ring. }
  destruct (double_equal (Fin b) (Fin a)) eqn:H.
  - apply double_equal_fin. apply double_equal_fin in H. now rewrite E.
  - apply double_equal_fin_false. apply double_equal_fin_false in H. now rewrite E.
Qed.

Lemma double_equal_refl (u : double) : finite u -> double_equal u u = true.
Proof.
  destruct u as [| |a|]; simpl; try contradiction. intros _.
  apply double_equal_fin.
  assert (E : a - a == 0) by ring.
  rewrite E. reflexivity.
Qed.

(** Two finite doubles that are not equal within the tolerance are
    strictly ordered, one way or the other. *)
Lemma double_unequal_ordered (a b : Q) :
  double_equal (Fin a) (Fin b) = false ->
  (dlt (Fin a) (Fin b) = true /\ dlt (Fin b) (Fin a) = false) \/
  (dlt (Fin a) (Fin b) = false /\ dlt (Fin b) (Fin a) = true).
Proof.
  intros H. apply double_equal_fin_false in H. simpl.
  pose proof eps_pos as He.
  rewrite !Qltb_lt, !Qltb_ge.
  revert H. apply Qabs_case; intros; lra.
Qed.

(** On coordinates that are apart the tolerance test is exact equality. *)
Lemma double_equal_apart (a b : Q) :
  apart (Fin a) (Fin b) ->
  (double_equal (Fin a) (Fin b) = true <-> a == b).
Proof.
  unfold apart. intros H. rewrite double_equal_fin.
  pose proof eps_pos as He. split.
  - intros L. destruct H as [H | H]; [exact H | lra].
  - intros E. assert (Z : a - b == 0) by lra.
    rewrite Z. exact He.
Qed.

Lemma point_eq_sym (a b : Point) : point_eq a b = point_eq b a.
Proof.
  unfold point_eq.
  now rewrite (double_equal_sym (x a)), (double_equal_sym (y a)).
Qed.

Lemma point_eq_refl (a : Point) : finite_point a -> point_eq a a = true.
Proof.
  intros [Hx Hy]. unfold point_eq.
  now rewrite !double_equal_refl.
Qed.

Lemma point_trichotomy (a b : Point) :
  finite_point a -> finite_point b ->
  exactly_one_of (point_lt a b) (point_eq a b) (point_lt b a).
Proof.
  destruct a as [[| |ax|] [| |ay|]], b as [[| |bx|] [| |by_|]];
    intros [Ha1 Ha2] [Hb1 Hb2]; simpl in *; try contradiction.
  unfold exactly_one_of, point_lt, point_eq; cbn [x y].
  rewrite (double_equal_sym (Fin bx) (Fin ax)), (double_equal_sym (Fin by_) (Fin ay)).
  destruct (double_equal (Fin ax) (Fin bx)) eqn:Ex;
    destruct (double_equal (Fin ay) (Fin by_)) eqn:Ey; cbn [andb].
  - right; left; auto.
  - destruct (double_unequal_ordered _ _ Ey) as [[-> ->] | [-> ->]]; auto.
  - destruct (double_unequal_ordered _ _ Ex) as [[-> ->] | [-> ->]]; auto.
  - destruct (double_unequal_ordered _ _ Ex) as [[-> ->] | [-> ->]]; auto.
Qed.

Lemma point_eq_apart (a b : Point) :
  points_apart a b ->
  (point_eq a b = true <->
   exists ax ay bx by_, a = mkPoint (Fin ax) (Fin ay) /\ b = mkPoint (Fin bx) (Fin by_) /\
                        ax == bx /\ ay == by_).
Proof.
  destruct a as [[| |ax|] [| |ay|]], b as [[| |bx|] [| |by_|]];
    intros [H1 H2]; cbn [x y apart] in *; try contradiction.
  unfold point_eq; cbn [x y]. rewrite andb_true_iff.
  rewrite (double_equal_apart _ _ H1), (double_equal_apart _ _ H2).
  split.
  - intros [E1 E2]. exists ax, ay, bx, by_. auto.
  - intros (? & ? & ? & ? & [= -> ->] & [= -> ->] & E1 & E2). auto.
Qed.

(** On points that are apart [operator<] is the exact lexicographic
    order. *)
Lemma point_lt_apart (ax ay bx by_ : Q) :
  points_apart (mkPoint (Fin ax) (Fin ay)) (mkPoint (Fin bx) (Fin by_)) ->
  (point_lt (mkPoint (Fin ax) (Fin ay)) (mkPoint (Fin bx) (Fin by_)) = true <->
   ax < bx \/ (ax == bx /\ ay < by_)).
Proof.
  intros [H1 H2]; cbn [x y] in *.
  unfold point_lt; cbn [x y].
  pose proof (double_equal_apart _ _ H1) as E1.
  pose proof (double_equal_apart _ _ H2) as E2.
  destruct (double_equal (Fin ax) (Fin bx)).
  - assert (ax == bx) by now apply E1.
    destruct (double_equal (Fin ay) (Fin by_)).
    + assert (ay == by_) by now apply E2.
      split; [discriminate | lra].
    + cbn [dlt]. rewrite Qltb_lt. split; [auto | lra].
  - assert (~ ax == bx) by (intros E; apply E1 in E; discriminate).
    cbn [dlt]. rewrite Qltb_lt. split; [auto | lra].
Qed.

Lemma apart_trans_lt (a b c : Q) :
  apart (Fin a) (Fin b) -> apart (Fin b) (Fin c) ->
  a <= b -> b <= c -> apart (Fin a) (Fin c).
Proof.
  unfold apart. pose proof eps_pos.
  intros H1 H2 L1 L2.
  destruct H1 as [H1 | H1], H2 as [H2 | H2].
  - left; lra.
  - right. revert H2. apply Qabs_case; apply Qabs_case; intros; lra.
  - right. revert H1. apply Qabs_case; apply Qabs_case; intros; lra.
  - right. revert H1 H2. apply Qabs_case; apply Qabs_case; apply Qabs_case; intros; lra.
Qed.

Lemma point_lt_by_x (ax ay cx cy : Q) :
  apart (Fin ax) (Fin cx) -> ax < cx ->
  point_lt (mkPoint (Fin ax) (Fin ay)) (mkPoint (Fin cx) (Fin cy)) = true.
Proof.
  intros A L. unfold point_lt; cbn [x y].
  destruct (double_equal (Fin ax) (Fin cx)) eqn:E.
  - apply (double_equal_apart _ _ A) in E. lra.
  - cbn [dlt]. now apply Qltb_lt.
Qed.

Lemma point_lt_by_y (ax ay cx cy : Q) :
  ax == cx -> apart (Fin ay) (Fin cy) -> ay < cy ->
  point_lt (mkPoint (Fin ax) (Fin ay)) (mkPoint (Fin cx) (Fin cy)) = true.
Proof.
  intros Ex A L. unfold point_lt; cbn [x y].
  assert (double_equal (Fin ax) (Fin cx) = true) as ->.
  { apply double_equal_fin. assert (Z : ax - cx == 0) by lra.
    rewrite Z. exact eps_pos. }
  destruct (double_equal (Fin ay) (Fin cy)) eqn:E.
  - apply (double_equal_apart _ _ A) in E. lra.
  - cbn [dlt]. now apply Qltb_lt.
Qed.

Lemma point_eq_trans_apart (a b c : Point) :
  points_apart a b -> points_apart b c ->
  point_eq a b = true -> point_eq b c = true -> point_eq a c = true.
Proof.
  intros Hab Hbc E1 E2.
  apply (point_eq_apart _ _ Hab) in E1.
  apply (point_eq_apart _ _ Hbc) in E2.
  destruct E1 as (ax & ay & bx & by_ & -> & -> & X1 & Y1).
  destruct E2 as (? & ? & cx & cy & [= <- <-] & -> & X2 & Y2).
  unfold point_eq; cbn [x y]. apply andb_true_iff; split;
    apply double_equal_fin.
  - assert (Z : ax - cx == 0) by lra. rewrite Z. exact eps_pos.
  - assert (Z : ay - cy == 0) by lra. rewrite Z. exact eps_pos.
Qed.

Lemma point_lt_trans_apart (a b c : Point) :
  points_apart a b -> points_apart b c ->
  point_lt a b = true -> point_lt b c = true -> point_lt a c = true.
Proof.
  destruct a as [[| |ax|] [| |ay|]], b as [[| |bx|] [| |by_|]];
    intros Hab; try (destruct Hab as [H1 H2]; cbn [x y apart] in *; contradiction).
  destruct c as [[| |cx|] [| |cy|]];
    intros Hbc; try (destruct Hbc as [H1 H2]; cbn [x y apart] in *; contradiction).
  intros L1 L2.
  apply (point_lt_apart _ _ _ _ Hab) in L1.
  apply (point_lt_apart _ _ _ _ Hbc) in L2.
  destruct Hab as [Xab Yab], Hbc as [Xbc Ybc]. cbn [x y] in *.
  destruct L1 as [L1 | [E1 L1]], L2 as [L2 | [E2 L2]].
  - apply point_lt_by_x; [apply (apart_trans_lt _ bx) |]; auto; lra.
  - apply point_lt_by_x; [apply (apart_trans_lt _ bx) |]; auto; lra.
  - apply point_lt_by_x; [apply (apart_trans_lt _ bx) |]; auto; lra.
  - apply point_lt_by_y; [| apply (apart_trans_lt _ by_) |]; auto; lra.
Qed.
End DoubleFacts.

(** C9, as amended.  For points with real coordinates exactly one of
    [a < b], [a == b], [b < a] holds, and the tolerance equality is
    reflexive and symmetric; the equality and the lexicographic order
    (x, then y) are transitive along points whose coordinates are pairwise
    identical or at least machine epsilon apart. *)
Theorem point_comparison_laws (a b c : Point) :
  finite_point a -> finite_point b -> finite_point c ->
  exactly_one_of (point_lt a b) (point_eq a b) (point_lt b a) /\
  point_eq a a = true /\
  point_eq a b = point_eq b a /\
  (points_apart a b -> points_apart b c ->
   (point_eq a b = true -> point_eq b c = true -> point_eq a c = true) /\
   (point_lt a b = true -> point_lt b c = true -> point_lt a c = true)).
Proof.
  intros Ha Hb Hc. repeat split.
  - now apply point_trichotomy.
  - now apply point_eq_refl.
  - apply point_eq_sym.
  - now apply point_eq_trans_apart.
  - now apply point_lt_trans_apart.
Qed.

Lemma point_comparison_laws_witness :
  let a := pt 1 2 in
  let b := pt 1 3 in
  let c := pt 2 0 in
  (finite_point a /\ finite_point b /\ finite_point c) /\
  (points_apart a b /\ points_apart b c) /\
  exactly_one_of (point_lt a b) (point_eq a b) (point_lt b a) /\
  point_lt a c = true.
Proof.
  intros a b c.
  assert (F : forall u v, finite_point (pt u v)) by (intros; split; exact I).
  assert (A : forall u v u' v', points_apart (pt u v) (pt u' v')).
  { intros u v u' v'. split; cbn [pt x y apart].
    - destruct (Z.eq_dec u u') as [-> | N]; [left; reflexivity | right].
      unfold Qabs, Qminus, Qplus, Qle, eps; simpl. nia.
    - destruct (Z.eq_dec v v') as [-> | N]; [left; reflexivity | right].
      unfold Qabs, Qminus, Qplus, Qle, eps; simpl. nia. }
  destruct (point_comparison_laws a b c (F _ _) (F _ _) (F _ _)) as (T & _ & _ & Tr).
  split; [repeat split |]. split; [split; apply A |]. split; [exact T |].
  destruct (Tr (A _ _ _ _) (A _ _ _ _)) as [_ Lt].
  apply Lt; reflexivity.
Defined.

(** C9, the claim as stated fails: the tolerance equality is not
    transitive, and neither is the order built on it. *)
Lemma point_comparisons_not_transitive :
  (point_eq (quarter_eps_pt 0 0) (quarter_eps_pt 3 0) = true /\
   point_eq (quarter_eps_pt 3 0) (quarter_eps_pt 6 0) = true /\
   point_eq (quarter_eps_pt 0 0) (quarter_eps_pt 6 0) = false) /\
  (let a := mkPoint (Fin (3 # 18014398509481984)) (Fin 0) in
   let b := mkPoint (Fin 0) (Fin 1) in
   let c := mkPoint (Fin (6 # 18014398509481984)) (Fin (-5)) in
   point_lt a b = true /\ point_lt b c = true /\ point_lt a c = false).
Proof. vm_compute. repeat split. Qed.


(** ** Insertion and membership *)
Section PutContains.
Import kdtree.

Lemma contains_put_loop (t : NodePtr) (key : Point) (o : Orientation) :
  finite_point key -> contains_loop (put_loop t key o) key = true.
Proof.
  intros F. revert o.
  induction t as [| p o' l IHl r IHr sz]; intros o; cbn [put_loop make_node contains_loop].
  - now rewrite point_eq_refl.
  - destruct (point_eq key p) eqn:E.
    + cbn [contains_loop]. now rewrite point_eq_sym, E.
    + destruct (goes_right o' p key) eqn:G; cbn [contains_loop];
        rewrite point_eq_sym, E, G; auto.
Qed.

(** [put] never hides a point that [contains] already finds. *)
Lemma contains_put_loop_mono (t : NodePtr) (key q : Point) (o : Orientation) :
  contains_loop t q = true -> contains_loop (put_loop t key o) q = true.
Proof.
  revert o.
  induction t as [| p o' l IHl r IHr sz]; intros o; cbn [put_loop contains_loop].
  - discriminate.
  - intros H.
    destruct (point_eq key p); [exact H |].
    destruct (goes_right o' p key); cbn [contains_loop];
      destruct (point_eq p q); trivial;
      destruct (goes_right o' p q); auto.
Qed.

(** When [contains] finds the key, [put] stops at the same node and
    attaches nothing. *)
Lemma points_put_loop_found (t : NodePtr) (key : Point) (o : Orientation) :
  contains_loop t key = true -> points (put_loop t key o) = points t.
Proof.
  revert o.
  induction t as [| p o' l IHl r IHr sz]; intros o; cbn [put_loop contains_loop].
  - discriminate.
  - rewrite (point_eq_sym p key).
    destruct (point_eq key p); [reflexivity |].
    destruct (goes_right o' p key); cbn [points]; intros H.
    + now rewrite IHr.
    + now rewrite IHl.
Qed.

(** When [contains] does not find the key, [put] walks the same way and
    attaches exactly one leaf, holding the key. *)
Lemma points_put_loop_new (t : NodePtr) (key : Point) (o : Orientation) :
  contains_loop t key = false -> Permutation (points (put_loop t key o)) (key :: points t).
Proof.
  revert o.
  induction t as [| p o' l IHl r IHr sz]; intros o; cbn [put_loop contains_loop].
  - reflexivity.
  - rewrite (point_eq_sym p key).
    destruct (point_eq key p); [discriminate |].
    destruct (goes_right o' p key); cbn [points]; intros H.
    + rewrite (IHr _ H).
      transitivity (points l ++ key :: p :: points r).
      * apply Permutation_app_head, perm_swap.
      * symmetry. apply Permutation_middle.
    + rewrite (IHl _ H). reflexivity.
Qed.

Lemma points_put_loop_in (t : NodePtr) (key q : Point) (o : Orientation) :
  In q (points (put_loop t key o)) -> q = key \/ In q (points t).
Proof.
  destruct (contains_loop t key) eqn:C.
  - rewrite points_put_loop_found by exact C. auto.
  - intros H. apply (Permutation_in _ (points_put_loop_new t key o C)) in H.
    destruct H; auto.
Qed.

Lemma contains_loop_found (t : NodePtr) (key : Point) :
  contains_loop t key = true -> exists p, In p (points t) /\ point_eq p key = true.
Proof.
  induction t as [| p o' l IHl r IHr sz]; cbn [contains_loop points].
  - discriminate.
  - destruct (point_eq p key) eqn:E.
    + intros _. exists p. split; [apply in_elt | exact E].
    + destruct (goes_right o' p key); intros H.
      * destruct (IHr H) as (q & I & Q). exists q. split; [| exact Q].
        apply in_or_app. right. now right.
      * destruct (IHl H) as (q & I & Q). exists q. split; [| exact Q].
        apply in_or_app. now left.
Qed.

(** A [put] of a point that [contains] does not find keeps the cached
    sizes right. *)
Lemma size_invariant_put_loop_new (t : NodePtr) (key : Point) (o : Orientation) :
  contains_loop t key = false -> size_invariant t = true ->
  size_invariant (put_loop t key o) = true /\ cached (put_loop t key o) = S (cached t).
Proof.
  revert o.
  induction t as [| p o' l IHl r IHr sz]; intros o; cbn [put_loop contains_loop].
  - auto.
  - rewrite (point_eq_sym p key).
    destruct (point_eq key p); [discriminate |].
    cbn [size_invariant]. rewrite !andb_true_iff, Nat.eqb_eq.
    destruct (goes_right o' p key); intros C [[S1 S2] S3];
      cbn [size_invariant cached]; rewrite !andb_true_iff, Nat.eqb_eq.
    + destruct (IHr (next o) C S3) as [I1 I2]. rewrite I2. repeat split; auto; lia.
    + destruct (IHl (next o) C S2) as [I1 I2]. rewrite I2. repeat split; auto; lia.
Qed.
Lemma dlt_not_dge (u v : double) : dlt u v = true -> dge u v = false.
Proof.
  unfold dge. destruct u as [| |a|], v as [| |b|]; cbn [dlt dle]; try congruence.
  rewrite Qltb_lt. intros H.
  destruct (Qle_bool b a) eqn:E; [| reflexivity].
  apply Qle_bool_iff in E. lra.
Qed.

Lemma dge_false_dlt (a b : Q) : dge (Fin a) (Fin b) = false -> dlt (Fin a) (Fin b) = true.
Proof.
  unfold dge. cbn [dle dlt]. intros H. apply Qltb_lt.
  destruct (Qlt_le_dec a b) as [L | L]; [exact L |].
  apply Qle_bool_iff in L. congruence.
Qed.

Lemma goes_right_axis (o : Orientation) (p key : Point) :
  goes_right o p key = dge (axis o key) (axis o p).
Proof. now destruct o. Qed.

(** The loops of [contains] and [put] take the turns of the descent of the
    specification: [contains] answers what the descent finds, and [put]
    leaves the node where the descent stops as it is, or hangs the new leaf
    where the descent leaves the tree. *)
Lemma descent_followed (key : Point) (t : NodePtr) (path : list direction) (found : bool) :
  spec_descent key t path found ->
  forall o,
    contains_loop t key = found /\
    subtree (put_loop t key o) path =
      (if found then subtree t path
       else make_node key (Nat.iter (length path) next o)).
Proof.
  induction 1 as [| p o' l r sz E | p o' l r sz path found E G D IH
                  | p o' l r sz path found E G D IH]; intros o.
  - split; reflexivity.
  - cbn [contains_loop put_loop]. rewrite E, point_eq_sym, E. split; reflexivity.
  - cbn [contains_loop put_loop]. rewrite E, (point_eq_sym key p), E.
    rewrite goes_right_axis, G. cbn [subtree length].
    destruct (IH (next o)) as [C P]. split; [exact C |].
    rewrite P. destruct found; [reflexivity |].
    now rewrite Nat.iter_succ_r.
  - cbn [contains_loop put_loop]. rewrite E, (point_eq_sym key p), E.
    rewrite goes_right_axis, (dlt_not_dge _ _ G). cbn [subtree length].
    destruct (IH (next o)) as [C P]. split; [exact C |].
    rewrite P. destruct found; [reflexivity |].
    now rewrite Nat.iter_succ_r.
Qed.

(** On points with real coordinates the rule of the specification always
    names a turn: the descent exists. *)
Lemma descent_exists (key : Point) (t : NodePtr) :
  finite_point key -> (forall q, In q (points t) -> finite_point q) ->
  exists path found, spec_descent key t path found.
Proof.
  intros Fk. induction t as [| p o l IHl r IHr sz]; intros Ft.
  - exists [], false. constructor.
  - assert (Fp : finite_point p) by (apply Ft; cbn [points]; apply in_elt).
    destruct (point_eq p key) eqn:E.
    + exists [], true. now constructor.
    + destruct (dge (axis o key) (axis o p)) eqn:G.
      * destruct IHr as (path & found & D).
        { intros q Hq. apply Ft. cbn [points]. apply in_or_app. right. now right. }
        exists (GoRight :: path), found. now constructor.
      * destruct IHl as (path & found & D).
        { intros q Hq. apply Ft. cbn [points]. apply in_or_app. now left. }
        exists (GoLeft :: path), found. apply descent_left; auto.
        destruct key as [[| |kx|] [| |ky|]], p as [[| |px|] [| |py|]];
          destruct Fk as [[] []]; destruct Fp as [[] []].
        destruct o; cbn [axis x y] in *; now apply dge_false_dlt.
Qed.
End PutContains.

(** C8.  [put] and [contains] perform the descent of the specification (at
    each node, along the axis of the node, [>=] routes right and [<] routes
    left, ties included, and a node equal within epsilon stops it):
    whatever that descent finds is the answer of [contains], and [put]
    leaves the node where it stops as it is, or hangs the leaf for [p]
    where it leaves the tree.  The descent exists when the stored points
    have real coordinates.  So, for every state of the index and every
    point [p] (two real coordinates), [contains(p)] is true after [put(p)]:
    [put] attaches nothing when [contains] finds the point and one leaf
    when it does not; and [contains] hands the index back unchanged. *)
Theorem contains_after_put (s : kdtree.PointSet) (p : Point) :
  finite_point p ->
  ((forall q, In q (kdtree.points (kdtree.root s)) -> finite_point q) ->
   exists path found, spec_descent p (kdtree.root s) path found) /\
  (forall path found,
     spec_descent p (kdtree.root s) path found ->
     kdtree.contains s p = found /\
     subtree (kdtree.root (kdtree.put s p)) path =
       (if found then subtree (kdtree.root s) path
        else kdtree.make_node p (orientation_after path))) /\
  kdtree.contains (kdtree.put s p) p = true /\
  (kdtree.contains s p = true ->
   kdtree.points (kdtree.root (kdtree.put s p)) = kdtree.points (kdtree.root s)) /\
  (kdtree.contains s p = false ->
   Permutation (kdtree.points (kdtree.root (kdtree.put s p)))
               (p :: kdtree.points (kdtree.root s))) /\
  (forall q, snd (kdtree.contains_m q s) = s).
Proof.
  intros F. unfold kdtree.contains, kdtree.put, orientation_after. cbn [kdtree.root].
  split; [now apply descent_exists |].
  split; [intros path found D; now apply descent_followed |].
  split; [now apply contains_put_loop |].
  split; [apply points_put_loop_found |].
  split; [apply points_put_loop_new | reflexivity].
Qed.

Lemma contains_after_put_witness :
  let s := kdtree.put (kdtree.put (kdtree.mkPointSet kdtree.nullptr) (pt 3 4)) (pt 1 2) in
  finite_point (pt 3 1) /\
  spec_descent (pt 3 1) (kdtree.root s) [GoRight] false /\
  kdtree.contains s (pt 3 1) = false /\
  subtree (kdtree.root (kdtree.put s (pt 3 1))) [GoRight]
  = kdtree.make_node (pt 3 1) kdtree.Horizontal /\
  kdtree.contains (kdtree.put s (pt 3 1)) (pt 3 1) = true.
Proof.
  intros s.
  assert (F : finite_point (pt 3 1)) by (split; exact I).
  assert (D : spec_descent (pt 3 1) (kdtree.root s) [GoRight] false).
  { apply descent_right; [reflexivity | reflexivity | apply descent_off]. }
  destruct (contains_after_put s (pt 3 1) F) as (_ & Follow & After & _).
  destruct (Follow [GoRight] false D) as [C P].
  split; [exact F |]. split; [exact D |]. split; [exact C |].
  split; [exact P | exact After].
Defined.

(** C4, evaluated.  The second [put] of a point stored below the root
    increments the cached size of the root before the descent meets the
    stored point: the root then caches 3 over two nodes. *)
Theorem put_duplicate_breaks_cached_size :
  let s2 := kdtree.put (kdtree.put (kdtree.mkPointSet kdtree.nullptr) (pt 1 1)) (pt 2 2) in
  let s3 := kdtree.put s2 (pt 2 2) in
  kdtree.size_invariant (kdtree.root s2) = true /\
  kdtree.contains s2 (pt 2 2) = true /\
  kdtree.points (kdtree.root s3) = [pt 1 1; pt 2 2] /\
  kdtree.size s3 = 3%nat /\
  kdtree.size_invariant (kdtree.root s3) = false.
Proof. vm_compute. repeat split. Qed.

(** ** Bulk construction *)
Section BalancingFacts.
Import kdtree.
Variable sort : (Point -> Point -> bool) -> list Point -> list Point.
Hypothesis sort_perm : forall lt l, Permutation (sort lt l) l.

Lemma sort_length lt l : length (sort lt l) = length l.
Proof. apply Permutation_length, sort_perm. Qed.

Lemma half_lt (n : nat) : (0 < n -> n / 2 < n)%nat.
Proof. intros H. apply Nat.div_lt; lia. Qed.

(** The recursion depth does not matter once it covers the range. *)
Lemma balancing_rec_depth (d1 d2 : nat) (l : list Point) (o : Orientation) (s : PointSet) :
  (length l <= d1)%nat -> (length l <= d2)%nat ->
  balancing_rec sort d1 l o s = balancing_rec sort d2 l o s.
Proof.
  revert d2 l o s.
  induction d1 as [| d1 IH]; intros d2 l o s H1 H2.
  - destruct l; [| simpl in H1; lia]. now destruct d2.
  - destruct d2 as [| d2].
    + destruct l; [reflexivity | simpl in H2; lia].
    + destruct l as [| p l]; [reflexivity |].
      cbn [balancing_rec].
      set (sorted := sort (by_axis o) (p :: l)).
      assert (L : length sorted = S (length l)) by apply sort_length.
      clearbody sorted.
      set (half := (length (p :: l) / 2)%nat).
      assert (Hh : (half < length sorted)%nat).
      { rewrite L. apply (half_lt (S (length l))). lia. }
      clearbody half.
      destruct (sorted !! half) as [middle |]; [| reflexivity].
      assert (L1 : (length (take half sorted) <= Nat.min d1 d2)%nat).
      { rewrite length_take. simpl in H1, H2. lia. }
      assert (L2 : (length (drop (S half) sorted) <= Nat.min d1 d2)%nat).
      { rewrite length_drop. simpl in H1, H2. lia. }
      rewrite (IH d2 (take _ _)) by lia.
      apply IH; lia.
Qed.

Lemma balancing_unfold (p : Point) (l : list Point) (o : Orientation) (s : PointSet) :
  let sorted := sort (by_axis o) (p :: l) in
  let half := (length (p :: l) / 2)%nat in
  exists middle,
    sorted !! half = Some middle /\
    balancing sort (p :: l) o s =
    balancing sort (drop (S half) sorted) (next o)
      (balancing sort (take half sorted) (next o) (put s middle)).
Proof.
  intros sorted half.
  assert (L : length sorted = S (length l)) by apply sort_length.
  assert (Hh : (half < length sorted)%nat).
  { rewrite L. apply (half_lt (S (length l))). lia. }
  destruct (lookup_lt_is_Some_2 sorted half Hh) as [middle Hm].
  exists middle. split; [exact Hm |].
  unfold balancing at 1.
  change (length (p :: l)) with (S (length l)) at 1. cbn [balancing_rec].
  fold sorted. fold half. rewrite Hm.
  unfold balancing. clearbody half. clearbody sorted.
  rewrite (balancing_rec_depth (length l) (length (take half sorted)) (take half sorted))
    by (rewrite ?length_take; lia).
  apply balancing_rec_depth; rewrite ?length_drop; lia.
Qed.

(** An induction principle that follows the recursion of [balancing]. *)
Lemma balancing_ind (P : list Point -> Orientation -> PointSet -> PointSet -> Prop) :
  (forall o s, P [] o s s) ->
  (forall p l o s middle,
      let sorted := sort (by_axis o) (p :: l) in
      let half := (length (p :: l) / 2)%nat in
      sorted !! half = Some middle ->
      let s1 := put s middle in
      let s2 := balancing sort (take half sorted) (next o) s1 in
      let s3 := balancing sort (drop (S half) sorted) (next o) s2 in
      P (take half sorted) (next o) s1 s2 ->
      P (drop (S half) sorted) (next o) s2 s3 ->
      P (p :: l) o s s3) ->
  forall l o s, P l o s (balancing sort l o s).
Proof.
  intros Hnil Hcons l.
  induction l as [l IH] using (induction_ltof1 _ (@length Point)).
  unfold ltof in IH.
  intros o s. destruct l as [| p l]; [apply Hnil |].
  destruct (balancing_unfold p l o s) as (middle & Hm & E).
  assert (L : length (sort (by_axis o) (p :: l)) = S (length l)) by apply sort_length.
  assert (Hh : (length (p :: l) / 2 < S (length l))%nat).
  { apply (half_lt (S (length l))). lia. }
  specialize (Hcons p l o s middle Hm). cbn zeta in Hcons. rewrite E.
  revert Hcons L Hh.
  generalize (length (p :: l) / 2)%nat as half.
  generalize (sort (by_axis o) (p :: l)) as sorted.
  intros sorted half Hcons L Hh.
  apply Hcons; apply IH; rewrite ?length_take, ?length_drop; simpl; lia.
Qed.

Lemma balancing_contains_mono (l : list Point) (o : Orientation) (s : PointSet) (q : Point) :
  contains s q = true -> contains (balancing sort l o s) q = true.
Proof.
  revert l o s. apply (balancing_ind (fun l o s s' =>
    contains s q = true -> contains s' q = true)).
  - auto.
  - intros p l o s middle sorted half Hm s1 s2 s3 IH1 IH2 H.
    apply IH2, IH1. now apply contains_put_loop_mono.
Qed.

(** Every element of the range ends up found by [contains]. *)
Lemma balancing_contains_all (l : list Point) (o : Orientation) (s : PointSet) (q : Point) :
  finite_point q -> In q l -> contains (balancing sort l o s) q = true.
Proof.
  intros F. revert l o s. apply (balancing_ind (fun l o s s' =>
    In q l -> contains s' q = true)).
  - intros _ _ [].
  - intros p l o s middle sorted half Hm s1 s2 s3 IH1 IH2 H.
    apply (Permutation_in _ (Permutation_sym (sort_perm (by_axis o) (p :: l)))) in H.
    fold sorted in H. rewrite <- (take_drop_middle sorted half middle Hm) in H.
    apply in_app_or in H. destruct H as [H | [-> | H]].
    + apply balancing_contains_mono. auto.
    + apply balancing_contains_mono, balancing_contains_mono.
      now apply contains_put_loop.
    + auto.
Qed.

(** Every stored point comes from the range or was stored before. *)
Lemma balancing_points_from (l : list Point) (o : Orientation) (s : PointSet) (q : Point) :
  In q (points (root (balancing sort l o s))) -> In q l \/ In q (points (root s)).
Proof.
  revert l o s. apply (balancing_ind (fun l o s s' =>
    In q (points (root s')) -> In q l \/ In q (points (root s)))).
  - auto.
  - intros p l o s middle sorted half Hm s1 s2 s3 IH1 IH2 H.
    assert (Hs : forall a, In a sorted -> In a (p :: l)).
    { intros a. apply Permutation_in, sort_perm. }
    assert (M : In middle sorted).
    { apply list_elem_of_In. eapply list_elem_of_lookup_2, Hm. }
    destruct (IH2 H) as [H2 | H2].
    { left. apply Hs. apply list_elem_of_In. eapply (subseteq_drop (S half)).
      now apply list_elem_of_In. }
    destruct (IH1 H2) as [H1 | H1].
    { left. apply Hs. apply list_elem_of_In. eapply (subseteq_take half).
      now apply list_elem_of_In. }
    apply points_put_loop_in in H1. destruct H1 as [-> | H1]; auto.
Qed.

(** Bulk construction stores elements of the sequence only, and
    [contains] finds every element of the sequence. *)
Lemma bulk_membership (S0 : list Point) (p : Point) :
  (forall q, In q S0 -> finite_point q) ->
  (In p S0 -> contains (balancing sort S0 Vertical (mkPointSet nullptr)) p = true) /\
  (contains (balancing sort S0 Vertical (mkPointSet nullptr)) p = true ->
   exists q, In q S0 /\ point_eq q p = true).
Proof.
  intros F. split.
  - intros H. apply balancing_contains_all; auto.
  - intros H. apply contains_loop_found in H. destruct H as (q & I & E).
    exists q. split; [| exact E].
    apply balancing_points_from in I. destruct I as [I | []]. exact I.
Qed.
End BalancingFacts.

Lemma sort_insert_perm (lt : Point -> Point -> bool) (p : Point) (l : list Point) :
  Permutation (kdtree.sort_insert lt p l) (p :: l).
Proof.
  induction l as [| q l IH]; cbn [kdtree.sort_insert]; [reflexivity |].
  destruct (lt q p); [| reflexivity].
  rewrite IH. apply perm_swap.
Qed.

Lemma std_sort_perm (lt : Point -> Point -> bool) (l : list Point) :
  Permutation (kdtree.std_sort lt l) l.
Proof.
  induction l as [| p l IH]; [reflexivity |].
  unfold kdtree.std_sort in *. cbn [foldr].
  rewrite sort_insert_perm. now apply perm_skip.
Qed.

(** C3, as amended.  After bulk construction from a sequence [S] of points
    with real coordinates, whatever order [std::sort] gives to ties,
    [contains(p)] is true for every element [p] of [S], and [contains(p)]
    is true only if some element of [S] equals [p] within epsilon. *)
Theorem bulk_construction_membership
        (sort : (Point -> Point -> bool) -> list Point -> list Point)
        (S0 : list Point) (p : Point) :
  (forall lt l, Permutation (sort lt l) l) ->
  (forall q, In q S0 -> finite_point q) ->
  let s := kdtree.balancing sort S0 kdtree.Vertical (kdtree.mkPointSet kdtree.nullptr) in
  (In p S0 -> kdtree.contains s p = true) /\
  (kdtree.contains s p = true -> exists q, In q S0 /\ point_eq q p = true).
Proof. intros Hs F. now apply bulk_membership. Qed.

Lemma bulk_construction_membership_witness :
  let S0 := [pt 1 2; pt 3 4; pt 5 1; pt 2 8] in
  (forall q, In q S0 -> finite_point q) /\
  kdtree.contains
    (kdtree.balancing kdtree.std_sort S0 kdtree.Vertical (kdtree.mkPointSet kdtree.nullptr))
    (pt 3 4) = true.
Proof.
  intros S0.
  assert (F : forall q, In q S0 -> finite_point q).
  { intros q H. simpl in H.
    destruct H as [<- | [<- | [<- | [<- | []]]]]; split; exact I. }
  split; [exact F |].
  apply (bulk_construction_membership kdtree.std_sort S0 (pt 3 4) std_sort_perm F).
  simpl. auto.
Defined.

(** C3, the claim as stated fails.  The stored point [(eps/4, 0)] equals
    [(3 eps/4, 0)] within epsilon, but lies on the other side of the root
    [(eps/2, 5)]: [contains] looks for the second one to the right of the
    root and does not find it. *)
Lemma bulk_contains_misses_equal_point :
  let r := mkPoint (Fin (2 # 18014398509481984)) (Fin 5) in
  let s := quarter_eps_pt 1 0 in
  let p := quarter_eps_pt 3 0 in
  let index :=
    kdtree.balancing kdtree.std_sort [r; s] kdtree.Vertical
                     (kdtree.mkPointSet kdtree.nullptr) in
  kdtree.points (kdtree.root index) = [s; r] /\
  point_eq s p = true /\
  kdtree.contains index p = false.
Proof. vm_compute. repeat split. Qed.

(** The cached size after bulk construction counts a duplicate that lands
    below the root: four for three distinct points. *)
Example bulk_size_counts_duplicate :
  let index :=
    kdtree.balancing kdtree.std_sort [pt 0 0; pt 0 0; pt 1 1; pt 2 2] kdtree.Vertical
                     (kdtree.mkPointSet kdtree.nullptr) in
  kdtree.points (kdtree.root index) = [pt 0 0; pt 1 1; pt 2 2] /\
  kdtree.size index = 4%nat.
Proof. vm_compute. repeat split. Qed.

(** ** The loader *)

Lemma read_loop_app (tokens : list double) (y_var : double) (result : list Point) :
  read_loop tokens y_var result = result ++ read_loop tokens y_var [].
Proof.
  revert y_var result.
  induction tokens as [tokens IH] using (induction_ltof1 _ (@length double)).
  unfold ltof in IH. intros y_var result.
  destruct tokens as [| a [| b rest]]; cbn [read_loop].
  - now rewrite app_nil_r.
  - reflexivity.
  - assert (L : (length rest < length (a :: b :: rest))%nat) by (simpl; lia).
    rewrite (IH rest L b (result ++ [mkPoint a b])).
    rewrite (IH rest L b ([] ++ [mkPoint a b])).
    now rewrite <- app_assoc.
Qed.

(** On complete pairs followed by one more token, the loader returns the
    points of the pairs and then one point made of the last token and of
    the value left in [y]. *)
Lemma read_unpaired (pairs : list (double * double)) (last_tok y0 : double) :
  let tokens := flat_map (fun xy => [fst xy; snd xy]) pairs ++ [last_tok] in
  let stale := match last pairs with Some xy => snd xy | None => y0 end in
  read y0 tokens = map (fun xy => mkPoint (fst xy) (snd xy)) pairs ++ [mkPoint last_tok stale].
Proof.
  unfold read. revert y0.
  induction pairs as [| [a b] pairs IH]; intros y0; [reflexivity |].
  cbn [flat_map fst snd app map read_loop].
  rewrite read_loop_app. cbn [app]. f_equal.
  rewrite (IH b). f_equal. f_equal.
  destruct pairs as [| c pairs]; [reflexivity |].
  change (last ((a, b) :: c :: pairs)) with (last (c :: pairs)).
  destruct (last (c :: pairs)) eqn:E; [reflexivity |].
  apply last_None in E. discriminate.
Qed.

(** C7, evaluated.  On the tokens [1 2 3] the loader does not drop the
    trailing [3]: the failed read of [y] leaves the [2] of the pair before
    in place, and the point [(3, 2)] is stored in the index. *)
Theorem read_keeps_unpaired_coordinate (y0 : double) :
  let tokens := [Fin 1; Fin 2; Fin 3] in
  let index := kdtree.PointSet_new kdtree.std_sort y0 (fun _ => tokens) "points.txt" in
  complete_pairs tokens = [pt 1 2] /\
  read y0 tokens = [pt 1 2; pt 3 2] /\
  kdtree.points (kdtree.root index) = [pt 1 2; pt 3 2] /\
  kdtree.contains index (pt 3 2) = true.
Proof. vm_compute. repeat split. Qed.

(** ** Range queries *)

Lemma set_insert_in (p q : Point) (s : list Point) :
  In q (set_insert p s) -> q = p \/ In q s.
Proof.
  induction s as [| e s IH]; cbn [set_insert].
  - intros [<- | []]. now left.
  - destruct (point_lt e p).
    + intros [<- | H]; [right; now left |].
      destruct (IH H); [now left | right; now right].
    + destruct (point_lt p e); [intros [<- | H]; auto | auto].
Qed.

(** Whatever [range] returns is a stored point inside the query. *)
Lemma range_impl_sound (key : Rect) (node : kdtree.NodePtr) (ans : list Point)
      (rect_now : Rect) (q : Point) :
  In q (kdtree.range_impl key node ans rect_now) ->
  In q ans \/ (In q (kdtree.points node) /\ rect_contains key q = true).
Proof.
  revert ans rect_now.
  induction node as [| p o l IHl r IHr sz]; intros ans rect_now;
    cbn [kdtree.range_impl kdtree.points]; [auto |].
  destruct (negb (intersects key rect_now)); [auto |].
  destruct (kdtree.split rect_now p o) as [rl rr].
  intros H. apply IHr in H. destruct H as [H | [H C]].
  - apply IHl in H. destruct H as [H | [H C]].
    + destruct (rect_contains key p) eqn:E; [| auto].
      apply set_insert_in in H. destruct H as [-> | H]; [| auto].
      right. split; [apply in_elt | exact E].
    + right. split; [| exact C]. apply in_or_app. now left.
  - right. split; [| exact C]. apply in_or_app. right. now right.
Qed.

(** The scenario of the specification: four points, bulk construction. *)
Example concrete_scenario :
  let index :=
    kdtree.balancing kdtree.std_sort [pt 1 2; pt 3 4; pt 5 1; pt 2 8] kdtree.Vertical
                     (kdtree.mkPointSet kdtree.nullptr) in
  kdtree.contains index (pt 3 4) = true /\
  kdtree.contains index (pt 9 9) = false /\
  kdtree.range_set index (mkRect (pt 0 0) (pt 4 5)) = [pt 1 2; pt 3 4] /\
  kdtree.nearest_set hypot_floor index (pt 0 0) 1 = [pt 1 2].
Proof. vm_compute. repeat split. Qed.

(** C1, evaluated.  [Rect::intersects] only looks for a corner of one
    rectangle inside the other, so it answers no for two rectangles that
    cross without either holding a corner of the other.  The node [(5, 1)]
    carries the strip [[4, 6] x [-100, INF]], which crosses the query
    [[0, 10] x [0, 2]]: its subtree is pruned and the stored point
    [(5, 1)], inside the query, is not returned.  The same four points put
    in another order give the full answer. *)
Theorem range_misses_point_in_crossing_rectangle :
  let empty := kdtree.mkPointSet kdtree.nullptr in
  let s := kdtree.put (kdtree.put (kdtree.put (kdtree.put empty
             (pt 4 0)) (pt 5 (-100))) (pt 6 50)) (pt 5 1) in
  let s' := kdtree.put (kdtree.put (kdtree.put (kdtree.put empty
             (pt 5 1)) (pt 4 0)) (pt 5 (-100))) (pt 6 50) in
  let key := mkRect (pt 0 0) (pt 10 2) in
  let strip := mkRect (pt 4 (-100)) (mkPoint (Fin 6) INF) in
  Permutation (kdtree.points (kdtree.root s)) (kdtree.points (kdtree.root s')) /\
  filter (fun p => rect_contains key p = true) (kdtree.points (kdtree.root s))
    = [pt 4 0; pt 5 1] /\
  overlaps key strip = true /\
  intersects key strip = false /\
  kdtree.range_set s key = [pt 4 0] /\
  kdtree.range_set s' key = [pt 4 0; pt 5 1].
Proof.
  cbv zeta. split.
  - vm_compute.
    apply perm_skip. apply (Permutation_cons_app [_] [_]). reflexivity.
  - vm_compute. repeat split.
Qed.

(** ** Nearest neighbours *)
Section NearestFacts.
Import kdtree.
Variable hypot : double -> double -> double.
Variable sizeof_map_node : nat.

Lemma map_emplace_not_nil d p m : map_emplace d p m <> [].
Proof.
  destruct m as [| e m]; cbn [map_emplace]; [discriminate |].
  destruct (dlt (fst e) d); [discriminate |].
  destruct (dlt d (fst e)); discriminate.
Qed.

(** With [k > 0] the search never empties the candidates. *)
Lemma nearest_impl_not_nil key k node ans rect_now :
  (0 < k)%nat -> ans <> [] -> nearest_impl hypot key k node ans rect_now <> [].
Proof.
  intros Hk. revert ans rect_now.
  induction node as [| p o l IHl r IHr sz]; intros ans rect_now Hans;
    cbn [nearest_impl]; [exact Hans |].
  set (ans1 := map_emplace _ p ans).
  assert (N1 : ans1 <> []) by apply map_emplace_not_nil.
  set (ans2 := if (k <? length ans1)%nat then removelast ans1 else ans1).
  assert (N2 : ans2 <> []).
  { unfold ans2. destruct (k <? length ans1)%nat eqn:E; [| exact N1].
    apply Nat.ltb_lt in E.
    clearbody ans1.
    destruct ans1 as [| a [| b ans1]]; simpl in *; [congruence | lia | discriminate]. }
  destruct (dgt _ _); [exact N2 |].
  destruct (split rect_now p o) as [rl rr].
  apply IHr, IHl, N2.
Qed.

Lemma nearest_candidates_node key k p o l r sz :
  (0 < k)%nat ->
  nearest_candidates hypot (mkPointSet (Node p o l r sz)) key k <> [].
Proof.
  intros Hk. unfold nearest_candidates. cbn [root nearest_impl].
  set (ans1 := map_emplace _ p []).
  assert (E : (k <? length ans1)%nat = false).
  { apply Nat.ltb_ge. unfold ans1. simpl. lia. }
  rewrite E.
  destruct (dgt _ _); [apply map_emplace_not_nil |].
  destruct (split whole_plane p o) as [rl rr].
  apply nearest_impl_not_nil, nearest_impl_not_nil; auto.
Qed.

(** On an index that holds a point, [nearest(key, k)] with [k > 0] leaves
    the pools as it found them. *)
Lemma nearest_nonempty_releases_pool key k p o l r sz w :
  (0 < k)%nat ->
  pools (fst (nearest hypot sizeof_map_node (mkPointSet (Node p o l r sz)) key k w))
  = delete (fresh (dom (pools w))) (pools w) /\
  delete (fresh (dom (pools w))) (pools w) = pools w.
Proof.
  intros Hk. split.
  - unfold nearest.
    destruct (k =? 0)%nat eqn:E; [apply Nat.eqb_eq in E; lia |].
    cbn [create_pool].
    pose proof (nearest_candidates_node key k p o l r sz Hk) as N.
    destruct (nearest_candidates hypot _ key k) as [| c cs] eqn:C; [congruence |].
    destruct (save_tree _ _) as [rt h]. cbn [fst pools destroy_pool].
    apply delete_insert_eq.
  - apply delete_id. apply not_elem_of_dom, is_fresh.
Qed.
End NearestFacts.

(** C5, evaluated.  On the empty index a call [nearest(key, k)] with
    [k > 0] creates its pool and returns through [return {}] without
    destroying it: the pool is still allocated after the call. *)
Theorem nearest_on_empty_index_keeps_pool
        (hypot : double -> double -> double) (sizeof_map_node : nat)
        (key : Point) (k : nat) (w : kdtree.World) :
  let call := kdtree.nearest hypot sizeof_map_node (kdtree.mkPointSet kdtree.nullptr)
                             key (S k) w in
  let a := fresh (dom (kdtree.pools w)) in
  snd call = (kdtree.iterator_default, kdtree.iterator_default) /\
  kdtree.pools w !! a = None /\
  kdtree.pools (fst call) !! a = Some (pool.create_pool sizeof_map_node (S k + 1)) /\
  size (kdtree.pools (fst call)) = S (size (kdtree.pools w)).
Proof.
  cbv zeta. unfold kdtree.nearest. cbn.
  assert (F : kdtree.pools w !! fresh (dom (kdtree.pools w)) = None).
  { apply not_elem_of_dom, is_fresh. }
  repeat split.
  - exact F.
  - apply lookup_insert_eq.
  - now apply map_size_insert_None.
Qed.

Lemma hypot_floor_comm (u v : double) : hypot_floor u v = hypot_floor v u.
Proof.
  destruct u as [| |a|], v as [| |b|]; try reflexivity.
  unfold hypot_floor, Qsqrt_floor. do 3 f_equal.
  apply Qfloor_comp. apply Qmult_comp; [| reflexivity]. apply Qplus_comm.
Qed.

Lemma hypot_floor_nonneg (u v : double) : dlt (hypot_floor u v) (Fin 0) = false.
Proof.
  destruct u as [| |a|], v as [| |b|]; try reflexivity.
  unfold hypot_floor, Qsqrt_floor. cbn [dlt]. apply Qltb_ge.
  unfold Qle. cbn [Qnum Qden]. pose proof (Z.sqrt_nonneg
    (Qfloor ((a * a + b * b) * inject_Z 20282409603651670423947251286016))). lia.
Qed.

(** C2, evaluated.  The candidates are kept in a map keyed by distance, and
    [emplace] leaves the map alone when the key is already there: of two
    stored points at the same distance from the key only the first one met
    is kept.  With the points [(1, 0)] and [(0, 1)] and the key [(0, 0)],
    [nearest(key, 2)] returns one point where [min(k, size)] is two.  This
    holds for every [hypot] that is symmetric and never negative. *)
Theorem nearest_drops_equidistant_point (hypot : double -> double -> double) :
  (forall u v, hypot u v = hypot v u) ->
  (forall u v, dlt (hypot u v) (Fin 0) = false) ->
  let s := kdtree.put (kdtree.put (kdtree.mkPointSet kdtree.nullptr) (pt 1 0)) (pt 0 1) in
  kdtree.points (kdtree.root s) = [pt 0 1; pt 1 0] /\
  point_distance hypot (pt 0 0) (pt 1 0) = point_distance hypot (pt 0 0) (pt 0 1) /\
  kdtree.nearest_set hypot s (pt 0 0) 2 = [pt 1 0].
Proof.
  intros Hsym Hpos s.
  assert (D : point_distance hypot (pt 0 0) (pt 1 0) = point_distance hypot (pt 0 0) (pt 0 1)).
  { unfold point_distance. cbn [pt x y dsub]. apply Hsym. }
  split; [reflexivity |]. split; [exact D |].
  unfold kdtree.nearest_set, kdtree.nearest_candidates.
  change (kdtree.root s) with
    (kdtree.Node (pt 1 0) kdtree.Vertical
       (kdtree.Node (pt 0 1) kdtree.Horizontal kdtree.nullptr kdtree.nullptr 1)
       kdtree.nullptr 2).
  cbn [kdtree.nearest_impl map_emplace].
  rewrite <- D.
  set (d := point_distance hypot (pt 0 0) (pt 1 0)).
  assert (Hd : dlt d (Fin 0) = false) by apply Hpos.
  cbn [length Nat.ltb Nat.leb].
  change (rect_distance hypot kdtree.whole_plane (pt 0 0)) with (Fin 0).
  unfold kdtree.worst at 1. cbn [last fst]. unfold dgt at 1. rewrite Hd.
  cbn [kdtree.split]. cbn [map_emplace fst]. rewrite dlt_irrefl.
  cbn [length Nat.ltb Nat.leb].
  unfold kdtree.worst. cbn [last fst].
  match goal with
  | |- context [rect_distance hypot ?r (pt 0 0)] =>
      change (rect_distance hypot r (pt 0 0)) with (Fin 0)
  end.
  unfold dgt. rewrite Hd.
  reflexivity.
Qed.

Lemma nearest_drops_equidistant_point_witness :
  kdtree.nearest_set hypot_floor
    (kdtree.put (kdtree.put (kdtree.mkPointSet kdtree.nullptr) (pt 1 0)) (pt 0 1))
    (pt 0 0) 2 = [pt 1 0].
Proof.
  exact (proj2 (proj2 (nearest_drops_equidistant_point hypot_floor
                         hypot_floor_comm hypot_floor_nonneg))).
Defined.

(** ** The pool allocator *)
Section PoolFacts.
Import pool.


Lemma used_insert_eq (m : list bool) (i : nat) (v : bool) :
  (i < length m)%nat -> used (<[i := v]> m) i = v.
Proof. intros H. unfold used. now rewrite list_lookup_insert_eq. Qed.

Lemma used_insert_ne (m : list bool) (i j : nat) (v : bool) :
  i <> j -> used (<[i := v]> m) j = used m j.
Proof. intros H. unfold used. now rewrite list_lookup_insert_ne. Qed.











End PoolFacts.




(** ** The result protocol *)
Section ResultProtocol.
Import kdtree.

(** *** The chain built by [save_tree] *)

Lemma save_tree_loop_chain (rest : list Point) :
  forall (now_ : loc) (h : gmap loc cell) (p : Point) (taken : gset loc),
    h !! now_ = Some (mkCell p Vertical None None 1) ->
    now_ ∉ taken -> taken ⊆ dom h ->
    chain (save_tree_loop rest now_ h) taken now_ p rest /\
    (forall a, a ∈ dom h -> a <> now_ -> save_tree_loop rest now_ h !! a = h !! a).
Proof.
  induction rest as [| q rest IH]; intros now_ h p taken Hn Nt Sub;
    cbn [save_tree_loop chain make_shared].
  - auto.
  - set (a := fresh (dom h)).
    set (h1 := <[a := mkCell q Vertical None None 1]> h).
    set (h2 := set_left now_ (Some a) h1).
    assert (Fa : a ∉ dom h) by apply is_fresh.
    assert (Dn : now_ ∈ dom h) by (apply elem_of_dom; eauto).
    assert (Na : now_ <> a) by (intros ->; contradiction).
    assert (H2a : h2 !! a = Some (mkCell q Vertical None None 1)).
    { unfold h2, set_left. rewrite lookup_alter_ne by exact Na.
      unfold h1. apply lookup_insert_eq. }
    assert (H2n : h2 !! now_ = Some (mkCell p Vertical (Some a) None 1)).
    { unfold h2, set_left. rewrite lookup_alter_eq.
      unfold h1. rewrite lookup_insert_ne by congruence. now rewrite Hn. }
    assert (D2 : dom h2 = {[a]} ∪ dom h).
    { unfold h2, set_left. rewrite dom_alter_L. unfold h1. apply dom_insert_L. }
    destruct (IH a h2 q taken H2a) as [C U].
    { intros I. apply Fa, Sub, I. }
    { rewrite D2. intros z Hz. apply elem_of_union. right. apply Sub, Hz. }
    split; [split; [exact Nt |] |].
    + exists a. split; [| exact C].
      rewrite U; [exact H2n | rewrite D2; apply elem_of_union; now right | exact Na].
    + intros b Db Nb.
      assert (Nba : b <> a) by (intros ->; contradiction).
      rewrite U; [| rewrite D2; apply elem_of_union; now right | exact Nba].
      unfold h2, set_left. rewrite lookup_alter_ne by congruence.
      unfold h1. apply lookup_insert_ne. congruence.
Qed.

Lemma save_tree_chain (p : Point) (rest : list Point) (h : gmap loc cell) :
  exists a,
    fst (save_tree (p :: rest) h) = Some a /\
    chain (snd (save_tree (p :: rest) h)) (dom h) a p rest /\
    (forall b, b ∈ dom h -> snd (save_tree (p :: rest) h) !! b = h !! b).
Proof.
  cbn [save_tree make_shared fst snd].
  set (a := fresh (dom h)).
  set (h1 := <[a := mkCell p Vertical None None 1]> h).
  assert (Fa : a ∉ dom h) by apply is_fresh.
  destruct (save_tree_loop_chain rest a h1 p (dom h)) as [C U].
  - apply lookup_insert_eq.
  - exact Fa.
  - unfold h1. rewrite dom_insert_L. intros z Hz. apply elem_of_union. now right.
  - exists a. split; [reflexivity |]. split; [exact C |].
    intros b Db. assert (Nb : b <> a) by (intros ->; contradiction).
    rewrite U; [| unfold h1; rewrite dom_insert_L; apply elem_of_union; now right | exact Nb].
    unfold h1. apply lookup_insert_ne. congruence.
Qed.

(** *** Walking a chain with the iterator *)

Lemma advance_succ (h : gmap loc cell) (n : nat) (it : iterator) :
  advance h (S n) it = advance h n (incr h it).
Proof. unfold advance. apply Nat.iter_succ_r. Qed.

Lemma chain_walk (h : gmap loc cell) (taken : gset loc) (rest : list Point) :
  forall (a : loc) (p : Point),
    chain h taken a p rest ->
    (forall i q, (p :: rest) !! i = Some q ->
       exists b, advance h i (iterator_at (Some a)) = iterator_at (Some b) /\
                 (b ∉ taken) /\ (c_point <$> h !! b) = Some q) /\
    advance h (S (length rest)) (iterator_at (Some a)) = iterator_default.
Proof.
  induction rest as [| q rest IH]; intros a p; cbn [chain].
  - intros [Nt Ha]. split.
    + intros [| i] q' Hi; [| discriminate].
      injection Hi as <-. exists a. cbn. rewrite Ha. auto.
    + cbn. now rewrite Ha.
  - intros (Nt & b & Ha & C).
    destruct (IH b q C) as [W E].
    assert (Step : incr h (iterator_at (Some a)) = iterator_at (Some b)).
    { unfold incr, iterator_at. cbn [now queue]. now rewrite Ha. }
    split.
    + intros [| i] q' Hi.
      * injection Hi as <-. exists a. cbn. rewrite Ha. auto.
      * rewrite advance_succ, Step. now apply W.
    + cbn [length]. now rewrite advance_succ, Step.
Qed.

Lemma laid_out_mono (h h' : gmap loc cell) (t : NodePtr) :
  (forall a c, h !! a = Some c -> h' !! a = Some c) ->
  forall r, laid_out h r t -> laid_out h' r t.
Proof.
  intros M. induction t as [| p o l IHl rt IHr sz]; intros r; cbn [laid_out]; [auto |].
  intros (a & cl & cr & -> & Ha & Hl & Hr).
  exists a, cl, cr. auto.
Qed.

Lemma save_tree_delivered (p : Point) (rest : list Point) (h : gmap loc cell) :
  delivered h (snd (save_tree (p :: rest) h))
            (iterator_at (fst (save_tree (p :: rest) h))) iterator_default (p :: rest).
Proof.
  destruct (save_tree_chain p rest h) as (a & -> & C & U).
  destruct (chain_walk _ _ _ _ _ C) as [W E].
  split; [reflexivity |]. split; [| split].
  - intros i q Hi. destruct (W i q Hi) as (b & -> & Nb & Hb).
    split; [exact Hb |]. split; [reflexivity |].
    exists b. split; [reflexivity |]. now apply not_elem_of_dom.
  - cbn [length]. now rewrite E.
  - intros b c Hb. rewrite U; [exact Hb |]. apply elem_of_dom. eauto.
Qed.
End ResultProtocol.


(** * Further properties of the code *)

(** ** The pool allocator: first fit, marking, release *)
Section PoolMore.
Import pool.

Lemma used_ge (m : list bool) (j : nat) : (length m <= j)%nat -> used m j = false.
Proof. intros H. unfold used. now rewrite lookup_ge_None_2. Qed.


Lemma length_fill (m : list bool) (pos n : nat) (v : bool) :
  length (fill m pos n v) = length m.
Proof.
  revert m pos. induction n as [| n IH]; intros m pos; cbn [fill]; [reflexivity |].
  rewrite IH. apply length_insert.
Qed.

Lemma used_fill (m : list bool) (pos n : nat) (v : bool) (j : nat) :
  used (fill m pos n v) j =
  if ((pos <=? j) && (j <? pos + n) && (j <? length m))%nat then v else used m j.
Proof.
  revert m pos. induction n as [| n IH]; intros m pos; cbn [fill].
  - replace ((pos <=? j) && (j <? pos + 0))%nat with false; [reflexivity |].
    symmetry. apply andb_false_iff.
    destruct (Nat.leb_spec pos j); [right; apply Nat.ltb_ge; lia | now left].
  - rewrite IH, length_insert.
    destruct (decide (j = pos)) as [-> | N].
    + replace (S pos <=? pos)%nat with false by (symmetry; apply Nat.leb_gt; lia).
      replace (pos <=? pos)%nat with true by (symmetry; apply Nat.leb_le; lia).
      replace (pos <? pos + S n)%nat with true by (symmetry; apply Nat.ltb_lt; lia).
      cbn [andb].
      destruct (Nat.ltb_spec pos (length m)) as [H | H].
      * now apply used_insert_eq.
      * rewrite !used_ge; auto. now rewrite length_insert.
    + rewrite used_insert_ne by congruence.
      replace ((S pos <=? j) && (j <? S pos + n))%nat
        with ((pos <=? j) && (j <? pos + S n))%nat; [reflexivity |].
      destruct (Nat.leb_spec pos j), (Nat.leb_spec (S pos) j),
               (Nat.ltb_spec j (pos + S n)), (Nat.ltb_spec j (S pos + n));
        cbn [andb]; try reflexivity; lia.
Qed.



End PoolMore.






(** X4.  In a pool whose records have a size, [deallocate(ptr, n)] frees
    the slots of the block that lie inside the map, from the slot of [ptr]
    on, and touches nothing else: a pointer below the arena or past its
    last slot changes nothing, and a block that runs over the end is cut at
    the end.  (With a record size of zero the source divides by zero.) *)
Theorem deallocate_frees_block_only (p : pool.Pool) (ptr : Z) (n : nat) :
  (0 < pool.m_obj_size p)%nat ->
  pool.m_obj_size (pool.deallocate p ptr n) = pool.m_obj_size p /\
  length (pool.m_used_map (pool.deallocate p ptr n)) = length (pool.m_used_map p) /\
  forall j,
    pool.used (pool.m_used_map (pool.deallocate p ptr n)) j =
    pool.used (pool.m_used_map p) j &&
    negb ((0 <=? ptr)%Z && (slot_of p ptr <=? j)%nat && (j <? slot_of p ptr + n)%nat).
Proof.
  intros _. unfold pool.deallocate. fold (slot_of p ptr).
  destruct (0 <=? ptr)%Z; cbn [andb negb].
  - destruct (Nat.ltb_spec (slot_of p ptr) (length (pool.m_used_map p))) as [H | H];
      cbn [pool.m_obj_size pool.m_used_map].
    + split; [reflexivity |]. split; [apply length_fill |].
      intros j. rewrite used_fill.
      destruct (Nat.leb_spec (slot_of p ptr) j), (Nat.ltb_spec j (slot_of p ptr + n)),
               (Nat.ltb_spec j (length (pool.m_used_map p))),
               (Nat.ltb_spec j (slot_of p ptr +
                                Nat.min n (length (pool.m_used_map p) - slot_of p ptr)));
        cbn [andb negb]; rewrite ?andb_true_r, ?andb_false_r; try reflexivity; try lia.
      rewrite used_ge; auto.
    + split; [reflexivity |]. split; [reflexivity |].
      intros j.
      destruct (Nat.leb_spec (slot_of p ptr) j); cbn [andb negb];
        rewrite ?andb_true_r; [| reflexivity].
      rewrite used_ge by lia. reflexivity.
  - split; [reflexivity |]. split; [reflexivity |].
    intros j. now rewrite andb_true_r.
Qed.

Lemma deallocate_frees_block_only_witness :
  let p := pool.mkPool 8 32 [true; true; true; false] in
  pool.deallocate p 16 5 = pool.mkPool 8 32 [true; true; false; false] /\
  forall j,
    pool.used (pool.m_used_map (pool.deallocate p 16 5)) j =
    pool.used (pool.m_used_map p) j &&
    negb ((0 <=? 16)%Z && (slot_of p 16 <=? j)%nat && (j <? slot_of p 16 + 5)%nat).
Proof.
  intros p. split; [reflexivity |].
  apply (deallocate_frees_block_only p 16 5). simpl. lia.
Defined.

(** ** The shape of the index *)
Section Shape.
Import kdtree.

Lemma reachable_finite (s : PointSet) :
  reachable s -> forall q, In q (points (root s)) -> finite_point q.
Proof.
  induction 1 as [| s p R IH F]; intros q Hq.
  - destruct Hq.
  - apply points_put_loop_in in Hq. destruct Hq as [-> | Hq]; auto.
Qed.

Lemma put_loop_alternating (t : NodePtr) (key : Point) (o : Orientation) :
  alternating o t -> alternating o (put_loop t key o).
Proof.
  revert o. induction t as [| p o' l IHl r IHr sz]; intros o; cbn [put_loop make_node alternating].
  - auto.
  - intros (-> & Hl & Hr).
    destruct (point_eq key p); [cbn [alternating]; auto |].
    destruct (goes_right o p key); cbn [alternating]; auto.
Qed.

Lemma put_loop_routed (t : NodePtr) (key : Point) (o : Orientation) :
  routed t -> routed (put_loop t key o).
Proof.
  revert o. induction t as [| p o' l IHl r IHr sz]; intros o; cbn [put_loop make_node routed].
  - intros _. repeat split; intros q [].
  - intros (Hl & Hr & Rl & Rr).
    destruct (point_eq key p); [cbn [routed]; auto |].
    destruct (goes_right o' p key) eqn:G; cbn [routed].
    + repeat split; auto.
      intros q Hq. apply points_put_loop_in in Hq. destruct Hq as [-> | Hq]; auto.
    + repeat split; auto.
      intros q Hq. apply points_put_loop_in in Hq. destruct Hq as [-> | Hq]; auto.
Qed.

Lemma put_loop_counted (t : NodePtr) (key : Point) (o : Orientation) :
  counted t ->
  counted (put_loop t key o) /\
  (cached t <= cached (put_loop t key o) <= S (cached t))%nat.
Proof.
  revert o. induction t as [| p o' l IHl r IHr sz]; intros o; cbn [put_loop make_node counted cached].
  - intros _. split; [repeat split; lia | lia].
  - intros (Hs & Cl & Cr).
    destruct (point_eq key p); [cbn [counted cached]; split; [auto | lia] |].
    destruct (goes_right o' p key); cbn [counted cached].
    + destruct (IHr (next o) Cr) as [C B]. split; [repeat split; auto; lia | lia].
    + destruct (IHl (next o) Cl) as [C B]. split; [repeat split; auto; lia | lia].
Qed.

Lemma counted_points (t : NodePtr) : counted t -> (length (points t) <= cached t)%nat.
Proof.
  induction t as [| p o l IHl r IHr sz]; cbn [counted points cached length]; [lia |].
  intros (Hs & Cl & Cr). rewrite length_app. cbn [length].
  specialize (IHl Cl). specialize (IHr Cr). lia.
Qed.

Lemma reachable_counted (s : PointSet) : reachable s -> counted (root s).
Proof.
  induction 1 as [| s p R IH F]; [exact I |].
  apply put_loop_counted, IH.
Qed.
End Shape.

(** X5.  In every reachable index the root is Vertical and the
    orientation alternates from each node to its children. *)
Theorem reachable_alternating (s : kdtree.PointSet) :
  reachable s -> alternating kdtree.Vertical (kdtree.root s).
Proof.
  induction 1 as [| s p R IH F]; [exact I |].
  apply put_loop_alternating, IH.
Qed.

Lemma reachable_alternating_witness :
  let s := kdtree.put (kdtree.put empty_index (pt 3 4)) (pt 1 2) in
  reachable s /\ alternating kdtree.Vertical (kdtree.root s).
Proof.
  intros s.
  assert (R : reachable s).
  { repeat (apply reachable_put; [| split; exact I]). apply reachable_empty. }
  split; [exact R |]. apply (reachable_alternating s R).
Defined.

(** X6.  In every reachable index the points below a node are on the side
    where the descent looks for them: in the left subtree the test
    [key >= node] on the node's axis fails, in the right subtree it
    holds. *)
Theorem reachable_routed (s : kdtree.PointSet) :
  reachable s -> routed (kdtree.root s).
Proof.
  induction 1 as [| s p R IH F]; [exact I |].
  apply put_loop_routed, IH.
Qed.

Lemma reachable_routed_witness :
  let s := kdtree.put (kdtree.put empty_index (pt 3 4)) (pt 1 2) in
  reachable s /\ routed (kdtree.root s).
Proof.
  intros s.
  assert (R : reachable s).
  { repeat (apply reachable_put; [| split; exact I]). apply reachable_empty. }
  split; [exact R |]. apply (reachable_routed s R).
Defined.

(** X7.  In every reachable index [size()] is at least the number of
    stored points, and [empty()] is true exactly when no point is stored. *)
Theorem reachable_size_bounds (s : kdtree.PointSet) :
  reachable s ->
  (length (kdtree.points (kdtree.root s)) <= kdtree.size s)%nat /\
  (kdtree.empty s = true <-> kdtree.points (kdtree.root s) = []).
Proof.
  intros R. pose proof (reachable_counted s R) as C.
  split; [now apply counted_points |].
  unfold kdtree.empty. destruct (kdtree.root s) as [| p o l r sz]; [tauto |].
  cbn [counted kdtree.points] in *. destruct C as (Hs & _).
  split.
  - intros E. apply Nat.eqb_eq in E. lia.
  - intros E. destruct (kdtree.points l); discriminate.
Qed.

Lemma reachable_size_bounds_witness :
  let s := kdtree.put (kdtree.put (kdtree.put empty_index (pt 1 1)) (pt 2 2)) (pt 2 2) in
  reachable s /\
  (length (kdtree.points (kdtree.root s)) <= kdtree.size s)%nat.
Proof.
  intros s.
  assert (R : reachable s).
  { repeat (apply reachable_put; [| split; exact I]). apply reachable_empty. }
  split; [exact R |]. apply (reachable_size_bounds s R).
Defined.

(** X8.  In every reachable index [contains] finds every stored point,
    and no point is stored twice. *)
Theorem reachable_stored_found (s : kdtree.PointSet) :
  reachable s ->
  (forall q, In q (kdtree.points (kdtree.root s)) -> kdtree.contains s q = true) /\
  List.NoDup (kdtree.points (kdtree.root s)).
Proof.
  induction 1 as [| s p R [IHf IHn] F]; [split; [intros q [] | constructor] |].
  unfold kdtree.contains, kdtree.put in *. cbn [kdtree.root] in *. split.
  - intros q Hq. apply points_put_loop_in in Hq. destruct Hq as [-> | Hq].
    + now apply contains_put_loop.
    + now apply contains_put_loop_mono, IHf.
  - destruct (kdtree.contains_loop (kdtree.root s) p) eqn:C.
    + now rewrite points_put_loop_found.
    + apply (Permutation_NoDup (Permutation_sym (points_put_loop_new _ p kdtree.Vertical C))).
      constructor; [| exact IHn]. intros I. apply IHf in I. congruence.
Qed.

Lemma reachable_stored_found_witness :
  let s := kdtree.put (kdtree.put empty_index (pt 3 4)) (pt 1 2) in
  reachable s /\ kdtree.contains s (pt 1 2) = true.
Proof.
  intros s.
  assert (R : reachable s).
  { repeat (apply reachable_put; [| split; exact I]). apply reachable_empty. }
  split; [exact R |]. apply (reachable_stored_found s R). simpl. auto.
Defined.

(** X9.  A [put] of a point that [contains] does not find keeps the cached
    sizes exact and adds one to [size()]. *)
Theorem put_new_point_counts (s : kdtree.PointSet) (p : Point) :
  kdtree.contains s p = false ->
  kdtree.size_invariant (kdtree.root s) = true ->
  kdtree.size_invariant (kdtree.root (kdtree.put s p)) = true /\
  kdtree.size (kdtree.put s p) = S (kdtree.size s).
Proof.
  intros C I.
  destruct (size_invariant_put_loop_new (kdtree.root s) p kdtree.Vertical C I) as [I' E].
  split; [exact I' |].
  unfold kdtree.size, kdtree.put. cbn [kdtree.root].
  exact E.
Qed.

Lemma put_new_point_counts_witness :
  let s := kdtree.put empty_index (pt 1 1) in
  kdtree.contains s (pt 2 2) = false /\
  kdtree.size (kdtree.put s (pt 2 2)) = 2%nat.
Proof.
  intros s. split; [reflexivity |].
  apply (put_new_point_counts s (pt 2 2)); reflexivity.
Defined.

(** X10.  A [put] never hides a point: what [contains] found before the
    [put] of any point, it finds after it. *)
Theorem put_keeps_found_points (s : kdtree.PointSet) (p q : Point) :
  kdtree.contains s q = true -> kdtree.contains (kdtree.put s p) q = true.
Proof. apply contains_put_loop_mono. Qed.

Lemma put_keeps_found_points_witness :
  let s := kdtree.put empty_index (pt 3 4) in
  kdtree.contains s (pt 3 4) = true /\
  kdtree.contains (kdtree.put s (pt 1 2)) (pt 3 4) = true.
Proof.
  intros s. split; [reflexivity |].
  apply (put_keeps_found_points s (pt 1 2) (pt 3 4)). reflexivity.
Defined.

(** X11.  [contains(key)] is true only if a stored point equals the key
    within epsilon. *)
Theorem contains_only_stored (s : kdtree.PointSet) (key : Point) :
  kdtree.contains s key = true ->
  exists p, In p (kdtree.points (kdtree.root s)) /\ point_eq p key = true.
Proof. apply contains_loop_found. Qed.

Lemma contains_only_stored_witness :
  let s := kdtree.put empty_index (pt 3 4) in
  kdtree.contains s (pt 3 4) = true /\
  exists p, In p (kdtree.points (kdtree.root s)) /\ point_eq p (pt 3 4) = true.
Proof.
  intros s. split; [reflexivity |].
  apply (contains_only_stored s (pt 3 4)). reflexivity.
Defined.

(** ** Comparison operators, rectangles, loader *)

(** X12.  On points with real coordinates the derived operators agree with
    [operator<] and [operator==]: [a > b] is [b < a], [a >= b] is [b <= a],
    and [a <= b] is the negation of [b < a]. *)
Theorem derived_operators_agree (a b : Point) :
  finite_point a -> finite_point b ->
  point_gt a b = point_lt b a /\
  point_ge a b = point_le b a /\
  point_le a b = negb (point_lt b a).
Proof.
  intros Fa Fb.
  pose proof (point_trichotomy a b Fa Fb) as T.
  unfold point_gt, point_ge, point_le. rewrite (point_eq_sym b a).
  destruct T as [(-> & -> & ->) | [(-> & -> & ->) | (-> & -> & ->)]]; repeat split.
Qed.

Lemma derived_operators_agree_witness :
  (finite_point (pt 1 2) /\ finite_point (pt 1 3)) /\
  point_gt (pt 1 3) (pt 1 2) = point_lt (pt 1 2) (pt 1 3).
Proof.
  assert (F : forall u v, finite_point (pt u v)) by (intros; split; exact I).
  split; [split; apply F |].
  apply (derived_operators_agree (pt 1 3) (pt 1 2) (F _ _) (F _ _)).
Defined.

Lemma dle_trans (u v w : double) : dle u v = true -> dle v w = true -> dle u w = true.
Proof.
  destruct u as [| |a|], v as [| |b|], w as [| |c|]; cbn [dle]; try congruence.
  rewrite !Qle_bool_iff. intros. eapply Qle_trans; eauto.
Qed.

Lemma dle_refl_l (u v : double) : dle u v = true -> dle u u = true.
Proof.
  destruct u as [| |a|], v; cbn [dle]; try congruence.
  all: intros _; apply Qle_bool_iff, Qle_refl.
Qed.

Lemma dle_refl_r (u v : double) : dle u v = true -> dle v v = true.
Proof.
  destruct u, v as [| |b|]; cbn [dle]; try congruence.
  all: intros _; apply Qle_bool_iff, Qle_refl.
Qed.

Lemma intersects_impl_overlaps (a b : Rect) :
  well_formed a -> well_formed b ->
  intersects_impl a b = true -> overlaps a b = true /\ overlaps b a = true.
Proof.
  intros [Ax Ay] [Bx By_]. unfold intersects_impl, rect_contains, overlaps, dge.
  cbn [x y]. rewrite !orb_true_iff, !andb_true_iff.
  intros [[[H | H] | H] | H]; destruct H as [[[H1 H2] H3] H4];
    repeat split; eauto using dle_trans, dle_refl_l, dle_refl_r.
Qed.

(** X13.  [Rect::intersects] never reports two rectangles that are apart:
    when it answers true for two well-formed rectangles, their sides
    overlap on both axes. *)
Theorem intersects_implies_overlap (a b : Rect) :
  well_formed a -> well_formed b ->
  intersects a b = true -> overlaps a b = true.
Proof.
  intros Wa Wb. unfold intersects. rewrite orb_true_iff. intros [H | H].
  - exact (proj1 (intersects_impl_overlaps a b Wa Wb H)).
  - exact (proj2 (intersects_impl_overlaps b a Wb Wa H)).
Qed.

Lemma intersects_implies_overlap_witness :
  let a := mkRect (pt 0 0) (pt 4 5) in
  let b := mkRect (pt 3 4) (pt 9 9) in
  (well_formed a /\ well_formed b) /\ intersects a b = true /\ overlaps a b = true.
Proof.
  intros a b.
  assert (Wa : well_formed a) by (split; reflexivity).
  assert (Wb : well_formed b) by (split; reflexivity).
  split; [auto |]. split; [reflexivity |].
  apply (intersects_implies_overlap a b Wa Wb). reflexivity.
Defined.

Lemma read_pairs (pairs : list (double * double)) (y0 : double) :
  read y0 (flat_map (fun xy => [fst xy; snd xy]) pairs)
  = map (fun xy => mkPoint (fst xy) (snd xy)) pairs.
Proof.
  unfold read. revert y0.
  induction pairs as [| [a b] pairs IH]; intros y0; [reflexivity |].
  cbn [flat_map fst snd app map read_loop].
  rewrite read_loop_app. cbn [app]. f_equal. apply IH.
Qed.

(** X14.  On an even number of tokens the loader returns one point per
    pair, in the order of the file, whatever [y] held before the loop. *)
Theorem read_complete_pairs (pairs : list (double * double)) (y0 : double) :
  read y0 (flat_map (fun xy => [fst xy; snd xy]) pairs)
  = map (fun xy => mkPoint (fst xy) (snd xy)) pairs.
Proof. apply read_pairs. Qed.

(** X15.  What [range] collects is sound: every point of the result is a
    stored point that the query rectangle contains. *)
Theorem range_returns_stored_points_inside (s : kdtree.PointSet) (key : Rect) (q : Point) :
  In q (kdtree.range_set s key) ->
  In q (kdtree.points (kdtree.root s)) /\ rect_contains key q = true.
Proof.
  intros H. apply range_impl_sound in H. destruct H as [[] | H]. exact H.
Qed.

Lemma range_returns_stored_points_inside_witness :
  let s := kdtree.put (kdtree.put empty_index (pt 3 4)) (pt 9 9) in
  let key := mkRect (pt 0 0) (pt 4 5) in
  In (pt 3 4) (kdtree.range_set s key) /\ rect_contains key (pt 3 4) = true.
Proof.
  intros s key.
  assert (H : In (pt 3 4) (kdtree.range_set s key)) by (vm_compute; auto).
  split; [exact H |].
  apply (range_returns_stored_points_inside s key (pt 3 4) H).
Defined.

(** ** The rectangles carried down the tree *)
Section Carried.
Import kdtree.

Lemma whole_plane_contains (q : Point) :
  finite_point q -> rect_contains whole_plane q = true.
Proof. destruct q as [[| |a|] [| |b|]]; intros [[] []]; reflexivity. Qed.

Lemma dle_total_fin (a b : Q) : dle (Fin a) (Fin b) = false -> dle (Fin b) (Fin a) = true.
Proof.
  cbn [dle]. intros H. apply Qle_bool_iff.
  destruct (Qlt_le_dec a b) as [L | L]; [| exact L].
  apply Qlt_le_weak, Qle_bool_iff in L. congruence.
Qed.

(** [split] sends a point of the rectangle to the side where the routing
    test sends it. *)
Lemma split_routes (rect : Rect) (p q : Point) (o : Orientation) :
  finite_point p -> finite_point q ->
  rect_contains rect q = true ->
  rect_contains (if goes_right o p q then snd (split rect p o) else fst (split rect p o)) q
  = true.
Proof.
  destruct p as [[| |px|] [| |py|]], q as [[| |qx|] [| |qy|]];
    intros [[] []] [[] []].
  intros H. unfold rect_contains, dge in H. cbn [x y] in H.
  rewrite !andb_true_iff in H. destruct H as [[[H1 H2] H3] H4].
  destruct o; cbn [goes_right split x y]; unfold dge.
  - destruct (dle (Fin px) (Fin qx)) eqn:G; cbn [fst snd];
      unfold rect_contains, dge, xmin, xmax, ymin, ymax in *;
      cbn [left_bottom right_top x y] in *; rewrite !andb_true_iff; repeat split; auto.
    now apply dle_total_fin.
  - destruct (dle (Fin py) (Fin qy)) eqn:G; cbn [fst snd];
      unfold rect_contains, dge, xmin, xmax, ymin, ymax in *;
      cbn [left_bottom right_top x y] in *; rewrite !andb_true_iff; repeat split; auto.
    now apply dle_total_fin.
Qed.

Lemma put_loop_within (t : NodePtr) (key : Point) (o : Orientation) (rect : Rect) :
  finite_point key -> (forall q, In q (points t) -> finite_point q) ->
  rect_contains rect key = true ->
  within rect t -> within rect (put_loop t key o).
Proof.
  intros Fk. revert o rect.
  induction t as [| p o' l IHl r IHr sz]; intros o rect Ft Hk; cbn [put_loop make_node].
  - intros _. cbn [within points app]. repeat split.
    intros q [<- | []]. exact Hk.
  - intros (Hall & Wl & Wr).
    destruct (point_eq key p); [cbn [within]; auto |].
    assert (Fp : finite_point p) by (apply Ft; cbn [points]; apply in_elt).
    pose proof (split_routes rect p key o' Fp Fk Hk) as Hside.
    destruct (goes_right o' p key) eqn:G; cbn [within]; repeat split; auto.
    + intros q Hq. cbn [points] in Hq. apply in_app_or in Hq.
      destruct Hq as [Hq | [<- | Hq]].
      * apply Hall. cbn [points]. apply in_or_app. now left.
      * apply Hall. cbn [points]. apply in_elt.
      * apply points_put_loop_in in Hq. destruct Hq as [-> | Hq]; [exact Hk |].
        apply Hall. cbn [points]. apply in_or_app. right. now right.
    + apply IHr; auto. intros q Hq. apply Ft. cbn [points].
      apply in_or_app. right. now right.
    + intros q Hq. cbn [points] in Hq. apply in_app_or in Hq.
      destruct Hq as [Hq | [<- | Hq]].
      * apply points_put_loop_in in Hq. destruct Hq as [-> | Hq]; [exact Hk |].
        apply Hall. cbn [points]. apply in_or_app. now left.
      * apply Hall. cbn [points]. apply in_elt.
      * apply Hall. cbn [points]. apply in_or_app. right. now right.
    + apply IHl; auto. intros q Hq. apply Ft. cbn [points].
      apply in_or_app. now left.
Qed.

Lemma point_lt_irrefl (p : Point) : point_lt p p = false.
Proof.
  unfold point_lt.
  destruct (double_equal (x p) (x p)); [| apply dlt_irrefl].
  destruct (double_equal (y p) (y p)); [reflexivity | apply dlt_irrefl].
Qed.

Lemma set_insert_keeps (p e : Point) (s : list Point) :
  In e s -> In e (set_insert p s).
Proof.
  induction s as [| a s IH]; cbn [set_insert]; [intros [] |].
  intros [-> | H].
  - destruct (point_lt e p); [now left |].
    destruct (point_lt p e); [right |]; now left.
  - destruct (point_lt a p); [right; now apply IH |].
    destruct (point_lt p a); right; [now right | exact H].
Qed.

(** After [insert(p)] the set holds [p] or an element that the order does
    not tell from [p]. *)
Lemma set_insert_holds (p : Point) (s : list Point) :
  exists e, In e (set_insert p s) /\ point_lt e p = false /\ point_lt p e = false.
Proof.
  induction s as [| a s (e & I & L1 & L2)]; cbn [set_insert].
  - exists p. rewrite point_lt_irrefl. split; [now left | auto].
  - destruct (point_lt a p) eqn:A.
    + exists e. split; [now right | auto].
    + destruct (point_lt p a) eqn:B.
      * exists p. rewrite point_lt_irrefl. split; [now left | auto].
      * exists a. split; [now left | auto].
Qed.

Lemma range_impl_keeps (key : Rect) (node : NodePtr) (ans : list Point) (rect_now : Rect)
      (e : Point) :
  In e ans -> In e (range_impl key node ans rect_now).
Proof.
  revert ans rect_now.
  induction node as [| p o l IHl r IHr sz]; intros ans rect_now H;
    cbn [range_impl]; [exact H |].
  destruct (negb (intersects key rect_now)); [exact H |].
  destruct (split rect_now p o) as [rl rr].
  apply IHr, IHl.
  destruct (rect_contains key p); [now apply set_insert_keeps | exact H].
Qed.

Lemma point_rect_contains (rect : Rect) (q : Point) :
  rect_contains rect q = true -> intersects (mkRect q q) rect = true.
Proof.
  intros H. unfold intersects. apply orb_true_iff. right.
  unfold intersects_impl. rewrite !orb_true_iff. left. left. left.
  destruct q. exact H.
Qed.

Lemma point_in_own_rect (q : Point) : finite_point q -> rect_contains (mkRect q q) q = true.
Proof.
  destruct q as [[| |a|] [| |b|]]; intros [[] []].
  unfold rect_contains, dge, xmin, xmax, ymin, ymax. cbn [left_bottom right_top x y dle].
  rewrite !andb_true_iff. repeat split; apply Qle_bool_iff, Qle_refl.
Qed.

Lemma range_impl_point_query (t : NodePtr) (q : Point) :
  finite_point q ->
  forall (rect : Rect) (ans : list Point),
    within rect t -> In q (points t) ->
    exists e, In e (range_impl (mkRect q q) t ans rect) /\
              point_lt e q = false /\ point_lt q e = false.
Proof.
  intros Fq. induction t as [| p o l IHl r IHr sz]; intros rect ans W Hq; [destruct Hq |].
  cbn [within] in W. destruct W as (Hall & Wl & Wr).
  cbn [range_impl].
  rewrite (point_rect_contains rect q (Hall q Hq)). cbn [negb].
  destruct (split rect p o) as [rl rr] eqn:S. cbn [fst snd] in *.
  cbn [points] in Hq. apply in_app_or in Hq. destruct Hq as [Hq | [-> | Hq]].
  - destruct (IHl rl (if rect_contains (mkRect q q) p then set_insert p ans else ans) Wl Hq)
      as (e & I & L).
    exists e. split; [now apply range_impl_keeps | exact L].
  - rewrite (point_in_own_rect q Fq).
    destruct (set_insert_holds q ans) as (e & I & L).
    exists e. split; [now apply range_impl_keeps, range_impl_keeps | exact L].
  - apply IHr; auto.
Qed.

Lemma within_reachable (s : PointSet) :
  reachable s -> within whole_plane (root s).
Proof.
  induction 1 as [| s p R IH F]; [exact I |].
  apply put_loop_within; auto.
  - now apply reachable_finite.
  - now apply whole_plane_contains.
Qed.
End Carried.

(** X16.  In every reachable index the points below each node lie in the
    rectangle that [range] and [nearest] carry to that node (the whole
    plane at the root, split at each node on the way down). *)
Theorem reachable_within (s : kdtree.PointSet) :
  reachable s -> within kdtree.whole_plane (kdtree.root s).
Proof. apply within_reachable. Qed.

Lemma reachable_within_witness :
  let s := kdtree.put (kdtree.put empty_index (pt 3 4)) (pt 1 2) in
  reachable s /\ within kdtree.whole_plane (kdtree.root s).
Proof.
  intros s.
  assert (R : reachable s).
  { repeat (apply reachable_put; [| split; exact I]). apply reachable_empty. }
  split; [exact R |]. apply (reachable_within s R).
Defined.

(** X17.  In every reachable index, [range] on the rectangle reduced to a
    stored point returns that point, or the stored point equal to it within
    epsilon that the result set holds in its place. *)
Theorem range_finds_stored_point (s : kdtree.PointSet) (q : Point) :
  reachable s -> In q (kdtree.points (kdtree.root s)) ->
  exists e, In e (kdtree.range_set s (mkRect q q)) /\ point_eq e q = true.
Proof.
  intros R Hq.
  assert (Fq : finite_point q) by now apply (reachable_finite s R).
  destruct (range_impl_point_query (kdtree.root s) q Fq kdtree.whole_plane []
              (within_reachable s R) Hq) as (e & I & L1 & L2).
  exists e. split; [exact I |].
  assert (Fe : finite_point e).
  { apply (reachable_finite s R). now apply (range_impl_sound _ _ [] _ e) in I as [[] | [? _]]. }
  destruct (point_trichotomy e q Fe Fq) as [(A & _) | [(_ & A & _) | (_ & _ & A)]];
    congruence.
Qed.

Lemma range_finds_stored_point_witness :
  let s := kdtree.put (kdtree.put empty_index (pt 3 4)) (pt 1 2) in
  reachable s /\
  exists e, In e (kdtree.range_set s (mkRect (pt 1 2) (pt 1 2))) /\ point_eq e (pt 1 2) = true.
Proof.
  intros s.
  assert (R : reachable s).
  { repeat (apply reachable_put; [| split; exact I]). apply reachable_empty. }
  split; [exact R |]. apply (range_finds_stored_point s (pt 1 2) R). simpl. auto.
Defined.

(** ** Nearest neighbours: what every call guarantees *)
Section NearestMore.
Import kdtree.
Variable hypot : double -> double -> double.
Variable sizeof_map_node : nat.

Lemma map_emplace_length_le d p m : (length (map_emplace d p m) <= S (length m))%nat.
Proof.
  induction m as [| e m IH]; cbn [map_emplace length]; [lia |].
  destruct (dlt (fst e) d); [cbn [length]; lia |].
  destruct (dlt d (fst e)); cbn [length]; lia.
Qed.

Lemma map_emplace_in d p m e : In e (map_emplace d p m) -> e = (d, p) \/ In e m.
Proof.
  induction m as [| a m IH]; cbn [map_emplace].
  - intros [<- | []]. now left.
  - destruct (dlt (fst a) d).
    + intros [<- | H]; [right; now left |].
      destruct (IH H); [now left | right; now right].
    + destruct (dlt d (fst a)); [intros [<- | H]; auto | auto].
Qed.

Lemma removelast_in {A : Type} (l : list A) (e : A) : In e (removelast l) -> In e l.
Proof.
  induction l as [| a [| b l] IH]; cbn [removelast]; [auto | intros [] |].
  intros [<- | H]; [now left | right; now apply IH].
Qed.

Lemma removelast_length {A : Type} (l : list A) : length (removelast l) = pred (length l).
Proof.
  induction l as [| a [| b l] IH]; cbn [removelast length] in *; try reflexivity.
  now rewrite IH.
Qed.

Lemma nearest_impl_length key k node ans rect_now :
  (length ans <= k)%nat -> (length (nearest_impl hypot key k node ans rect_now) <= k)%nat.
Proof.
  revert ans rect_now.
  induction node as [| p o l IHl r IHr sz]; intros ans rect_now H;
    cbn [nearest_impl]; [exact H |].
  set (ans1 := map_emplace _ p ans).
  assert (L1 : (length ans1 <= S (length ans))%nat) by apply map_emplace_length_le.
  set (ans2 := if (k <? length ans1)%nat then removelast ans1 else ans1).
  assert (L2 : (length ans2 <= k)%nat).
  { unfold ans2. destruct (Nat.ltb_spec k (length ans1)); [| lia].
    rewrite removelast_length. lia. }
  destruct (dgt _ _); [exact L2 |].
  destruct (split rect_now p o) as [rl rr].
  apply IHr, IHl, L2.
Qed.

Lemma nearest_impl_in key k node ans rect_now e :
  In e (nearest_impl hypot key k node ans rect_now) ->
  In e ans \/ In (snd e) (points node).
Proof.
  revert ans rect_now.
  induction node as [| p o l IHl r IHr sz]; intros ans rect_now;
    cbn [nearest_impl points]; [auto |].
  set (ans1 := map_emplace _ p ans).
  set (ans2 := if (k <? length ans1)%nat then removelast ans1 else ans1).
  assert (H2 : In e ans2 -> In e ans \/ snd e = p).
  { intros H. assert (H1 : In e ans1).
    { unfold ans2 in H. destruct (k <? length ans1)%nat; [now apply removelast_in | exact H]. }
    apply map_emplace_in in H1. destruct H1 as [-> | H1]; auto. }
  destruct (dgt _ _).
  - intros H. destruct (H2 H) as [? | <-]; [now left | right; apply in_elt].
  - destruct (split rect_now p o) as [rl rr].
    intros H. apply IHr in H. destruct H as [H | H].
    + apply IHl in H. destruct H as [H | H].
      * destruct (H2 H) as [? | <-]; [now left | right; apply in_elt].
      * right. apply in_or_app. now left.
    + right. apply in_or_app. right. now right.
Qed.

Lemma set_insert_length_le p s : (length (set_insert p s) <= S (length s))%nat.
Proof.
  induction s as [| e s IH]; cbn [set_insert length]; [lia |].
  destruct (point_lt e p); [cbn [length]; lia |].
  destruct (point_lt p e); cbn [length]; lia.
Qed.

Lemma set_insert_not_nil p s : set_insert p s <> [].
Proof.
  destruct s as [| e s]; cbn [set_insert]; [discriminate |].
  destruct (point_lt e p); [discriminate |].
  destruct (point_lt p e); discriminate.
Qed.

Lemma fold_set_insert_facts (cs : list (double * Point)) (set : list Point) :
  let result := fold_left (fun set e => set_insert (snd e) set) cs set in
  (length result <= length set + length cs)%nat /\
  (forall q, In q result -> In q set \/ exists e, In e cs /\ snd e = q) /\
  (cs <> [] \/ set <> [] -> result <> []).
Proof.
  revert set. induction cs as [| c cs IH]; intros set; cbn [fold_left length].
  - split; [lia |]. split; [auto |]. intros [H | H]; congruence.
  - destruct (IH (set_insert (snd c) set)) as (L & I & N).
    pose proof (set_insert_length_le (snd c) set).
    split; [lia |]. split.
    + intros q Hq. destruct (I q Hq) as [H1 | (e & He & E)].
      * apply set_insert_in in H1. destruct H1 as [-> | H1]; [| now left].
        right. exists c. split; [now left | reflexivity].
      * right. exists e. split; [now right | exact E].
    + intros _. apply N. right. apply set_insert_not_nil.
Qed.

Lemma nearest_set_stored (s : PointSet) (key : Point) (k : nat) (q : Point) :
  In q (nearest_set hypot s key k) -> In q (points (root s)).
Proof.
  intros H. unfold nearest_set in H.
  destruct (fold_set_insert_facts (nearest_candidates hypot s key k) []) as (_ & I & _).
  destruct (I q H) as [[] | (e & He & <-)].
  apply nearest_impl_in in He. destruct He as [[] | He]. exact He.
Qed.

Lemma nearest_first_not_end (set : list Point) (h : gmap loc cell) :
  set <> [] ->
  iterator_eq (iterator_at (fst (save_tree set h))) iterator_default = false.
Proof.
  destruct set as [| p rest]; [congruence |]. intros _.
  destruct (save_tree_chain p rest h) as (a & -> & _). reflexivity.
Qed.
End NearestMore.

(** X18.  [nearest(key, k)] never collects more than [k] points, and every
    point it collects is a stored point. *)
Theorem nearest_at_most_k_stored_points
        (hypot : double -> double -> double) (s : kdtree.PointSet) (key : Point) (k : nat) :
  (length (kdtree.nearest_set hypot s key k) <= k)%nat /\
  forall q, In q (kdtree.nearest_set hypot s key k) -> In q (kdtree.points (kdtree.root s)).
Proof.
  split; [| intros q; apply nearest_set_stored].
  unfold kdtree.nearest_set.
  destruct (fold_set_insert_facts (kdtree.nearest_candidates hypot s key k) []) as (L & _).
  cbn zeta in L. cbn [length] in L.
  assert (B : (length (kdtree.nearest_candidates hypot s key k) <= k)%nat).
  { apply nearest_impl_length. cbn [length]. lia. }
  lia.
Qed.

(** X19.  On an index that holds a point, [nearest(key, k)] with [k > 0]
    and a pool of [k + 1] records of at most [2^62] bytes returns a result
    that is not empty, destroys the pool it created, and leaves every node
    cell that existed before the call as it was. *)
Theorem nearest_on_nonempty_index
        (hypot : double -> double -> double) (sizeof_map_node : nat)
        (s : kdtree.PointSet) (key : Point) (k : nat) (w : kdtree.World) :
  kdtree.root s <> kdtree.nullptr -> (0 < k)%nat -> pool_fits sizeof_map_node k ->
  let call := kdtree.nearest hypot sizeof_map_node s key k w in
  kdtree.nearest_set hypot s key k <> [] /\
  kdtree.iterator_eq (fst (snd call)) (snd (snd call)) = false /\
  kdtree.pools (fst call) = kdtree.pools w /\
  (forall a c, kdtree.nodes w !! a = Some c -> kdtree.nodes (fst call) !! a = Some c).
Proof.
  intros Hr Hk _ call.
  destruct s as [[| p o l r sz]]; [now cbn in Hr |].
  pose proof (nearest_candidates_node hypot key k p o l r sz Hk) as Nc.
  assert (Ns : kdtree.nearest_set hypot (kdtree.mkPointSet (kdtree.Node p o l r sz)) key k <> []).
  { unfold kdtree.nearest_set.
    now apply (fold_set_insert_facts (kdtree.nearest_candidates hypot _ key k) []); left. }
  split; [exact Ns |].
  destruct (nearest_nonempty_releases_pool hypot sizeof_map_node key k p o l r sz w Hk)
    as [P1 P2].
  fold call in P1. rewrite P1, P2.
  subst call. unfold kdtree.nearest in *.
  destruct (k =? 0)%nat eqn:E; [apply Nat.eqb_eq in E; lia |].
  cbn [kdtree.create_pool].
  destruct (kdtree.nearest_candidates hypot _ key k) as [| c cs]; [congruence |].
  cbn [kdtree.destroy_pool kdtree.nodes].
  destruct (kdtree.nearest_set hypot _ key k) as [| q rest] eqn:Es; [congruence |].
  pose proof (save_tree_delivered q rest (kdtree.nodes w)) as D.
  pose proof (nearest_first_not_end (q :: rest) (kdtree.nodes w) ltac:(discriminate)) as Fe.
  destruct (kdtree.save_tree (q :: rest) (kdtree.nodes w)) as [rt h].
  cbn [fst snd kdtree.nodes] in *.
  split; [exact Fe |]. split; [reflexivity |]. apply D.
Qed.

Lemma nearest_on_nonempty_index_witness :
  let s := kdtree.put empty_index (pt 3 4) in
  kdtree.root s <> kdtree.nullptr /\
  kdtree.pools (fst (kdtree.nearest hypot_floor 56 s (pt 0 0) 2 (kdtree.mkWorld ∅ ∅))) = ∅.
Proof.
  intros s.
  assert (H : kdtree.root s <> kdtree.nullptr) by discriminate.
  split; [exact H |].
  apply (nearest_on_nonempty_index hypot_floor 56 s (pt 0 0) 2 (kdtree.mkWorld ∅ ∅) H).
  - lia.
  - split; [lia | vm_compute; discriminate].
Defined.

(** X20.  The single-point form [nearest(key)] returns nothing exactly on
    the index without nodes; otherwise it returns a stored point. *)
Theorem nearest_one_some_iff_nonempty
        (hypot : double -> double -> double) (sizeof_map_node : nat)
        (s : kdtree.PointSet) (key : Point) (w : kdtree.World) :
  match snd (kdtree.nearest_one hypot sizeof_map_node s key w) with
  | None => kdtree.root s = kdtree.nullptr
  | Some p => kdtree.root s <> kdtree.nullptr /\ In p (kdtree.points (kdtree.root s))
  end.
Proof.
  unfold kdtree.nearest_one.
  destruct s as [[| p o l r sz]].
  - reflexivity.
  - pose proof (nearest_candidates_node hypot key 1 p o l r sz ltac:(lia)) as Nc.
    set (s := kdtree.mkPointSet (kdtree.Node p o l r sz)) in *.
    assert (Ns : kdtree.nearest_set hypot s key 1 <> []).
    { unfold kdtree.nearest_set.
      now apply (fold_set_insert_facts (kdtree.nearest_candidates hypot s key 1) []); left. }
    unfold kdtree.nearest. cbn [Nat.eqb kdtree.create_pool].
    destruct (kdtree.nearest_candidates hypot s key 1) as [| c cs]; [congruence |].
    cbn [kdtree.destroy_pool kdtree.nodes].
    destruct (kdtree.nearest_set hypot s key 1) as [| q rest] eqn:Es; [congruence |].
    pose proof (save_tree_delivered q rest (kdtree.nodes w)) as (_ & D & _).
    pose proof (nearest_first_not_end (q :: rest) (kdtree.nodes w) ltac:(discriminate)) as Fe.
    destruct (kdtree.save_tree (q :: rest) (kdtree.nodes w)) as [rt h].
    cbn [fst snd kdtree.nodes] in *. rewrite Fe. cbn [snd kdtree.nodes].
    destruct (D 0%nat q eq_refl) as (Dq & _). cbn in Dq. cbn. rewrite Dq.
    split; [discriminate |].
    apply (nearest_set_stored hypot s key 1). rewrite Es. now left.
Qed.

(** ** The iterator over the live index *)
Section LiveTraversal.
Import kdtree.
Variable h : gmap loc cell.

Lemma forest_size_app (f1 f2 : list NodePtr) :
  forest_size (f1 ++ f2) = (forest_size f1 + forest_size f2)%nat.
Proof.
  unfold forest_size. induction f1 as [| t f1 IH]; cbn [app map list_sum]; [reflexivity |].
  unfold list_sum in *. cbn [fold_right]. rewrite IH. lia.
Qed.

Lemma forest_size_cons (t : NodePtr) (f : list NodePtr) :
  forest_size (t :: f) = (length (points t) + forest_size f)%nat.
Proof. reflexivity. Qed.

Lemma forest_size_non_null (t : NodePtr) : forest_size (non_null t) = length (points t).
Proof.
  destruct t; [reflexivity |]. cbn [non_null]. rewrite forest_size_cons.
  unfold forest_size. cbn. lia.
Qed.

Lemma forest_size_children (p : Point) (o : Orientation) (l r : NodePtr) (sz : nat) :
  S (forest_size (children (Node p o l r sz))) = length (points (Node p o l r sz)).
Proof.
  cbn [children points]. rewrite forest_size_app, !forest_size_non_null, length_app.
  cbn [length]. lia.
Qed.

Lemma points_non_null (t : NodePtr) : concat (map points (non_null t)) = points t.
Proof. destruct t; [reflexivity |]. cbn. apply app_nil_r. Qed.

Lemma laid_out_non_null (c : option loc) (t : NodePtr) :
  laid_out h c t -> Forall2 (placed h) (option_list c) (non_null t).
Proof.
  destruct t as [| p o l r sz]; cbn [laid_out non_null].
  - intros ->. constructor.
  - intros (a & cl & cr & -> & H). cbn [option_list].
    constructor; [| constructor]. split; [discriminate |].
    cbn [laid_out]. exists a, cl, cr. split; [reflexivity | exact H].
Qed.

Lemma placed_children (a : loc) (p : Point) (o : Orientation) (l r : NodePtr) (sz : nat) :
  placed h a (Node p o l r sz) ->
  exists cl cr,
    h !! a = Some (mkCell p o cl cr sz) /\
    Forall2 (placed h) (option_list cl ++ option_list cr) (children (Node p o l r sz)).
Proof.
  intros [_ (a' & cl & cr & [= <-] & Ha & Hl & Hr)].
  exists cl, cr. split; [exact Ha |].
  cbn [children]. apply Forall2_app; now apply laid_out_non_null.
Qed.

(** The iterator standing on the first node of a forest, with the other
    nodes waiting in its queue, walks the forest in level order and then
    becomes the end iterator. *)
Lemma iterator_walks_forest (n : nat) :
  forall (forest : list NodePtr) (a : loc) (q : list loc),
    forest_size forest = n ->
    Forall2 (placed h) (a :: q) forest ->
    (forall i, (i < n)%nat ->
       deref h (advance h i (mkIterator q (Some a))) = level_order n forest !! i /\
       iterator_eq (advance h i (mkIterator q (Some a))) iterator_default = false) /\
    advance h n (mkIterator q (Some a)) = iterator_default.
Proof.
  induction n as [| n IH]; intros forest a q Hn HF.
  - inversion HF as [| ? t ? rest [Ht _] _]; subst.
    rewrite forest_size_cons in Hn. destruct t; [congruence | cbn in Hn].
    rewrite length_app in Hn. cbn in Hn. lia.
  - inversion HF as [| ? t ? rest Pt Prest]; subst.
    destruct t as [| p o l r sz]; [destruct Pt; congruence |].
    destruct (placed_children a p o l r sz Pt) as (cl & cr & Ha & Hc).
    assert (Hn' : forest_size (rest ++ children (Node p o l r sz)) = n).
    { rewrite forest_size_app. rewrite forest_size_cons in Hn.
      pose proof (forest_size_children p o l r sz). lia. }
    assert (HF' : Forall2 (placed h) ((q ++ option_list cl) ++ option_list cr)
                          (rest ++ children (Node p o l r sz))).
    { rewrite <- app_assoc. now apply Forall2_app. }
    assert (D0 : deref h (mkIterator q (Some a)) = Some p).
    { unfold deref. cbn [now]. now rewrite Ha. }
    assert (Step : incr h (mkIterator q (Some a)) =
                   match (q ++ option_list cl) ++ option_list cr with
                   | [] => mkIterator [] None
                   | front :: q3 => mkIterator q3 (Some front)
                   end).
    { unfold incr. cbn [now queue]. rewrite Ha. reflexivity. }
    cbn [level_order].
    destruct ((q ++ option_list cl) ++ option_list cr) as [| b q3] eqn:Eq.
    + apply Forall2_nil_inv_l in HF'. rewrite HF' in Hn'. cbn in Hn'. subst n.
      split.
      * intros i Hi. assert (i = 0)%nat as -> by lia. cbn [advance Nat.iter].
        split; [exact D0 | reflexivity].
      * rewrite advance_succ, Step. reflexivity.
    + destruct (IH _ b q3 Hn' HF') as [W E].
      split.
      * intros [| i] Hi.
        -- cbn [advance Nat.iter]. split; [exact D0 | reflexivity].
        -- rewrite advance_succ, Step. apply W. lia.
      * now rewrite advance_succ, Step.
Qed.

Lemma level_order_permutation (n : nat) :
  forall forest,
    forest_size forest = n -> Forall (fun t => t <> nullptr) forest ->
    Permutation (level_order n forest) (concat (map points forest)).
Proof.
  induction n as [| n IH]; intros forest Hn HF.
  - destruct forest as [| t rest]; [reflexivity |].
    inversion HF; subst. rewrite forest_size_cons in Hn.
    destruct t; [congruence | cbn in Hn]. rewrite length_app in Hn. cbn in Hn. lia.
  - destruct forest as [| t rest]; [discriminate |].
    inversion HF as [| ? ? Ht Hrest]; subst.
    destruct t as [| p o l r sz]; [congruence |].
    cbn [level_order map concat].
    assert (Hn' : forest_size (rest ++ children (Node p o l r sz)) = n).
    { rewrite forest_size_app. rewrite forest_size_cons in Hn.
      pose proof (forest_size_children p o l r sz). lia. }
    rewrite IH; [| exact Hn' |].
    + rewrite map_app, concat_app. cbn [children].
      rewrite map_app, concat_app, !points_non_null. cbn [points].
      rewrite Permutation_app_comm.
      rewrite <- !app_assoc. cbn [app].
      apply Permutation_cons_app. reflexivity.
    + apply Forall_app. split; [exact Hrest |].
      cbn [children]. apply Forall_app. split.
      * destruct l; cbn [non_null]; [constructor | repeat constructor; discriminate].
      * destruct r; cbn [non_null]; [constructor | repeat constructor; discriminate].
Qed.
End LiveTraversal.

(** X21.  The iterator from [begin()] walks the live index in level order:
    its [i]-th increment stands on the [i]-th point of the breadth-first
    order and differs from [end()], after one increment per stored point it
    equals [end()], and the points it has walked are the stored points, each
    once. *)
Theorem iterator_walks_index_level_order
        (h : gmap kdtree.loc kdtree.cell) (r : option kdtree.loc) (t : kdtree.NodePtr) :
  kdtree.laid_out h r t ->
  let begin_ := kdtree.iterator_at r in
  let end_ := kdtree.iterator_default in
  (forall i, (i < length (kdtree.points t))%nat ->
     kdtree.deref h (kdtree.advance h i begin_) = breadth_first t !! i /\
     kdtree.iterator_eq (kdtree.advance h i begin_) end_ = false) /\
  kdtree.advance h (length (kdtree.points t)) begin_ = end_ /\
  Permutation (breadth_first t) (kdtree.points t).
Proof.
  intros L begin_ end_.
  assert (P : Permutation (breadth_first t) (kdtree.points t)).
  { unfold breadth_first. rewrite level_order_permutation.
    - now rewrite points_non_null.
    - apply forest_size_non_null.
    - destruct t; cbn [non_null]; [constructor | repeat constructor; discriminate]. }
  pose proof (laid_out_non_null h r t L) as HF.
  destruct t as [| p o l rt sz].
  - cbn [kdtree.laid_out] in L. subst r. cbn [kdtree.points length].
    split; [intros i Hi; lia |]. split; [reflexivity | exact P].
  - cbn [non_null] in HF. destruct r as [a |]; [| inversion HF].
    cbn [option_list] in HF.
    destruct (iterator_walks_forest h (length (kdtree.points (kdtree.Node p o l rt sz)))
                [kdtree.Node p o l rt sz] a [])
      as [W E]; [| exact HF |].
    + rewrite forest_size_cons. unfold forest_size. cbn [map list_sum]. cbn. lia.
    + split; [exact W |]. split; [exact E | exact P].
Qed.

Lemma iterator_walks_index_level_order_witness :
  let h : gmap kdtree.loc kdtree.cell :=
    <[1%positive := kdtree.mkCell (pt 3 4) kdtree.Vertical (Some 2%positive) None 2]>
      (<[2%positive := kdtree.mkCell (pt 1 2) kdtree.Horizontal None None 1]> ∅) in
  let t := kdtree.root (kdtree.put (kdtree.put empty_index (pt 3 4)) (pt 1 2)) in
  kdtree.laid_out h (Some 1%positive) t /\
  kdtree.advance h 2 (kdtree.iterator_at (Some 1%positive)) = kdtree.iterator_default.
Proof.
  intros h t.
  assert (L : kdtree.laid_out h (Some 1%positive) t).
  { cbn. exists 1%positive, (Some 2%positive), None. repeat split.
    exists 2%positive, None, None. repeat split. }
  split; [exact L |].
  apply (iterator_walks_index_level_order h (Some 1%positive) t L).
Defined.

Lemma put_new_point_counts_lemma (s : kdtree.PointSet) (p : Point) :
  kdtree.contains s p = false ->
  kdtree.size_invariant (kdtree.root s) = true ->
  kdtree.size_invariant (kdtree.root (kdtree.put s p)) = true /\
  Permutation (kdtree.points (kdtree.root (kdtree.put s p))) (p :: kdtree.points (kdtree.root s)) /\
  kdtree.size (kdtree.put s p) = S (kdtree.size s).
Proof.
  intros C I.
  destruct (size_invariant_put_loop_new (kdtree.root s) p kdtree.Vertical C I) as [I' E].
  split; [exact I' |]. split; [now apply points_put_loop_new | exact E].
Qed.

(** ** Bulk construction and the loader together *)
Section BulkMore.
Import kdtree.
Variable sort : (Point -> Point -> bool) -> list Point -> list Point.
Hypothesis sort_perm : forall lt l, Permutation (sort lt l) l.

Lemma perm_rearrange {A : Type} (a : A) (lo hi rest : list A) :
  Permutation ((lo ++ a :: hi) ++ rest) (hi ++ lo ++ a :: rest).
Proof.
  rewrite <- app_assoc. cbn [app].
  transitivity ((lo ++ a :: rest) ++ hi); [| apply Permutation_app_comm].
  rewrite <- app_assoc. cbn [app].
  apply Permutation_app_head, perm_skip, Permutation_app_comm.
Qed.

Lemma distinct_eps_app_r (l1 l2 : list Point) : distinct_eps (l1 ++ l2) -> distinct_eps l2.
Proof. induction l1 as [| p l1 IH]; cbn [app distinct_eps]; [auto | intros [_ H]; auto]. Qed.

Lemma distinct_eps_perm (l1 l2 : list Point) :
  Permutation l1 l2 -> distinct_eps l1 -> distinct_eps l2.
Proof.
  induction 1 as [| p l1 l2 P IH | p q l | l1 l2 l3 P1 IH1 P2 IH2]; cbn [distinct_eps].
  - auto.
  - intros [H D]. split; [| auto].
    intros q Hq. apply H. now apply (Permutation_in _ (Permutation_sym P)).
  - intros (Hq & Hp & D). repeat split; auto.
    + intros u [<- | Hu]; [| now apply Hp].
      rewrite point_eq_sym. apply Hq. now left.
    + intros u Hu. apply Hq. now right.
  - auto.
Qed.

Lemma distinct_not_found (t : NodePtr) (p : Point) :
  distinct_eps (p :: points t) -> contains_loop t p = false.
Proof.
  intros [H _]. destruct (contains_loop t p) eqn:C; [| reflexivity].
  apply contains_loop_found in C. destruct C as (q & I & E).
  rewrite point_eq_sym, (H q I) in E. discriminate.
Qed.

Lemma balancing_distinct (l : list Point) (o : Orientation) (s : PointSet) :
  size_invariant (root s) = true ->
  distinct_eps (l ++ points (root s)) ->
  size_invariant (root (balancing sort l o s)) = true /\
  Permutation (points (root (balancing sort l o s))) (l ++ points (root s)) /\
  size (balancing sort l o s) = (length l + size s)%nat.
Proof.
  revert l o s. apply (balancing_ind sort sort_perm (fun l o s s' =>
    size_invariant (root s) = true ->
    distinct_eps (l ++ points (root s)) ->
    size_invariant (root s') = true /\
    Permutation (points (root s')) (l ++ points (root s)) /\
    size s' = (length l + size s)%nat)).
  - intros o s I D. auto.
  - intros p l o s middle sorted half Hm s1 s2 s3 IH1 IH2 I D.
    assert (Ps : Permutation (p :: l) (take half sorted ++ middle :: drop (S half) sorted)).
    { rewrite (take_drop_middle sorted half middle Hm). symmetry. apply sort_perm. }
    set (lo := take half sorted) in *. set (hi := drop (S half) sorted) in *.
    assert (Dall : distinct_eps (hi ++ lo ++ middle :: points (root s))).
    { apply (distinct_eps_perm ((p :: l) ++ points (root s))); [| exact D].
      transitivity ((lo ++ middle :: hi) ++ points (root s)).
      - now apply Permutation_app_tail.
      - apply perm_rearrange. }
    assert (C : contains s middle = false).
    { apply distinct_not_found. now apply distinct_eps_app_r, distinct_eps_app_r in Dall. }
    destruct (put_new_point_counts_lemma s middle C I) as (I1 & P1 & Z1).
    fold s1 in I1, P1, Z1.
    destruct (IH1 I1) as (I2 & P2 & Z2).
    { apply (distinct_eps_perm (lo ++ middle :: points (root s))).
      - now rewrite P1.
      - now apply distinct_eps_app_r in Dall. }
    destruct (IH2 I2) as (I3 & P3 & Z3).
    { apply (distinct_eps_perm (hi ++ lo ++ middle :: points (root s))); [| exact Dall].
      now rewrite P2, P1. }
    split; [exact I3 |]. split.
    + rewrite P3, P2, P1. symmetry.
      transitivity ((lo ++ middle :: hi) ++ points (root s)).
      * now apply Permutation_app_tail.
      * apply perm_rearrange.
    + rewrite Z3, Z2, Z1.
      apply Permutation_length in Ps. rewrite length_app in Ps.
      cbn [length] in *. clearbody lo hi. lia.
Qed.

Lemma balancing_reachable (l : list Point) (o : Orientation) (s : PointSet) :
  (forall q, In q l -> finite_point q) -> reachable s -> reachable (balancing sort l o s).
Proof.
  revert l o s. apply (balancing_ind sort sort_perm (fun l o s s' =>
    (forall q, In q l -> finite_point q) -> reachable s -> reachable s')).
  - auto.
  - intros p l o s middle sorted half Hm s1 s2 s3 IH1 IH2 F R.
    assert (Fs : forall q, In q sorted -> finite_point q).
    { intros q Hq. apply F. now apply (Permutation_in _ (sort_perm (by_axis o) (p :: l))). }
    apply IH2.
    + intros q Hq. apply Fs, list_elem_of_In. apply (subseteq_drop (S half)).
      now apply list_elem_of_In.
    + apply IH1.
      * intros q Hq. apply Fs, list_elem_of_In. apply (subseteq_take half).
        now apply list_elem_of_In.
      * apply reachable_put; [exact R |].
        apply Fs, list_elem_of_In. eapply list_elem_of_lookup_2, Hm.
Qed.
End BulkMore.

(** X22.  Bulk construction from a sequence in which no two points are
    equal within epsilon stores every point of the sequence once, keeps the
    cached sizes exact, and [size()] is the length of the sequence,
    whatever order [std::sort] gives to ties. *)
Theorem bulk_construction_of_distinct_points
        (sort : (Point -> Point -> bool) -> list Point -> list Point) (S0 : list Point) :
  (forall lt l, Permutation (sort lt l) l) ->
  distinct_eps S0 ->
  let s := kdtree.balancing sort S0 kdtree.Vertical empty_index in
  kdtree.size s = length S0 /\
  kdtree.size_invariant (kdtree.root s) = true /\
  Permutation (kdtree.points (kdtree.root s)) S0.
Proof.
  intros Hs D s.
  destruct (balancing_distinct sort Hs S0 kdtree.Vertical empty_index eq_refl)
    as (I & P & Z).
  { cbn [empty_index kdtree.root kdtree.points]. now rewrite app_nil_r. }
  fold s in I, P, Z. cbn [empty_index kdtree.root kdtree.points] in P.
  rewrite app_nil_r in P. split; [| auto].
  rewrite Z. unfold kdtree.size. cbn. lia.
Qed.

Lemma bulk_construction_of_distinct_points_witness :
  let S0 := [pt 1 2; pt 3 4; pt 5 1; pt 2 8] in
  distinct_eps S0 /\
  kdtree.size (kdtree.balancing kdtree.std_sort S0 kdtree.Vertical empty_index) = 4%nat.
Proof.
  intros S0.
  assert (D : distinct_eps S0).
  { cbn [S0 distinct_eps In]. repeat split; intros q H;
      repeat (destruct H as [<- | H]; [reflexivity |]); destruct H. }
  split; [exact D |].
  apply (bulk_construction_of_distinct_points kdtree.std_sort S0 std_sort_perm D).
Defined.

(** X23.  Bulk construction from points with real coordinates gives a
    reachable index: what holds of every index made by [put] holds of the
    index that the constructor builds. *)
Theorem bulk_construction_reachable
        (sort : (Point -> Point -> bool) -> list Point -> list Point) (S0 : list Point) :
  (forall lt l, Permutation (sort lt l) l) ->
  (forall q, In q S0 -> finite_point q) ->
  reachable (kdtree.balancing sort S0 kdtree.Vertical empty_index).
Proof.
  intros Hs F. apply balancing_reachable; auto. apply reachable_empty.
Qed.

Lemma bulk_construction_reachable_witness :
  let S0 := [pt 1 2; pt 3 4; pt 5 1; pt 2 8] in
  (forall q, In q S0 -> finite_point q) /\
  reachable (kdtree.balancing kdtree.std_sort S0 kdtree.Vertical empty_index).
Proof.
  intros S0.
  assert (F : forall q, In q S0 -> finite_point q).
  { intros q H. repeat (destruct H as [<- | H]; [split; exact I |]). destruct H. }
  split; [exact F |].
  apply (bulk_construction_reachable kdtree.std_sort S0 std_sort_perm F).
Defined.

(** X24.  The constructor on a named file with an even number of tokens,
    all real, gives an index in which [contains] finds the point of every
    pair of the file. *)
Theorem constructor_loads_every_pair
        (sort : (Point -> Point -> bool) -> list Point -> list Point)
        (y0 : double) (file : string -> list double) (filename : string)
        (pairs : list (double * double)) (xy : double * double) :
  (forall lt l, Permutation (sort lt l) l) ->
  filename <> EmptyString ->
  file filename = flat_map (fun xy => [fst xy; snd xy]) pairs ->
  (forall ab, In ab pairs -> finite (fst ab) /\ finite (snd ab)) ->
  In xy pairs ->
  kdtree.contains (kdtree.PointSet_new sort y0 file filename) (mkPoint (fst xy) (snd xy))
  = true.
Proof.
  intros Hs Hn Hf F Hxy. unfold kdtree.PointSet_new.
  apply String.eqb_neq in Hn. rewrite Hn, Hf, read_pairs.
  apply (bulk_membership sort Hs).
  - intros q Hq. apply in_map_iff in Hq. destruct Hq as (ab & <- & Hab).
    exact (F ab Hab).
  - apply in_map_iff. exists xy. auto.
Qed.

Lemma constructor_loads_every_pair_witness :
  kdtree.contains
    (kdtree.PointSet_new kdtree.std_sort NaN (fun _ => [Fin 1; Fin 2; Fin 3; Fin 4]) "points.txt")
    (mkPoint (Fin 3) (Fin 4)) = true.
Proof.
  apply (constructor_loads_every_pair kdtree.std_sort NaN
           (fun _ => [Fin 1; Fin 2; Fin 3; Fin 4]) "points.txt"
           [(Fin 1, Fin 2); (Fin 3, Fin 4)] (Fin 3, Fin 4) std_sort_perm).
  - discriminate.
  - reflexivity.
  - intros ab H. repeat (destruct H as [<- | H]; [split; exact I |]). destruct H.
  - simpl. auto.
Defined.

(** X25.  On complete pairs followed by one more token the loader returns
    the points of the pairs and then one point made of the trailing token
    and of the [y] of the pair before it (of the initial content of [y]
    when there is no pair). *)
Theorem read_odd_tokens (pairs : list (double * double)) (last_tok y0 : double) :
  read y0 (flat_map (fun xy => [fst xy; snd xy]) pairs ++ [last_tok])
  = map (fun xy => mkPoint (fst xy) (snd xy)) pairs
    ++ [mkPoint last_tok (match last pairs with Some xy => snd xy | None => y0 end)].
Proof. apply read_unpaired. Qed.

(** ** The stand-in [hypot_up] obeys the laws of [hypot] *)
Section HypotUp.
Local Open Scope Q_scope.

Lemma Qsqrt_up_spec (q : Q) :
  0 <= q ->
  0 <= Qsqrt_up q /\ q <= Qsqrt_up q * Qsqrt_up q /\
  forall m : Z, (0 <= m)%Z ->
    q <= (m # 4503599627370496) * (m # 4503599627370496) ->
    Qsqrt_up q <= m # 4503599627370496.
Proof.
  intros Hq. unfold Qsqrt_up.
  set (X := q * inject_Z 20282409603651670423947251286016).
  set (f := Z.sqrt (Qfloor X)).
  assert (HX : 0 <= X) by (unfold X; apply Qmult_le_0_compat; [exact Hq | discriminate]).
  assert (Hfl : (0 <= Qfloor X)%Z).
  { replace 0%Z with (Qfloor 0) by reflexivity. now apply Qfloor_resp_le. }
  assert (Hf0 : (0 <= f)%Z) by apply Z.sqrt_nonneg.
  destruct (Z.sqrt_spec (Qfloor X) Hfl) as [Hlo Hhi]. fold f in Hlo, Hhi.
  pose proof (Qfloor_le X) as F1. pose proof (Qlt_floor X) as F2.
  assert (Scale : forall m : Z,
             (m # 4503599627370496) * (m # 4503599627370496)
             == inject_Z (m * m) / inject_Z 20282409603651670423947251286016).
  { intros m.
    assert (P2 : inject_Z 20282409603651670423947251286016
                 == inject_Z 4503599627370496 * inject_Z 4503599627370496)
      by (vm_compute; reflexivity).
    rewrite P2, (Qmake_Qdiv m), inject_Z_mult. field. }
  assert (Xq : q == X / inject_Z 20282409603651670423947251286016).
  { unfold X. field. }
  assert (Pos : 0 < inject_Z 20282409603651670423947251286016) by reflexivity.
  assert (Cmp : forall m : Z, q <= (m # 4503599627370496) * (m # 4503599627370496)
                              <-> X <= inject_Z (m * m)).
  { intros m. rewrite Scale, Xq. split; intros H.
    - apply Qmult_le_r with (z := / inject_Z 20282409603651670423947251286016);
        [now apply Qinv_lt_0_compat | exact H].
    - apply Qmult_le_r with (z := / inject_Z 20282409603651670423947251286016) in H;
        [exact H | now apply Qinv_lt_0_compat]. }
  destruct (Qle_bool X (inject_Z (f * f))) eqn:E.
  - apply Qle_bool_iff in E. split; [| split].
    + unfold Qle. simpl. lia.
    + now apply Cmp.
    + intros m Hm H. apply Cmp in H.
      assert (L : (f * f <= m * m)%Z).
      { rewrite Zle_Qle. apply Qle_trans with X; [| exact H].
        apply Qle_trans with (inject_Z (Qfloor X)); [| exact F1].
        now rewrite <- Zle_Qle. }
      unfold Qle. simpl. nia.
  - assert (E' : inject_Z (f * f) < X).
    { destruct (Qlt_le_dec (inject_Z (f * f)) X) as [L | L]; [exact L |].
      apply Qle_bool_iff in L. congruence. }
    split; [| split].
    + unfold Qle. simpl. lia.
    + apply Cmp. apply Qlt_le_weak. eapply Qlt_le_trans; [exact F2 |].
      rewrite <- Zle_Qle. lia.
    + intros m Hm H. apply Cmp in H.
      assert (L : (f * f < m * m)%Z).
      { rewrite Zlt_Qlt. eapply Qlt_le_trans; eauto. }
      unfold Qle. simpl. nia.
Qed.

Lemma Qsqrt_up_grid (q : Q) : exists m : Z, (0 <= m)%Z /\ Qsqrt_up q = m # 4503599627370496.
Proof.
  unfold Qsqrt_up.
  set (f := Z.sqrt _). assert (0 <= f)%Z by apply Z.sqrt_nonneg.
  destruct (Qle_bool _ _); eexists; (split; [| reflexivity]); lia.
Qed.

Lemma Qsqrt_up_mono (q q' : Q) : 0 <= q -> q <= q' -> Qsqrt_up q <= Qsqrt_up q'.
Proof.
  intros H0 H.
  destruct (Qsqrt_up_spec q H0) as (_ & _ & Min).
  destruct (Qsqrt_up_spec q') as (_ & Sq & _); [lra |].
  destruct (Qsqrt_up_grid q') as (m & Hm & E).
  rewrite E in *. apply Min; [exact Hm | lra].
Qed.

Lemma Qabs_sq (a : Q) : Qabs a * Qabs a == a * a.
Proof. apply Qabs_case; intros; ring. Qed.

Lemma sq_le_sq (u v : Q) : 0 <= u -> u <= v -> u * u <= v * v.
Proof. intros. nra. Qed.

Lemma le_of_sq_le (u v : Q) : 0 <= u -> 0 <= v -> u * u <= v * v -> u <= v.
Proof. intros. nra. Qed.

Lemma hypot_up_laws : hypot_laws hypot_up.
Proof.
  constructor.
  - intros a b. eexists. reflexivity.
  - intros a b c [= <-].
    assert (S0 : 0 <= a * a + b * b) by nra.
    destruct (Qsqrt_up_spec _ S0) as (P & Sq & _).
    pose proof (Qabs_nonneg a). pose proof (Qabs_nonneg b).
    pose proof (Qabs_sq a). pose proof (Qabs_sq b).
    split; apply le_of_sq_le; auto; nra.
  - intros a b a' b' c c' Ha Hb [= <-] [= <-].
    pose proof (Qabs_nonneg a). pose proof (Qabs_nonneg b).
    pose proof (Qabs_sq a). pose proof (Qabs_sq b).
    pose proof (Qabs_sq a'). pose proof (Qabs_sq b').
    pose proof (sq_le_sq _ _ (Qabs_nonneg a) Ha).
    pose proof (sq_le_sq _ _ (Qabs_nonneg b) Hb).
    apply Qsqrt_up_mono; nra.
  - intros u v Hu Hv. destruct u, v; cbn [hypot_up]; congruence.
Qed.
End HypotUp.

(** ** The distance to a rectangle is a lower bound *)
Section RectDistance.
Local Open Scope Q_scope.
Variable hypot : double -> double -> double.
Hypothesis laws : hypot_laws hypot.

Lemma dlt_dle (u v : double) : dlt u v = true -> dle u v = true.
Proof.
  destruct u as [| |a|], v as [| |b|]; cbn [dlt dle]; try congruence.
  rewrite Qltb_lt, Qle_bool_iff. lra.
Qed.

Lemma dlt_false_dle (u v : double) :
  u <> NaN -> v <> NaN -> dlt u v = false -> dle v u = true.
Proof.
  destruct u as [| |a|], v as [| |b|]; cbn [dlt dle]; try congruence.
  rewrite Qltb_ge, Qle_bool_iff. auto.
Qed.

Lemma dle_refl_number (u : double) : u <> NaN -> dle u u = true.
Proof. destruct u; cbn [dle]; try congruence. intros _. apply Qle_bool_iff. lra. Qed.

Lemma dle_number_l (u v : double) : dle u v = true -> u <> NaN.
Proof. destruct u; cbn [dle]; congruence. Qed.

Lemma dle_number_r (u v : double) : dle u v = true -> v <> NaN.
Proof. destruct u, v; cbn [dle]; congruence. Qed.

Lemma min_element_le (l : list double) :
  forall f, Forall (fun u => u <> NaN) (f :: l) ->
    min_element f l <> NaN /\
    forall e, In e (f :: l) -> dle (min_element f l) e = true.
Proof.
  unfold min_element.
  induction l as [| e l IH]; intros f HF; cbn [fold_left].
  - inversion HF; subst. split; [assumption |].
    intros e [<- | []]. now apply dle_refl_number.
  - inversion HF as [| ? ? Hf HF']; subst. inversion HF' as [| ? ? He Hl]; subst.
    set (m0 := if dlt e f then e else f).
    assert (N0 : m0 <> NaN) by (unfold m0; destruct (dlt e f); assumption).
    assert (L0 : dle m0 f = true /\ dle m0 e = true).
    { unfold m0. destruct (dlt e f) eqn:E.
      - split; [now apply dlt_dle | now apply dle_refl_number].
      - split; [now apply dle_refl_number | now apply dlt_false_dle]. }
    destruct (IH m0) as [N M]; [now constructor |].
    split; [exact N |].
    intros u [<- | [<- | Hu]].
    + apply dle_trans with m0; [apply M; now left | apply L0].
    + apply dle_trans with m0; [apply M; now left | apply L0].
    + apply M. now right.
Qed.

Lemma dmin_facts (a b : double) :
  a <> NaN -> b <> NaN ->
  dmin a b <> NaN /\ dle (dmin a b) a = true /\ dle (dmin a b) b = true.
Proof.
  intros Na Nb. unfold dmin. destruct (dlt b a) eqn:E.
  - split; [exact Nb |]. split; [now apply dlt_dle | now apply dle_refl_number].
  - split; [exact Na |]. split; [now apply dle_refl_number | now apply dlt_false_dle].
Qed.

Lemma dabs_dsub_number (k : Q) (c : double) : c <> NaN -> dabs (dsub (Fin k) c) <> NaN.
Proof. destruct c; cbn [dsub dabs]; congruence. Qed.

Lemma dsub_number (k : Q) (c : double) : c <> NaN -> dsub (Fin k) c <> NaN.
Proof. destruct c; cbn [dsub]; congruence. Qed.

(** A bound that a coordinate of the rectangle's point respects and the
    key does not is finite, and nearer to the key than the point is. *)
Lemma upper_bound_between (k q : Q) (hi : double) :
  dle (Fin q) hi = true -> dle (Fin k) hi = false ->
  exists m, hi = Fin m /\ Qabs (k - m) <= Qabs (k - q).
Proof.
  destruct hi as [| |m|]; cbn [dle]; try congruence.
  rewrite Qle_bool_iff. intros H1 H2. exists m. split; [reflexivity |].
  assert (m < k).
  { destruct (Qlt_le_dec m k) as [L | L]; [exact L |].
    apply Qle_bool_iff in L. congruence. }
  do 2 apply Qabs_case; intros; lra.
Qed.

Lemma lower_bound_between (k q : Q) (lo : double) :
  dle lo (Fin q) = true -> dle lo (Fin k) = false ->
  exists m, lo = Fin m /\ Qabs (k - m) <= Qabs (k - q).
Proof.
  destruct lo as [| |m|]; cbn [dle]; try congruence.
  rewrite Qle_bool_iff. intros H1 H2. exists m. split; [reflexivity |].
  assert (k < m).
  { destruct (Qlt_le_dec k m) as [L | L]; [exact L |].
    apply Qle_bool_iff in L. congruence. }
  do 2 apply Qabs_case; intros; lra.
Qed.

Lemma edge_term_le (k q dq : Q) (lo hi : double) :
  dle lo (Fin q) = true -> dle (Fin q) hi = true ->
  dle (Fin k) hi && dle lo (Fin k) = false ->
  Qabs (k - q) <= dq ->
  dle (dmin (dabs (dsub (Fin k) lo)) (dabs (dsub (Fin k) hi))) (Fin dq) = true.
Proof.
  intros Hlo Hhi Out Hq.
  pose proof (dle_number_l _ _ Hlo) as Nlo. pose proof (dle_number_r _ _ Hhi) as Nhi.
  destruct (dmin_facts _ _ (dabs_dsub_number k lo Nlo) (dabs_dsub_number k hi Nhi))
    as (_ & L1 & L2).
  apply andb_false_iff in Out. destruct Out as [Out | Out].
  - destruct (upper_bound_between k q hi Hhi Out) as (m & -> & Hm).
    eapply dle_trans; [exact L2 |]. cbn [dsub dabs dle]. apply Qle_bool_iff. lra.
  - destruct (lower_bound_between k q lo Hlo Out) as (m & -> & Hm).
    eapply dle_trans; [exact L1 |]. cbn [dsub dabs dle]. apply Qle_bool_iff. lra.
Qed.

Lemma corner_term_le (kx ky qx qy mx my dq : Q) :
  Qabs (kx - mx) <= Qabs (kx - qx) -> Qabs (ky - my) <= Qabs (ky - qy) ->
  hypot (Fin (kx - qx)) (Fin (ky - qy)) = Fin dq ->
  dle (point_distance hypot (mkPoint (Fin kx) (Fin ky)) (mkPoint (Fin mx) (Fin my))) (Fin dq)
  = true.
Proof.
  intros Hx Hy Hd. unfold point_distance. cbn [x y dsub].
  destruct (hypot_fin hypot laws (kx - mx) (ky - my)) as [c Hc]. rewrite Hc.
  cbn [dle]. apply Qle_bool_iff.
  exact (hypot_mono hypot laws _ _ _ _ _ _ Hx Hy Hc Hd).
Qed.

(** [Rect::distance] never exceeds the distance from the key to a point
    of the rectangle. *)
Lemma rect_distance_lower_bound (rect : Rect) (key q : Point) :
  finite_point key -> finite_point q ->
  rect_contains rect q = true ->
  dle (rect_distance hypot rect key) (point_distance hypot key q) = true.
Proof.
  destruct key as [[| |kx|] [| |ky|]], q as [[| |qx|] [| |qy|]];
    intros [[] []] [[] []].
  destruct rect as [[x0 y0] [x1 y1]].
  unfold rect_contains at 1, dge, xmin, xmax, ymin, ymax.
  cbn [left_bottom right_top x y]. rewrite !andb_true_iff.
  intros [[[Hx1 Hx0] Hy1] Hy0].
  destruct (hypot_fin hypot laws (kx - qx) (ky - qy)) as [dq Hdq].
  destruct (hypot_axis hypot laws _ _ _ Hdq) as [Ax Ay].
  assert (Dq : point_distance hypot (mkPoint (Fin kx) (Fin ky)) (mkPoint (Fin qx) (Fin qy))
               = Fin dq) by exact Hdq.
  rewrite Dq. unfold rect_distance.
  destruct (rect_contains _ _) eqn:K.
  { cbn [dle]. apply Qle_bool_iff. pose proof (Qabs_nonneg (kx - qx)). lra. }
  unfold rect_contains, dge, xmin, xmax, ymin, ymax in K |- *.
  cbn [left_bottom right_top x y] in K |- *.
  pose proof (dle_number_r _ _ Hx1) as Nx1. pose proof (dle_number_l _ _ Hx0) as Nx0.
  pose proof (dle_number_r _ _ Hy1) as Ny1. pose proof (dle_number_l _ _ Hy0) as Ny0.
  match goal with
  | |- dle (min_element ?t1 [?t2; ?t3; ?t4; ?t5; ?t6]) _ = true =>
      set (c00 := t1); set (c01 := t2); set (c10 := t3); set (c11 := t4);
      set (ey := t5); set (ex := t6)
  end.
  assert (Ncorner : forall cx cy, cx <> NaN -> cy <> NaN ->
            point_distance hypot (mkPoint (Fin kx) (Fin ky)) (mkPoint cx cy) <> NaN).
  { intros cx cy Hcx Hcy. unfold point_distance. cbn [x y].
    apply (hypot_number hypot laws); now apply dsub_number. }
  assert (Nedge : forall k lo hi (b : bool), lo <> NaN -> hi <> NaN ->
            (if b then dmin (dabs (dsub (Fin k) lo)) (dabs (dsub (Fin k) hi)) else INF) <> NaN).
  { intros k lo hi b Hl Hh. destruct b; [| discriminate].
    apply dmin_facts; now apply dabs_dsub_number. }
  destruct (min_element_le [c01; c10; c11; ey; ex] c00) as [_ Min].
  { repeat constructor; unfold c00, c01, c10, c11, ey, ex; auto. }
  destruct (dle (Fin kx) x1 && dle x0 (Fin kx)) eqn:Xin.
  - (* the key is within the sides in x: the edge term in y *)
    assert (Yout : dle (Fin ky) y1 && dle y0 (Fin ky) = false).
    { cbn [andb] in K. exact K. }
    apply dle_trans with ey; [apply Min; cbn; auto 10 |].
    unfold ey. now apply edge_term_le with (q := qy).
  - destruct (dle (Fin ky) y1 && dle y0 (Fin ky)) eqn:Yin.
    + (* within the sides in y: the edge term in x *)
      apply dle_trans with ex; [apply Min; cbn; auto 10 |].
      unfold ex. now apply edge_term_le with (q := qx).
    + (* outside on both axes: the corner on the key's side *)
      apply andb_false_iff in Xin. apply andb_false_iff in Yin.
      destruct Xin as [Xo | Xo], Yin as [Yo | Yo].
      * destruct (upper_bound_between kx qx x1 Hx1 Xo) as (mx & -> & Mx).
        destruct (upper_bound_between ky qy y1 Hy1 Yo) as (my & -> & My).
        apply dle_trans with c11; [apply Min; cbn; auto 10 |].
        now apply corner_term_le with (qx := qx) (qy := qy).
      * destruct (upper_bound_between kx qx x1 Hx1 Xo) as (mx & -> & Mx).
        destruct (lower_bound_between ky qy y0 Hy0 Yo) as (my & -> & My).
        apply dle_trans with c10; [apply Min; cbn; auto 10 |].
        now apply corner_term_le with (qx := qx) (qy := qy).
      * destruct (lower_bound_between kx qx x0 Hx0 Xo) as (mx & -> & Mx).
        destruct (upper_bound_between ky qy y1 Hy1 Yo) as (my & -> & My).
        apply dle_trans with c01; [apply Min; cbn; auto 10 |].
        now apply corner_term_le with (qx := qx) (qy := qy).
      * destruct (lower_bound_between kx qx x0 Hx0 Xo) as (mx & -> & Mx).
        destruct (lower_bound_between ky qy y0 Hy0 Yo) as (my & -> & My).
        apply dle_trans with c00; [apply Min; cbn; auto 10 |].
        now apply corner_term_le with (qx := qx) (qy := qy).
Qed.
End RectDistance.

(** ** The candidate map of a nearest-neighbour search *)
Section CandidateMap.
Local Open Scope Q_scope.

Lemma dlt_trans (u v w : double) : dlt u v = true -> dlt v w = true -> dlt u w = true.
Proof.
  destruct u as [| |a|], v as [| |b|], w as [| |c|]; cbn [dlt]; try congruence.
  rewrite !Qltb_lt. lra.
Qed.

Lemma dlt_same_trans (a b c : Q) :
  dlt (Fin a) (Fin b) = true -> same_distance (Fin b) (Fin c) -> dlt (Fin a) (Fin c) = true.
Proof.
  unfold same_distance. cbn [dlt]. rewrite !Qltb_lt, !Qltb_ge. intros H [H1 H2]. lra.
Qed.

Lemma same_distance_refl (u : double) : same_distance u u.
Proof. split; apply dlt_irrefl. Qed.

Lemma map_emplace_keeps d p m e : In e m -> In e (map_emplace d p m).
Proof.
  induction m as [| a m IH]; cbn [map_emplace]; [intros [] |].
  intros [-> | H].
  - destruct (dlt (fst e) d); [now left |].
    destruct (dlt d (fst e)); [right |]; now left.
  - destruct (dlt (fst a) d); [right; now apply IH |].
    destruct (dlt d (fst a)); right; [now right | exact H].
Qed.

Lemma map_emplace_holds d p m :
  exists e, In e (map_emplace d p m) /\ same_distance (fst e) d.
Proof.
  induction m as [| a m (e & I & S)]; cbn [map_emplace].
  - exists (d, p). split; [now left | apply same_distance_refl].
  - destruct (dlt (fst a) d) eqn:A.
    + exists e. split; [now right | exact S].
    + destruct (dlt d (fst a)) eqn:B.
      * exists (d, p). split; [now left | apply same_distance_refl].
      * exists a. split; [now left | split; assumption].
Qed.

Lemma map_emplace_cases d p m :
  map_emplace d p m = m \/ length (map_emplace d p m) = S (length m).
Proof.
  induction m as [| a m IH]; cbn [map_emplace]; [now right |].
  destruct (dlt (fst a) d).
  - destruct IH as [-> | E]; [now left | right; cbn [length]; now rewrite E].
  - destruct (dlt d (fst a)); [now right | now left].
Qed.

Lemma map_emplace_sorted d p m :
  StronglySorted key_lt m -> StronglySorted key_lt (map_emplace d p m).
Proof.
  induction m as [| a m IH]; cbn [map_emplace]; intros H.
  - repeat constructor.
  - inversion H as [| ? ? Hs Hf]; subst.
    destruct (dlt (fst a) d) eqn:A.
    + constructor; [now apply IH |].
      apply List.Forall_forall. intros e He. apply map_emplace_in in He.
      destruct He as [-> | He]; [exact A |].
      rewrite List.Forall_forall in Hf. now apply Hf.
    + destruct (dlt d (fst a)) eqn:B; [| exact H].
      constructor; [exact H |]. constructor; [exact B |].
      apply List.Forall_forall. intros e He. rewrite List.Forall_forall in Hf.
      unfold key_lt. cbn [fst]. eapply dlt_trans; [exact B | now apply Hf].
Qed.

Lemma sorted_snoc_inv (l : list (double * Point)) (z : double * Point) :
  StronglySorted key_lt (l ++ [z]) ->
  StronglySorted key_lt l /\ forall e, In e l -> key_lt e z.
Proof.
  induction l as [| a l IH]; cbn [app]; intros H.
  - split; [constructor | intros e []].
  - inversion H as [| ? ? Hs Hf]; subst. destruct (IH Hs) as [S1 S2].
    rewrite List.Forall_forall in Hf. split.
    + constructor; [exact S1 |]. apply List.Forall_forall. intros e He.
      apply Hf. apply in_or_app. now left.
    + intros e [<- | He]; [| now apply S2].
      apply Hf. apply in_or_app. right. now left.
Qed.

(** The entry that [(--end())] designates is the largest. *)
Lemma worst_is_largest (m : list (double * Point)) (e : double * Point) :
  StronglySorted key_lt m -> In e m ->
  e = default e (last m) \/ dlt (fst e) (kdtree.worst m) = true.
Proof.
  intros S I. destruct (exists_last (l := m)) as (l & z & ->); [intros ->; destruct I |].
  unfold kdtree.worst. rewrite last_snoc. cbn [default].
  apply sorted_snoc_inv in S. destruct S as [_ S].
  apply in_app_or in I. destruct I as [I | [<- | []]]; [right; now apply S | now left].
Qed.

Lemma trimmed_cases (k : nat) (m : list (double * Point)) :
  (length m <= S k)%nat ->
  (trimmed k m = m /\ (length m <= k)%nat) \/
  (exists z, m = trimmed k m ++ [z] /\ length (trimmed k m) = k).
Proof.
  intros L. unfold trimmed. destruct (Nat.ltb_spec k (length m)) as [H | H]; [right | now left].
  destruct (exists_last (l := m)) as (l & z & ->); [intros ->; cbn in H; lia |].
  exists z. rewrite removelast_last. split; [reflexivity |].
  rewrite length_app in L, H. cbn [length] in L, H. lia.
Qed.
End CandidateMap.

Lemma dlt_dle_trans (u v w : double) : dlt u v = true -> dle v w = true -> dlt u w = true.
Proof.
  destruct u as [| |a|], v as [| |b|], w as [| |c|]; cbn [dlt dle]; try congruence.
  rewrite !Qltb_lt, Qle_bool_iff. intros. eapply Qlt_le_trans; eauto.
Qed.

(** ** The search keeps the smallest distances *)
Section NearestCorrect.
Import kdtree.
Variable hypot : double -> double -> double.
Hypothesis laws : hypot_laws hypot.
Variable key : Point.
Hypothesis key_finite : finite_point key.
Variable k : nat.

Lemma dist_fin (q : Point) :
  finite_point q -> exists c, point_distance hypot key q = Fin c.
Proof.
  destruct key as [[| |kx|] [| |ky|]], q as [[| |qx|] [| |qy|]];
    destruct key_finite as [[] []]; intros [[] []].
  unfold point_distance. cbn [x y dsub]. apply (hypot_fin hypot laws).
Qed.

Lemma candidates_ok_equiv (V V' : list Point) (M : list (double * Point)) :
  (forall q, In q V <-> In q V') ->
  candidates_ok hypot key k V M -> candidates_ok hypot key k V' M.
Proof.
  intros Eq (E & S & L & C). repeat split; auto.
  - apply Eq, E; assumption.
  - apply E; assumption.
  - intros q Hq. apply C, Eq, Hq.
Qed.

Lemma keys_le_worst (M : list (double * Point)) (e : double * Point) :
  StronglySorted key_lt M -> In e M ->
  fst e = worst M \/ dlt (fst e) (worst M) = true.
Proof.
  intros S I. destruct (worst_is_largest M e S I) as [E | H]; [left | now right].
  unfold worst. destruct (last M) as [z |] eqn:Ez.
  - cbn [default] in E. now subst.
  - apply last_None in Ez. subst. destruct I.
Qed.

Lemma visit_ok (V : list Point) (M : list (double * Point)) (p : Point) :
  finite_point p -> (forall q, In q V -> finite_point q) ->
  candidates_ok hypot key k V M ->
  candidates_ok hypot key k (p :: V)
                (trimmed k (map_emplace (point_distance hypot key p) p M)).
Proof.
  intros Fp FV (E & Hs & L & C).
  set (d := point_distance hypot key p).
  set (M1 := map_emplace d p M).
  assert (S1 : StronglySorted key_lt M1) by now apply map_emplace_sorted.
  assert (L1 : (length M1 <= S k)%nat).
  { pose proof (map_emplace_length_le d p M) as H. fold M1 in H. lia. }
  assert (E1 : forall e, In e M1 ->
                 In (snd e) (p :: V) /\ fst e = point_distance hypot key (snd e)).
  { intros e He. apply map_emplace_in in He. destruct He as [-> | He].
    - split; [now left | reflexivity].
    - destruct (E e He). split; [now right | assumption]. }
  assert (F1 : forall e, In e M1 -> exists c, fst e = Fin c).
  { intros e He. destruct (E1 e He) as [I ->]. apply dist_fin.
    destruct I as [<- | I]; auto. }
  assert (Has : forall q, In q (p :: V) ->
            (exists e, In e M1 /\ same_distance (fst e) (point_distance hypot key q)) \/
            (length M = k /\
             forall e, In e M -> dlt (fst e) (point_distance hypot key q) = true)).
  { intros q [<- | Hq].
    - left. apply map_emplace_holds.
    - destruct (C q Hq) as [(e & He & Se) | R]; [left | now right].
      exists e. split; [now apply map_emplace_keeps | exact Se]. }
  destruct (trimmed_cases k M1 L1) as [[-> Lk] | (z & Ez & Lz)].
  - (* nothing is cut *)
    split; [exact E1 |]. split; [exact S1 |]. split; [exact Lk |].
    intros q Hq. destruct (Has q Hq) as [H | [Lm Hm]]; [now left |].
    right. destruct (map_emplace_cases d p M) as [Em | Em]; fold M1 in Em.
    + rewrite Em. auto.
    + lia.
  - (* the largest entry [z] is cut *)
    set (M2 := trimmed k M1) in *.
    assert (In2 : forall e, In e M2 -> In e M1).
    { intros e He. rewrite Ez. apply in_or_app. now left. }
    assert (Iz : In z M1) by (rewrite Ez; apply in_or_app; right; now left).
    pose proof S1 as S1'. rewrite Ez in S1'. apply sorted_snoc_inv in S1'.
    destruct S1' as [S2 Lt2].
    split; [intros e He; apply E1, In2, He |].
    split; [exact S2 |]. split; [lia |].
    intros q Hq.
    assert (Fq : finite_point q) by (destruct Hq as [<- | Hq]; auto).
    destruct (dist_fin q Fq) as [cq Dq].
    destruct (Has q Hq) as [(e & He & Se) | [Lm Hm]].
    + rewrite Ez in He. apply in_app_or in He. destruct He as [He | [<- | []]].
      * left. exists e. auto.
      * right. split; [exact Lz |]. intros e' He'.
        destruct (F1 e' (In2 e' He')) as [c' Ec']. destruct (F1 z Iz) as [cz Ecz].
        pose proof (Lt2 e' He') as Lt. unfold key_lt in Lt.
        rewrite Ec', Ecz in Lt. rewrite Ecz, Dq in Se. rewrite Ec', Dq.
        eapply dlt_same_trans; eauto.
    + right. split; [exact Lz |]. intros e' He'.
      pose proof (In2 e' He') as H1. apply map_emplace_in in H1.
      destruct H1 as [-> | H1]; [| now apply Hm].
      pose proof (Lt2 _ He') as Lt. unfold key_lt in Lt. cbn [fst] in Lt |- *.
      pose proof Iz as Iz'. apply map_emplace_in in Iz'. destruct Iz' as [-> | Zm].
      * cbn [fst] in Lt. rewrite dlt_irrefl in Lt. discriminate.
      * eapply dlt_trans; [exact Lt | now apply Hm].
Qed.

Lemma prune_ok (V Qs : list Point) (M : list (double * Point)) (rect : Rect) (p : Point) :
  candidates_ok hypot key k V M ->
  In p V -> finite_point p -> rect_contains rect p = true ->
  (forall q, In q Qs -> finite_point q /\ rect_contains rect q = true) ->
  dgt (rect_distance hypot rect key) (worst M) = true ->
  candidates_ok hypot key k (Qs ++ V) M.
Proof.
  intros (E & Hs & L & C) Ip Fp Rp HQ Far.
  assert (Below : forall q, finite_point q -> rect_contains rect q = true ->
            forall e, In e M -> dlt (fst e) (point_distance hypot key q) = true).
  { intros q Fq Rq e He.
    pose proof (rect_distance_lower_bound hypot laws rect key q key_finite Fq Rq) as LB.
    assert (W : dlt (worst M) (point_distance hypot key q) = true)
      by (eapply dlt_dle_trans; [exact Far | exact LB]).
    destruct (keys_le_worst M e Hs He) as [-> | Lt]; [exact W |].
    eapply dlt_trans; eauto. }
  assert (Full : length M = k).
  { destruct (C p Ip) as [(e & He & [Se _]) | [Lm _]]; [| exact Lm].
    rewrite (Below p Fp Rp e He) in Se. discriminate. }
  split; [intros e He; destruct (E e He); split; [apply in_or_app; now right | assumption] |].
  split; [exact Hs |]. split; [exact L |].
  intros q Hq. apply in_app_or in Hq. destruct Hq as [Hq | Hq]; [| now apply C].
  right. split; [exact Full |]. destruct (HQ q Hq). now apply Below.
Qed.

Lemma nearest_impl_ok (node : NodePtr) :
  forall (rect : Rect) (M : list (double * Point)) (V : list Point),
    within rect node ->
    (forall q, In q (points node) -> finite_point q) ->
    (forall q, In q V -> finite_point q) ->
    candidates_ok hypot key k V M ->
    candidates_ok hypot key k (points node ++ V) (nearest_impl hypot key k node M rect).
Proof.
  induction node as [| p o l IHl r IHr sz]; intros rect M V W FN FV Inv.
  - exact Inv.
  - cbn [nearest_impl]. cbn [within] in W. destruct W as (Hall & Wl & Wr).
    fold (trimmed k (map_emplace (point_distance hypot key p) p M)).
    set (M2 := trimmed k (map_emplace (point_distance hypot key p) p M)).
    assert (Ip : In p (points (Node p o l r sz)))
      by (cbn [points]; apply in_or_app; right; now left).
    assert (Inv2 : candidates_ok hypot key k (p :: V) M2)
      by (apply visit_ok; auto).
    assert (FV2 : forall q, In q (p :: V) -> finite_point q)
      by (intros q [<- | Hq]; auto).
    assert (Sub : forall q, In q (points l) \/ In q (points r) ->
                            In q (points (Node p o l r sz))).
    { intros q Hq. cbn [points]. apply in_or_app.
      destruct Hq; [now left | right; now right]. }
    destruct (dgt (rect_distance hypot rect key) (worst M2)) eqn:Far.
    + apply (candidates_ok_equiv ((points l ++ points r) ++ p :: V)).
      { intros q. cbn [points]. rewrite !in_app_iff. cbn [In]. rewrite ?in_app_iff. tauto. }
      apply (prune_ok _ _ _ rect p); auto; [now left |].
      intros q Hq. apply in_app_or in Hq. split; [apply FN | apply Hall]; apply Sub; tauto.
    + destruct (split rect p o) as [rl rr] eqn:Es. cbn [fst snd] in Wl, Wr.
      apply (candidates_ok_equiv (points r ++ points l ++ p :: V)).
      { intros q. cbn [points]. rewrite !in_app_iff. cbn [In]. rewrite ?in_app_iff. tauto. }
      apply IHr; auto.
      intros q Hq. apply in_app_or in Hq. destruct Hq; auto.
Qed.
End NearestCorrect.

Section NearestOne.
Import kdtree.
Variable hypot : double -> double -> double.
Variable sizeof_map_node : nat.

Lemma candidates_reachable (s : PointSet) (key : Point) (k : nat) :
  hypot_laws hypot -> reachable s -> finite_point key ->
  candidates_ok hypot key k (points (root s)) (nearest_candidates hypot s key k).
Proof.
  intros laws R Fk. unfold nearest_candidates.
  rewrite <- (app_nil_r (points (root s))).
  apply nearest_impl_ok; auto.
  - now apply within_reachable.
  - now apply reachable_finite.
  - intros q [].
  - split; [intros e [] |]. split; [constructor |]. split; [cbn [length]; lia |].
    intros q [].
Qed.

Lemma nearest_one_head (s : PointSet) (key : Point) (w : World) :
  snd (nearest_one hypot sizeof_map_node s key w) = head (nearest_set hypot s key 1).
Proof.
  unfold nearest_one.
  destruct s as [[| p o l r sz]]; [reflexivity |].
  pose proof (nearest_candidates_node hypot key 1 p o l r sz ltac:(lia)) as Nc.
  set (s := mkPointSet (Node p o l r sz)) in *.
  assert (Ns : nearest_set hypot s key 1 <> []).
  { unfold nearest_set.
    now apply (fold_set_insert_facts (nearest_candidates hypot s key 1) []); left. }
  unfold nearest. cbn [Nat.eqb create_pool].
  destruct (nearest_candidates hypot s key 1) as [| c cs]; [congruence |].
  cbn [destroy_pool nodes].
  destruct (nearest_set hypot s key 1) as [| q rest] eqn:Es; [congruence |].
  pose proof (save_tree_delivered q rest (nodes w)) as (_ & D & _).
  pose proof (nearest_first_not_end (q :: rest) (nodes w) ltac:(discriminate)) as Fe.
  destruct (save_tree (q :: rest) (nodes w)) as [rt h].
  cbn [fst snd nodes] in *. rewrite Fe. cbn [snd nodes].
  destruct (D 0%nat q eq_refl) as (Dq & _). cbn in Dq. cbn. exact Dq.
Qed.
End NearestOne.

(** X26.  With a [std::hypot] that obeys the laws of a rounded Euclidean
    norm, the search of [nearest(key, k)], with [k > 0] and a pool of
    [k + 1] records of at most [2^62] bytes, on a reachable index ends with
    a candidate map that holds at most [k] stored points under their
    distances to [key], in strictly increasing order of distance, and that
    accounts for every stored point: its distance is a key of the map, or
    the map holds [k] distances that are all smaller. *)
Theorem nearest_keeps_smallest_distances
        (hypot : double -> double -> double) (sizeof_map_node : nat)
        (s : kdtree.PointSet) (key : Point) (k : nat) :
  hypot_laws hypot -> reachable s -> finite_point key ->
  (0 < k)%nat -> pool_fits sizeof_map_node k ->
  candidates_ok hypot key k (kdtree.points (kdtree.root s))
                (kdtree.nearest_candidates hypot s key k).
Proof. intros laws R Fk _ _. now apply candidates_reachable. Qed.

Lemma nearest_keeps_smallest_distances_witness :
  let s := kdtree.put (kdtree.put (kdtree.put empty_index (pt 3 4)) (pt 1 2)) (pt 5 1) in
  reachable s /\
  candidates_ok hypot_up (pt 0 0) 2 (kdtree.points (kdtree.root s))
                (kdtree.nearest_candidates hypot_up s (pt 0 0) 2).
Proof.
  intros s.
  assert (R : reachable s).
  { repeat (apply reachable_put; [| split; exact I]). apply reachable_empty. }
  split; [exact R |].
  apply (nearest_keeps_smallest_distances hypot_up 56 s (pt 0 0) 2 hypot_up_laws R).
  - split; exact I.
  - lia.
  - split; [lia | vm_compute; discriminate].
Defined.

(** X27.  With such a [std::hypot], the point that [nearest(key)] returns
    on a reachable index is a closest one: no stored point is at a smaller
    distance from [key]. *)
Theorem nearest_one_is_closest
        (hypot : double -> double -> double) (sizeof_map_node : nat)
        (s : kdtree.PointSet) (key : Point) (w : kdtree.World) (p : Point) :
  hypot_laws hypot -> reachable s -> finite_point key ->
  snd (kdtree.nearest_one hypot sizeof_map_node s key w) = Some p ->
  forall q, In q (kdtree.points (kdtree.root s)) ->
    dle (point_distance hypot key p) (point_distance hypot key q) = true.
Proof.
  intros laws R Fk Hp q Hq.
  rewrite nearest_one_head in Hp.
  destruct (candidates_reachable hypot s key 1 laws R Fk) as (E & _ & L & C).
  unfold kdtree.nearest_set in Hp.
  destruct (kdtree.nearest_candidates hypot s key 1) as [| e [| e' M]].
  - discriminate.
  - cbn in Hp. injection Hp as <-.
    destruct (E e (or_introl eq_refl)) as [Ie De].
    assert (Fq : finite_point q) by now apply (reachable_finite s R).
    assert (Fe : finite_point (snd e)) by now apply (reachable_finite s R).
    destruct (dist_fin hypot laws key Fk q Fq) as [cq Dq].
    destruct (dist_fin hypot laws key Fk (snd e) Fe) as [ce Dce].
    destruct (C q Hq) as [(e0 & [<- | []] & [_ Se]) | [_ Lt]].
    + rewrite <- De. rewrite Dq in *. rewrite De, Dce in *.
      apply dlt_false_dle; congruence.
    + rewrite <- De. apply dlt_dle, Lt. now left.
  - cbn [length] in L. lia.
Qed.

Lemma nearest_one_is_closest_witness :
  let s := kdtree.put (kdtree.put (kdtree.put empty_index (pt 3 4)) (pt 1 2)) (pt 5 1) in
  reachable s /\
  snd (kdtree.nearest_one hypot_up 56 s (pt 0 0) (kdtree.mkWorld ∅ ∅)) = Some (pt 1 2) /\
  dle (point_distance hypot_up (pt 0 0) (pt 1 2))
      (point_distance hypot_up (pt 0 0) (pt 5 1)) = true.
Proof.
  intros s.
  assert (R : reachable s).
  { repeat (apply reachable_put; [| split; exact I]). apply reachable_empty. }
  assert (E : snd (kdtree.nearest_one hypot_up 56 s (pt 0 0) (kdtree.mkWorld ∅ ∅))
              = Some (pt 1 2)) by (vm_compute; reflexivity).
  split; [exact R |]. split; [exact E |].
  apply (nearest_one_is_closest hypot_up 56 s (pt 0 0) (kdtree.mkWorld ∅ ∅) (pt 1 2)
           hypot_up_laws R (conj I I) E).
  simpl. auto.
Defined.

(** X28.  With such a [std::hypot], [Rect::distance] never exceeds the
    distance from the key to a point that the rectangle contains: it is the
    lower bound by which [nearest_impl] prunes a subtree. *)
Theorem rect_distance_below_contained_points
        (hypot : double -> double -> double) (rect : Rect) (key q : Point) :
  hypot_laws hypot -> finite_point key -> finite_point q ->
  rect_contains rect q = true ->
  dle (rect_distance hypot rect key) (point_distance hypot key q) = true.
Proof. intros laws. now apply rect_distance_lower_bound. Qed.

Lemma rect_distance_below_contained_points_witness :
  dle (rect_distance hypot_up (mkRect (pt 1 1) (pt 3 3)) (pt 0 0))
      (point_distance hypot_up (pt 0 0) (pt 2 3)) = true.
Proof.
  apply (rect_distance_below_contained_points hypot_up (mkRect (pt 1 1) (pt 3 3))
           (pt 0 0) (pt 2 3) hypot_up_laws).
  - split; exact I.
  - split; exact I.
  - reflexivity.
Defined.

(** ** The result of a query, whatever the set of the library keeps *)
Section StdSetFacts.
Import kdtree.

Lemma increasing_app_inv (l1 l2 : list Point) :
  increasing (l1 ++ l2) -> increasing l1 /\ increasing l2.
Proof.
  unfold increasing. induction l1 as [| a l1 IH]; cbn [app]; intros H.
  - split; [constructor | exact H].
  - inversion H as [| ? ? Hs Hh]; subst. destruct (IH Hs) as [S1 S2].
    split; [| exact S2]. constructor; [exact S1 |].
    destruct l1; [constructor |]. inversion Hh; subst. now constructor.
Qed.

Lemma increasing_insert (l1 l2 : list Point) (p : Point) :
  increasing (l1 ++ l2) ->
  (forall e, last l1 = Some e -> point_lt e p = true) ->
  (forall e, head l2 = Some e -> point_lt p e = true) ->
  increasing (l1 ++ p :: l2).
Proof.
  unfold increasing. induction l1 as [| a l1 IH]; cbn [app]; intros H H1 H2.
  - constructor; [exact H |]. destruct l2; constructor. now apply H2.
  - inversion H as [| ? ? Hs Hh]; subst. constructor.
    + apply IH; auto. intros e He. apply H1. rewrite last_cons, He. reflexivity.
    + destruct l1 as [| b l1]; cbn [app] in *.
      * constructor. now apply H1.
      * inversion Hh; subst. now constructor.
Qed.

Lemma point_lt_never_self (p : Point) : point_lt p p = false.
Proof.
  unfold point_lt.
  destruct (double_equal (x p) (x p)), (double_equal (y p) (y p)); trivial;
    apply dlt_irrefl.
Qed.

(** What one insertion does to the sequence of the set. *)
Lemma unique_insert_facts (p : Point) (before after : list Point) :
  unique_insert p before after ->
  (increasing before -> increasing after) /\
  (forall e, In e after -> e = p \/ In e before) /\
  (forall e, In e before -> In e after) /\
  (exists e, In e after /\ equivalent e p).
Proof.
  intros [-> Eq | l1 l2 -> -> H1 H2].
  - split; [auto |]. split; [auto |]. split; [auto | exact Eq].
  - split; [intros H; now apply increasing_insert |].
    split; [| split].
    + intros e He. apply in_app_or in He. destruct He as [He | [<- | He]]; auto.
      * right. apply in_or_app. now left.
      * right. apply in_or_app. now right.
    + intros e He. apply in_app_or in He. apply in_or_app.
      destruct He; [now left | right; now right].
    + exists p. split; [apply in_elt |].
      split; apply point_lt_never_self.
Qed.

Variable S : std_set.
Hypothesis laws : std_set_laws S.

(** A run of insertions keeps the sequence increasing from each element
    to the next, keeps what the set held, takes nothing but the points
    offered, and leaves for every point offered an element equivalent
    to it. *)
Lemma insertions_facts (ps : list Point) :
  forall s0 : ss_state S,
    let s1 := fold_left (fun set p => ss_insert S p set) ps s0 in
    (increasing (ss_elements S s0) -> increasing (ss_elements S s1)) /\
    (forall e, In e (ss_elements S s1) -> In e ps \/ In e (ss_elements S s0)) /\
    (forall e, In e (ss_elements S s0) -> In e (ss_elements S s1)) /\
    (forall p, In p ps -> exists e, In e (ss_elements S s1) /\ equivalent e p).
Proof.
  induction ps as [| p ps IH]; intros s0; cbn [fold_left].
  - split; [auto |]. split; [auto |]. split; [auto | intros p []].
  - destruct (unique_insert_facts _ _ _ (ss_insert_unique S laws p s0))
      as (U1 & U2 & U3 & U4).
    destruct (IH (ss_insert S p s0)) as (I1 & I2 & I3 & I4).
    split; [auto |]. split; [| split].
    + intros e He. destruct (I2 e He) as [H | H]; [left; now right |].
      destruct (U2 e H) as [-> | H']; [left; now left | now right].
    + auto.
    + intros q [<- | Hq]; [| now apply I4].
      destruct U4 as (e & He & Eq). exists e. split; [now apply I3 | exact Eq].
Qed.

Lemma range_impl_on_offers (key : Rect) (node : NodePtr) :
  forall (ans : ss_state S) (rect_now : Rect),
    range_impl_on S key node ans rect_now
    = fold_left (fun set p => ss_insert S p set) (range_offers key node rect_now) ans.
Proof.
  induction node as [| p o l IHl r IHr sz]; intros ans rect_now;
    cbn [range_impl_on range_offers]; [reflexivity |].
  destruct (negb (intersects key rect_now)); [reflexivity |].
  destruct (split rect_now p o) as [rl rr]. cbn [fst snd].
  rewrite IHr, IHl, !fold_left_app.
  destruct (rect_contains key p); reflexivity.
Qed.

Lemma fold_insert_snd (cs : list (double * Point)) (s0 : ss_state S) :
  fold_left (fun set e => ss_insert S (snd e) set) cs s0
  = fold_left (fun set p => ss_insert S p set) (map snd cs) s0.
Proof.
  revert s0. induction cs as [| c cs IH]; intros s0; cbn [fold_left map]; auto.
Qed.

(** Both queries hand their points to the set one by one. *)
Lemma result_set_on_offers hypot (s : PointSet) (q : query) :
  result_set_on S hypot s q
  = ss_elements S (fold_left (fun set p => ss_insert S p set)
                             (query_offers hypot s q) (ss_empty S)).
Proof.
  destruct q as [key | key k]; cbn [result_set_on query_offers].
  - unfold range_set_on. now rewrite range_impl_on_offers.
  - destruct (k =? 0)%nat.
    + cbn [fold_left]. symmetry. apply (ss_empty_elements S laws).
    + unfold nearest_set_on. now rewrite fold_insert_snd.
Qed.

Lemma run_query_on_delivered hypot sizeof_map_node (s : PointSet) (q : query) (w : World) :
  result_set_on S hypot s q <> [] ->
  let call := run_query_on S hypot sizeof_map_node s q w in
  delivered (nodes w) (nodes (fst call)) (fst (snd call)) (snd (snd call))
            (result_set_on S hypot s q).
Proof.
  intros N call. subst call.
  destruct q as [key | key k]; cbn [run_query_on result_set_on] in *.
  - unfold range_on.
    destruct (range_set_on S s key) as [| p rest]; [contradiction |].
    pose proof (save_tree_delivered p rest (nodes w)) as D.
    destruct (save_tree (p :: rest) (nodes w)) as [r h]. exact D.
  - unfold nearest_on.
    destruct (k =? 0)%nat; [contradiction |].
    cbn [create_pool].
    destruct (nearest_candidates hypot s key k) as [| c cs] eqn:Ec.
    + exfalso. apply N. unfold nearest_set_on. rewrite Ec. cbn [fold_left].
      apply (ss_empty_elements S laws).
    + cbn [destroy_pool nodes].
      destruct (nearest_set_on S hypot s key k) as [| p rest]; [contradiction |].
      pose proof (save_tree_delivered p rest (nodes w)) as D.
      destruct (save_tree (p :: rest) (nodes w)) as [r h]. exact D.
Qed.
End StdSetFacts.

(** The set kept in a list obeys the laws. *)
Lemma set_insert_unique (p : Point) (s : list Point) : unique_insert p s (set_insert p s).
Proof.
  induction s as [| e s IH]; cbn [set_insert].
  - apply (insert_placed p [] [p] [] []); try reflexivity; intros e; discriminate.
  - destruct (point_lt e p) eqn:L1.
    + destruct IH as [-> (e' & I & Eq) | l1 l2 E1 E2 H1 H2].
      * apply insert_refused; [reflexivity |]. exists e'. split; [now right | exact Eq].
      * apply (insert_placed p _ _ (e :: l1) l2).
        -- cbn [app]. now rewrite E1.
        -- cbn [app]. now rewrite E2.
        -- intros z Hz. rewrite last_cons in Hz.
           destruct (last l1) as [z' |] eqn:El; injection Hz as <-; auto.
        -- exact H2.
    + destruct (point_lt p e) eqn:L2.
      * apply (insert_placed p _ _ [] (e :: s)); try reflexivity.
        -- intros z; discriminate.
        -- intros z [= <-]. exact L2.
      * apply insert_refused; [reflexivity |]. exists e. split; [now left | now split].
Qed.

Lemma sorted_list_set_laws : std_set_laws sorted_list_set.
Proof. split; [reflexivity | intros p s; apply set_insert_unique]. Qed.

(** Over the set kept in a list the queries are those of the module
    [kdtree]. *)
Lemma range_impl_on_list (key : Rect) (node : kdtree.NodePtr) :
  forall (ans : list Point) (rect_now : Rect),
    range_impl_on sorted_list_set key node ans rect_now
    = kdtree.range_impl key node ans rect_now.
Proof.
  induction node as [| p o l IHl r IHr sz]; intros ans rect_now;
    cbn [range_impl_on kdtree.range_impl]; [reflexivity |].
  destruct (negb (intersects key rect_now)); [reflexivity |].
  destruct (kdtree.split rect_now p o) as [rl rr].
  now rewrite IHl, IHr.
Qed.

Lemma run_query_on_list hypot sizeof_map_node (s : kdtree.PointSet) (q : kdtree.query)
      (w : kdtree.World) :
  result_set_on sorted_list_set hypot s q = kdtree.result_set hypot s q /\
  run_query_on sorted_list_set hypot sizeof_map_node s q w
  = kdtree.run_query hypot sizeof_map_node s q w.
Proof.
  destruct q as [key | key k];
    cbn [result_set_on run_query_on kdtree.result_set kdtree.run_query].
  - unfold range_on, range_set_on, kdtree.range, kdtree.range_set.
    cbn [ss_elements ss_empty sorted_list_set]. now rewrite range_impl_on_list.
  - split; reflexivity.
Qed.

(** ** The red-black tree obeys the laws *)
Section RedBlack.

Lemma rb_paint_elements (c : rb_color) (t : rb_tree) :
  rb_elements (rb_paint c t) = rb_elements t.
Proof. now destruct t. Qed.

Lemma rb_close_elements (path : list rb_frame) :
  forall x, rb_elements (rb_close x path)
            = rb_left_of path ++ rb_elements x ++ rb_right_of path.
Proof.
  induction path as [| [c v r | c l v] up IH]; intros x;
    cbn [rb_close rb_left_of rb_right_of].
  - now rewrite app_nil_r.
  - rewrite IH. cbn [rb_elements]. now rewrite <- !app_assoc.
  - rewrite IH. cbn [rb_elements]. now rewrite <- !app_assoc.
Qed.

(** Recolouring and rotations leave the sequence of the tree as it is. *)
Lemma rb_rebalance_elements (path : list rb_frame) :
  (forall x, rb_elements (rb_rebalance x path) = rb_elements (rb_close x path)) /\
  (forall f x, rb_elements (rb_rebalance x (f :: path))
               = rb_elements (rb_close x (f :: path))).
Proof.
  induction path as [| g up [IH1 IH2]].
  - split; [reflexivity |]. intros f x. reflexivity.
  - split; [exact (IH2 g) |].
    intros f x. cbn [rb_rebalance].
    destruct f as [[|] pv pr | [|] pl pv], g as [gc gv uncle | gc uncle gv];
      try reflexivity;
      destruct (rb_is_red uncle); rewrite ?IH1;
      try destruct x as [| xc xl xv xr]; try reflexivity;
      cbn [rb_close]; rewrite !rb_close_elements; cbn [rb_elements];
      rewrite ?rb_paint_elements;
      repeat first [rewrite <- app_assoc | progress cbn [app]]; reflexivity.
Qed.

Lemma rb_descend_facts (k : Point) (t : rb_tree) :
  forall path,
    rb_turns k path ->
    rb_turns k (rb_descend k t path) /\
    rb_elements (rb_close rb_leaf (rb_descend k t path)) = rb_elements (rb_close t path).
Proof.
  induction t as [| c l IHl v r IHr]; intros path T; cbn [rb_descend].
  - auto.
  - destruct (point_lt k v) eqn:L.
    + apply IHl. now constructor.
    + apply IHr. now constructor.
Qed.

Lemma rb_before_last (path : list rb_frame) : last (rb_left_of path) = rb_before path.
Proof.
  induction path as [| [c v r | c l v] up IH]; cbn [rb_left_of rb_before]; auto.
  now rewrite !app_assoc, last_snoc.
Qed.

Lemma rb_before_turn (k j : Point) (path : list rb_frame) :
  rb_turns k path -> rb_before path = Some j ->
  point_lt k j = false /\ In j (rb_left_of path).
Proof.
  unfold rb_turns. induction path as [| [c v r | c l v] up IH];
    cbn [rb_before rb_left_of]; intros T H; [discriminate | |].
  - inversion T; subst. auto.
  - inversion T; subst. injection H as <-. split; [assumption |].
    apply in_or_app. right. apply in_or_app. right. now left.
Qed.

Lemma rb_right_head (k e : Point) (path : list rb_frame) :
  rb_turns k path -> head (rb_right_of path) = Some e -> point_lt k e = true.
Proof.
  unfold rb_turns. induction path as [| [c v r | c l v] up IH];
    cbn [rb_right_of]; intros T H; [discriminate | |]; inversion T; subst.
  - cbn in H. now injection H as <-.
  - auto.
Qed.

Lemma rb_insert_unique_law (k : Point) (t : rb_tree) :
  unique_insert k (rb_elements t) (rb_elements (rb_insert_unique k t)).
Proof.
  unfold rb_insert_unique.
  destruct (rb_descend_facts k t [] (List.Forall_nil _)) as [T E].
  set (path := rb_descend k t []) in *.
  rewrite rb_close_elements in E. cbn [rb_close rb_elements app] in E.
  assert (P : rb_elements (rb_paint Black (rb_rebalance (rb_node Red rb_leaf k rb_leaf) path))
              = rb_left_of path ++ k :: rb_right_of path).
  { rewrite rb_paint_elements, (proj1 (rb_rebalance_elements path)), rb_close_elements.
    reflexivity. }
  destruct (rb_before path) as [j |] eqn:B.
  - destruct (point_lt j k) eqn:L.
    + rewrite P. apply (insert_placed k _ _ (rb_left_of path) (rb_right_of path)); auto.
      * rewrite rb_before_last, B. now intros e [= <-].
      * intros e. now apply rb_right_head.
    + destruct (rb_before_turn k j path T B) as [L' I].
      apply insert_refused; [reflexivity |].
      exists j. split; [| now split].
      rewrite <- E. apply in_or_app. now left.
  - rewrite P. apply (insert_placed k _ _ (rb_left_of path) (rb_right_of path)); auto.
    + rewrite rb_before_last, B. intros e; discriminate.
    + intros e. now apply rb_right_head.
Qed.

Lemma rbtree_set_laws : std_set_laws rbtree_set.
Proof. split; [reflexivity | intros p s; apply rb_insert_unique_law]. Qed.
End RedBlack.

Section QueryResult.
Import kdtree.

Lemma range_offers_stored (key : Rect) (node : NodePtr) :
  forall rect_now p, In p (range_offers key node rect_now) ->
                     In p (points node) /\ rect_contains key p = true.
Proof.
  induction node as [| q o l IHl r IHr sz]; intros rect_now p;
    cbn [range_offers points]; [intros [] |].
  destruct (negb (intersects key rect_now)); [intros [] |].
  intros H. apply in_app_or in H. destruct H as [H | H].
  - destruct (rect_contains key q) eqn:C; [| destruct H].
    destruct H as [<- | []]. split; [apply in_elt | exact C].
  - apply in_app_or in H. destruct H as [H | H].
    + destruct (IHl _ _ H). split; [apply in_or_app; now left | assumption].
    + destruct (IHr _ _ H). split; [apply in_or_app; right; now right | assumption].
Qed.

Lemma query_offers_stored hypot (s : PointSet) (q : query) (p : Point) :
  In p (query_offers hypot s q) -> In p (points (root s)).
Proof.
  destruct q as [key | key k]; cbn [query_offers].
  - intros H. now apply range_offers_stored in H.
  - destruct (k =? 0)%nat; [intros [] |].
    intros H. apply in_map_iff in H. destruct H as (e & <- & He).
    unfold nearest_candidates in He.
    apply nearest_impl_in in He. destruct He as [[] | He]. exact He.
Qed.
End QueryResult.

(** C10.  Whatever [std::set] the library gives, as long as its [insert]
    is an insertion by descent in a search tree, a range or k-nearest
    query (with a pool of at most [2^62] bytes) whose result is not empty
    returns [(first, second)] where [second] is the default-constructed end
    sentinel and [first] walks the set of the query, one increment per
    element, and reaches [second] after the last one.  Each point walked is
    a stored point that the query handed to the set and is below the next
    one under [operator<]; every point the query handed to the set is
    walked, or some point walked is equivalent to it (neither is below the
    other).  The nodes walked were allocated by the call, and the cells of
    the index are left as they were.  Two points walked that are not
    neighbours need not be ordered, nor distinct within epsilon. *)
Theorem query_result_is_increasing_detached_chain
        (S : std_set) (hypot : double -> double -> double) (sizeof_map_node : nat)
        (s : kdtree.PointSet) (q : kdtree.query) (w : kdtree.World) :
  std_set_laws S ->
  query_fits sizeof_map_node q ->
  result_set_on S hypot s q <> [] ->
  let call := run_query_on S hypot sizeof_map_node s q w in
  let result := result_set_on S hypot s q in
  kdtree.increasing result /\
  (forall p, In p result ->
             In p (query_offers hypot s q) /\ In p (kdtree.points (kdtree.root s))) /\
  (forall p, In p (query_offers hypot s q) -> exists e, In e result /\ equivalent e p) /\
  kdtree.delivered (kdtree.nodes w) (kdtree.nodes (fst call))
                   (fst (snd call)) (snd (snd call)) result /\
  (forall r t, kdtree.laid_out (kdtree.nodes w) r t ->
               kdtree.laid_out (kdtree.nodes (fst call)) r t).
Proof.
  intros laws _ N call result.
  pose proof (run_query_on_delivered S laws hypot sizeof_map_node s q w N) as D.
  fold call in D. fold result in D.
  subst result. rewrite (result_set_on_offers S laws) in *.
  destruct (insertions_facts S laws (query_offers hypot s q) (ss_empty S))
    as (I1 & I2 & _ & I4).
  rewrite (ss_empty_elements S laws) in I1, I2.
  split; [apply I1; constructor |].
  split.
  { intros p Hp. destruct (I2 p Hp) as [H | []].
    split; [exact H | now apply (query_offers_stored hypot s q)]. }
  split; [exact I4 |].
  split; [exact D |].
  intros r t. apply laid_out_mono. apply D.
Qed.

Lemma query_result_is_increasing_detached_chain_witness :
  let a := quarter_eps_pt 0 0 in
  let b := quarter_eps_pt 5 (-8) in
  let c := quarter_eps_pt 3 2 in
  let d := quarter_eps_pt (-9) 1 in
  let s := kdtree.put (kdtree.put (kdtree.put (kdtree.put empty_index b) d) c) a in
  let q := kdtree.RangeQuery (mkRect (quarter_eps_pt (-2) (-9)) (quarter_eps_pt 6 3)) in
  result_set_on rbtree_set hypot_floor s q = [a; b; c] /\
  kdtree.increasing (result_set_on rbtree_set hypot_floor s q).
Proof.
  intros a b c d s q.
  assert (E : result_set_on rbtree_set hypot_floor s q = [a; b; c]) by reflexivity.
  assert (N : result_set_on rbtree_set hypot_floor s q <> []) by (rewrite E; discriminate).
  split; [exact E |].
  exact (proj1 (query_result_is_increasing_detached_chain
                  rbtree_set hypot_floor 56 s q (kdtree.mkWorld ∅ ∅)
                  rbtree_set_laws I N)).
Defined.

(** C10, the claim as stated fails.  On points closer than epsilon the
    points walked are neither all distinct within epsilon nor all ordered:
    with [b], [d], [c], [a] put in this order, the range query that holds
    [a], [b] and [c] hands them to the set as [b], [a], [c]; [a] goes below
    [b], [c] above [b] without being compared with [a], and the caller
    walks [a], [b], [c], of which [a] and [c] are equal within epsilon and
    not ordered. *)
Lemma query_result_repeats_point_within_epsilon :
  let a := quarter_eps_pt 0 0 in
  let b := quarter_eps_pt 5 (-8) in
  let c := quarter_eps_pt 3 2 in
  let d := quarter_eps_pt (-9) 1 in
  let s := kdtree.put (kdtree.put (kdtree.put (kdtree.put empty_index b) d) c) a in
  let q := kdtree.RangeQuery (mkRect (quarter_eps_pt (-2) (-9)) (quarter_eps_pt 6 3)) in
  let call := run_query_on rbtree_set hypot_floor 56 s q (kdtree.mkWorld ∅ ∅) in
  let h := kdtree.nodes (fst call) in
  let first := fst (snd call) in
  query_offers hypot_floor s q = [b; a; c] /\
  result_set_on rbtree_set hypot_floor s q = [a; b; c] /\
  kdtree.deref h first = Some a /\
  kdtree.deref h (kdtree.advance h 1 first) = Some b /\
  kdtree.deref h (kdtree.advance h 2 first) = Some c /\
  kdtree.iterator_eq (kdtree.advance h 3 first) (snd (snd call)) = true /\
  point_eq a c = true /\ point_lt a c = false /\ point_lt c a = false.
Proof. vm_compute. repeat split. Qed.
